(** * Constrained reconstruction engine of fathom-to-umami

    A shallow embedding of the marginal extractor ([simple_ipf.py]), the
    IPF weight estimation and the greedy integer assignment
    ([exact_ipf.py]), the round-trip verifier
    ([validate_reconstruction.py]) and the session composer
    ([full_pipeline.py], [fathom_to_umami_converter.py]).

    Conventions of the embedding.
    - A Python [dict] that the code iterates is an association list in
      insertion order; a [dict] that is only read and written by key is a
      [gmap].  The per-dimension totals ([dict] from category value to
      [int]) are [gmap string Z]; the marginals ([dict] from dimension name
      to totals) are a list of pairs, because the order of
      [marginals.items()] fixes the order of the dimensions.
    - Python [int] is [Z].  Python [float] is idealised as an exact
      rational ([Qc]); rounding error, infinities and NaN are outside the
      model.
    - Exceptions are explicit: a function that can raise returns
      [result A]. *)

From Stdlib Require Import ZArith QArith Qcanon Qcabs Qround Ascii String List Sorted Lia Lqa.
From stdpp Require Import gmap strings list fin_maps.

Local Open Scope string_scope.
Local Open Scope list_scope.
Local Open Scope Z_scope.

(** ** Python exceptions and the error monad *)

Inductive exn : Type :=
  | KeyError (key : string)
  | ValueError
  | IndexError
  | ZeroDivisionError.

Inductive result (A : Type) : Type :=
  | Ok (a : A)
  | Raise (e : exn).
Arguments Ok {A} a.
Arguments Raise {A} e.

Global Instance result_ret : MRet result := @Ok.
Global Instance result_bind : MBind result := λ A B f r,
  match r with Ok a => f a | Raise e => Raise e end.
Global Instance result_fmap : FMap result := λ A B f r,
  match r with Ok a => Ok (f a) | Raise e => Raise e end.

Definition is_Ok {A} (r : result A) : Prop := ∃ a, r = Ok a.

(** [for x in l: s = f(s, x)] where the body can raise. *)
Fixpoint foldM {A S : Type} (f : S → A → result S) (s : S) (l : list A)
  : result S :=
  match l with
  | [] => Ok s
  | x :: l' => s' ← f s x; foldM f s' l'
  end.

(** [[f(x) for x in l]] where [f] can raise. *)
Fixpoint forM {A B : Type} (f : A → result B) (l : list A) : result (list B) :=
  match l with
  | [] => Ok []
  | x :: l' => y ← f x; ys ← forM f l'; Ok (y :: ys)
  end.

(** ** Python dictionaries *)

(** [d[k]] on a [dict] with string keys. *)
Definition getitem {V} (d : gmap string V) (k : string) : result V :=
  match d !! k with
  | Some v => Ok v
  | None => Raise (KeyError k)
  end.

(** [d.get(k, dflt)]. *)
Definition get_default {V} (d : gmap string V) (k : string) (dflt : V) : V :=
  default dflt (d !! k).

(** [sum(d.values())] for integer values. *)
Definition dict_sum (d : gmap string Z) : Z :=
  map_fold (λ _ v acc, v + acc) 0 d.

(** [d.get(k, dflt)] and [d[k]] on an insertion-ordered dictionary. *)
Fixpoint assoc {K V} `{EqDecision K} (k : K) (d : list (K * V)) : option V :=
  match d with
  | [] => None
  | (k', v) :: d' => if decide (k = k') then Some v else assoc k d'
  end.

(** [dict(zip(keys, vals))]: later pairs overwrite earlier ones. *)
Definition dict_of_zip {V} (keys : list string) (vals : list V)
  : gmap string V :=
  foldl (λ d kv, <[kv.1 := kv.2]> d) ∅ (zip keys vals).

(** ** Sorting *)

(** A stable insertion sort; [sorted(l)] and [l.sort(key=..)] are stable,
    and for a total preorder every stable sort gives the same list. *)
Fixpoint insert_by {A} (le : A → A → bool) (x : A) (l : list A) : list A :=
  match l with
  | [] => [x]
  | y :: l' => if le x y then x :: l else y :: insert_by le x l'
  end.

Definition sort_by {A} (le : A → A → bool) (l : list A) : list A :=
  foldr (insert_by le) [] l.

(** [sorted(d.keys())]: strings are compared code point by code point. *)
Definition sorted_keys {V} (d : gmap string V) : list string :=
  sort_by String.leb (map_to_list d).*1.

(** ** Marginal extractor ([simple_ipf.get_marginal_totals]) *)

(** One row of a [csv.DictReader]: column name to cell text. *)
Abbreviation row := (gmap string string).
(** [hourly_data]: table name to the rows of the hour. *)
Abbreviation hourly := (gmap string (list row)).
(** Category value to integer count. *)
Abbreviation totals := (gmap string Z).
(** Dimension name to totals, in insertion order. *)
Abbreviation marginals := (list (string * totals)).

Definition is_space (c : ascii) : bool :=
  let n := N_of_ascii c in
  ((9 <=? n) && (n <=? 13) || (28 <=? n) && (n <=? 32))%N.

(** [s.strip()] is empty. *)
Fixpoint is_blank (s : string) : bool :=
  match s with
  | EmptyString => true
  | String c s' => is_space c && is_blank s'
  end.

Section Extractor.
(** The builtin [int(str)]; [None] stands for [ValueError]. *)
Variable py_int : string → option Z.

Definition safe_int (value : string) : Z :=
  if is_blank value then 0 else default 0 (py_int value).

(** [hourly_data.get(name, [])]. *)
Definition rows_of (hourly_data : hourly) (name : string) : list row :=
  default [] (hourly_data !! name).

(** [sum(safe_int(row['Pageviews']) for row in hourly_data.get('site', []))] *)
Definition total_pageviews_of (hourly_data : hourly) : result Z :=
  foldM (λ acc r, v ← getitem r "Pageviews"; Ok (acc + safe_int v))
        0 (rows_of hourly_data "site").

(** The accumulation loop shared by the five dimensions:
    [m[row[label]] = m.get(row[label], 0) + safe_int(row[count])]. *)
Definition tally (label count : string) (rows : list row) : result totals :=
  foldM (λ (m : totals) r,
           k ← getitem r label;
           c ← getitem r count;
           Ok (<[k := get_default m k 0 + safe_int c]> m))
        ∅ rows.

Definition explicit_referrers (hourly_data : hourly) : result totals :=
  tally "Referrer Hostname" "Views" (rows_of hourly_data "referrers").

(** The last four lines of the referrers block. *)
Definition add_direct (total_pageviews : Z) (referrers : totals) : totals :=
  let referrer_total := dict_sum referrers in
  let direct_visits := total_pageviews - referrer_total in
  if 0 <? direct_visits then <["(direct)" := direct_visits]> referrers
  else referrers.

Definition get_marginal_totals (hourly_data : hourly) : result marginals :=
  total_pageviews ← total_pageviews_of hourly_data;
  pages ← tally "Pathname" "Views" (rows_of hourly_data "pages");
  browsers ← tally "Browser" "Pageviews" (rows_of hourly_data "browsers");
  countries ← tally "Country" "Pageviews" (rows_of hourly_data "countries");
  devices ← tally "Device Type" "Pageviews" (rows_of hourly_data "devices");
  referrers ← explicit_referrers hourly_data;
  Ok [("pages", pages); ("browsers", browsers); ("countries", countries);
      ("devices", devices);
      ("referrers", add_direct total_pageviews referrers)].
End Extractor.

(** ** Python numbers *)

Local Open Scope Qc_scope.

(** [x < y] and [x <= y] on floats. *)
Definition Qc_ltb (x y : Qc) : bool :=
  match x ?= y with Lt => true | _ => false end.
Definition Qc_leb (x y : Qc) : bool :=
  match x ?= y with Gt => false | _ => true end.

(** [x / y] on floats, and on ints after conversion. *)
Definition py_div (x y : Qc) : result Qc :=
  if decide (y = 0) then Raise ZeroDivisionError else Ok (x / y).

(** [sum(xs)] on floats. *)
Definition float_sum (xs : list Qc) : Qc := foldl Qcplus 0 xs.

(** [max(xs)] of a sequence of ints. *)
Definition py_max (xs : list Z) : result Z :=
  match xs with
  | [] => Raise ValueError
  | x :: xs' => Ok (foldl Z.max x xs')
  end.

(** [l.index(x)]. *)
Definition list_index (x : string) (l : list string) : result nat :=
  match list_find (λ y, y = x) l with
  | Some (i, _) => Ok i
  | None => Raise ValueError
  end.

(** ** Joint weight estimator ([exact_ipf.run_ipf_for_weights]) *)

(** One value per active dimension, as the tuples of [itertools.product]. *)
Abbreviation combo := (list string).
(** The [table] of the source: combination to weight, in insertion order. *)
Abbreviation weight_table := (list (combo * Qc)).

(** [combo[i]]. *)
Definition tuple_get (c : combo) (i : nat) : result string :=
  match c !! i with
  | Some v => Ok v
  | None => Raise IndexError
  end.

(** [itertools.product] of the lists [ls]: the last position varies fastest. *)
Fixpoint product (ls : list (list string)) : list combo :=
  match ls with
  | [] => [[]]
  | l :: ls' => flat_map (λ x, map (cons x) (product ls')) l
  end.

(** [dimensions]: the dimensions with a non-empty marginal, each with its
    sorted category values. *)
Definition active_dimensions (m : marginals) : list (string * list string) :=
  omap (λ '(dim_name, tot),
          if decide (tot = ∅) then None else Some (dim_name, sorted_keys tot))
       m.

(** [max(sum(totals.values()) for totals in marginals.values())] *)
Definition total_events_of (m : marginals) : result Z :=
  py_max (map (λ p, dict_sum p.2) m).

(** [{k: v/total_events for k, v in totals.items()}] *)
Definition normalize_totals (total_events : Z) (tot : totals)
  : result (gmap string Qc) :=
  if bool_decide (tot ≠ ∅ ∧ total_events = 0%Z) then Raise ZeroDivisionError
  else Ok ((λ v, Qc_of_Z v / Qc_of_Z total_events) <$> tot).

Definition normalize_marginals (total_events : Z) (m : marginals)
  : result (list (string * gmap string Qc)) :=
  forM (λ '(dim_name, tot),
          nt ← normalize_totals total_events tot; Ok (dim_name, nt))
       (filter (λ p, p.2 ≠ ∅) m).

(** The uniform table over the cross product, normalised to sum 1. *)
Definition uniform_table (dim_values : list (list string)) : result weight_table :=
  let table := map (λ c, (c, 1)) (product dim_values) in
  let total := float_sum table.*2 in
  forM (λ '(key, v), v' ← py_div v total; Ok (key, v')) table.

(** The first loop of the two constraint functions:
    [current_marginals[combo[dim_index]] += prob]. *)
Definition current_marginals_of (table : weight_table) (dim_index : nat)
  : result (gmap string Qc) :=
  foldM (λ (cm : gmap string Qc) '(combo, prob),
           dim_value ← tuple_get combo dim_index;
           Ok (<[dim_value := get_default cm dim_value 0 + prob]> cm))
        ∅ table.

(** The second loop of the two constraint functions. *)
Definition adjust_probabilities (table : weight_table) (dim_index : nat)
    (current_marginals marginal_totals : gmap string Qc) : result weight_table :=
  forM (λ '(combo, prob),
          dim_value ← tuple_get combo dim_index;
          let current_total := get_default current_marginals dim_value 0 in
          let target_total := get_default marginal_totals dim_value 0 in
          if Qc_ltb 0 current_total then
            adjustment_factor ← py_div target_total current_total;
            Ok (combo, prob * adjustment_factor)
          else Ok (combo, 0))
       table.

(** [exact_ipf.apply_marginal_constraint_simple] *)
Definition apply_marginal_constraint_simple (table : weight_table)
    (dim_names : list string) (constraint_dim : string)
    (marginal_totals : gmap string Qc) : result weight_table :=
  dim_index ← list_index constraint_dim dim_names;
  current_marginals ← current_marginals_of table dim_index;
  adjust_probabilities table dim_index current_marginals marginal_totals.

(** [simple_ipf.apply_marginal_constraint]; its [combinations] argument is
    not used by the body. *)
Definition apply_marginal_constraint (table : weight_table)
    (dim_names : list string) (constraint_dim : string)
    (marginal_totals : gmap string Qc) : result weight_table :=
  if bool_decide (constraint_dim ∈ dim_names) then
    dim_index ← list_index constraint_dim dim_names;
    current_marginals ← current_marginals_of table dim_index;
    adjust_probabilities table dim_index current_marginals marginal_totals
  else Ok table.

(** One pass of the inner [for dim_name in dim_names] loop. *)
Definition sweep (normalized_marginals : list (string * gmap string Qc))
    (dim_names : list string) (table : weight_table) : result weight_table :=
  foldM (λ table dim_name,
           match assoc dim_name normalized_marginals with
           | Some marginal_totals =>
               apply_marginal_constraint_simple
                 table dim_names dim_name marginal_totals
           | None => Ok table
           end)
        table dim_names.

(** [sum(abs(table[k] - old_table.get(k, 0)) for k in table)] *)
Definition total_change (table old_table : weight_table) : Qc :=
  float_sum (map (λ '(k, v), Qcabs (v - default 0 (assoc k old_table))) table).

(** The literal [1e-8]. *)
Definition tolerance : Qc := Q2Qc (1 # 100000000).

(** [for iteration in range(rounds)] with its [break].  The second
    component counts the sweeps that were run; the source does not return
    it. *)
Fixpoint ipf_iterations (rounds : nat)
    (normalized_marginals : list (string * gmap string Qc))
    (dim_names : list string) (table : weight_table) : result (weight_table * nat) :=
  match rounds with
  | O => Ok (table, O)
  | S rounds' =>
      let old_table := table in
      table ← sweep normalized_marginals dim_names table;
      if Qc_ltb (total_change table old_table) tolerance then Ok (table, 1%nat)
      else
        r ← ipf_iterations rounds' normalized_marginals dim_names table;
        Ok (r.1, S r.2)
  end.

(** The body of [run_ipf_for_weights], with the sweep count kept. *)
Definition run_ipf_counting (m : marginals) : result (weight_table * nat) :=
  let dimensions := active_dimensions m in
  let dim_names := dimensions.*1 in
  let dim_values := dimensions.*2 in
  table ← uniform_table dim_values;
  total_events ← total_events_of m;
  normalized_marginals ← normalize_marginals total_events m;
  ipf_iterations 50 normalized_marginals dim_names table.

(** [return table, None, dim_names] *)
Definition run_ipf_for_weights (m : marginals)
  : result (weight_table * option bool * list string) :=
  r ← run_ipf_counting m;
  Ok (r.1, None, (active_dimensions m).*1).

Local Close Scope Qc_scope.

(** ** Exact integer assignment ([exact_ipf.solve_integer_assignment]) *)

(** A combination or synthetic event: dimension name to category value. *)
Abbreviation event := (gmap string string).

(** The variables of the greedy loop. *)
Record assign_state : Type := AssignState {
  events : list event;
  remaining_quotas : gmap string totals;
  remaining_events : Z
}.

(** [remaining_quotas[dim_name] = totals.copy()] for every dimension. *)
Definition initial_quotas (m : marginals) : gmap string totals :=
  foldl (λ rq p, <[p.1 := p.2]> rq) ∅ m.

(** [tuple(combo_dict[dim] for dim in dim_names)] *)
Definition combo_tuple_of (dim_names : list string) (combo_dict : event)
  : result combo :=
  forM (getitem combo_dict) dim_names.

(** The list [combo_weights] before it is sorted. *)
Definition weigh (combinations : list event) (dim_names : list string)
    (weights_table : weight_table) : result (list (event * Qc)) :=
  forM (λ combo_dict,
          combo_tuple ← combo_tuple_of dim_names combo_dict;
          Ok (combo_dict, default 0%Qc (assoc combo_tuple weights_table)))
       combinations.

(** [sort(key=lambda x: x[1], reverse=True)]: [x] stays before [y] when its
    weight is at least that of [y]. *)
Definition heavier_first (x y : event * Qc) : bool := Qc_leb y.2 x.2.

(** The inner loop that lowers [max_assignable] to the smallest quota. *)
Definition max_assignable_of (dim_names : list string) (combo_dict : event)
    (st : assign_state) : result Z :=
  foldM (λ max_assignable dim_name,
           dim_value ← getitem combo_dict dim_name;
           quotas ← getitem (remaining_quotas st) dim_name;
           let quota_left := get_default quotas dim_value 0 in
           Ok (Z.min max_assignable quota_left))
        (remaining_events st) dim_names.

(** [remaining_quotas[dim_name][dim_value] -= n] for every dimension. *)
Definition decrement_quotas (dim_names : list string) (combo_dict : event)
    (n : Z) (rq : gmap string totals) : result (gmap string totals) :=
  foldM (λ (rq : gmap string totals) dim_name,
           dim_value ← getitem combo_dict dim_name;
           quotas ← getitem rq dim_name;
           q ← getitem quotas dim_value;
           Ok (<[dim_name := <[dim_value := q - n]> quotas]> rq))
        rq dim_names.

(** The body of the greedy loop after the [break] test. *)
Definition assign_combo (dim_names : list string) (combo_dict : event)
    (st : assign_state) : result assign_state :=
  max_assignable ← max_assignable_of dim_names combo_dict st;
  if 0 <? max_assignable then
    rq ← decrement_quotas dim_names combo_dict max_assignable
                          (remaining_quotas st);
    Ok {| events := events st
                    ++ replicate (Z.to_nat max_assignable) combo_dict;
          remaining_quotas := rq;
          remaining_events := remaining_events st - max_assignable |}
  else Ok st.

(** [for combo_dict, weight in combo_weights], stopping at the [break]. *)
Fixpoint greedy_assignment (dim_names : list string)
    (combo_weights : list (event * Qc)) (st : assign_state)
  : result assign_state :=
  match combo_weights with
  | [] => Ok st
  | (combo_dict, weight) :: rest =>
      if remaining_events st <=? 0 then Ok st
      else
        st' ← assign_combo dim_names combo_dict st;
        greedy_assignment dim_names rest st'
  end.

(** The state in which the greedy loop ends; the source returns its
    [events] only. *)
Definition run_integer_assignment (combinations : list event)
    (dim_names : list string) (m : marginals) (weights_table : weight_table)
    (total_events : Z) : result assign_state :=
  let st := {| events := [];
               remaining_quotas := initial_quotas m;
               remaining_events := total_events |} in
  combo_weights ← weigh combinations dim_names weights_table;
  greedy_assignment dim_names (sort_by heavier_first combo_weights) st.

Definition solve_integer_assignment (combinations : list event)
    (dim_names : list string) (m : marginals) (weights_table : weight_table)
    (total_events : Z) : result (list event) :=
  events <$> run_integer_assignment combinations dim_names m weights_table
                                    total_events.

(** [combinations]: one [dict(zip(dim_names, combo))] per product tuple. *)
Definition combinations_of (dimensions : list (string * list string))
  : list event :=
  map (dict_of_zip dimensions.*1) (product dimensions.*2).

(** [exact_ipf.solve_exact_distribution]; [max_iterations] and [tolerance]
    are not used by the body. *)
Definition solve_exact_distribution (m : marginals)
  : result (list event * list event) :=
  let dimensions := active_dimensions m in
  if decide (dimensions = []) then Ok ([], [])
  else
    let dim_names := dimensions.*1 in
    let combinations := combinations_of dimensions in
    r ← run_ipf_for_weights m;
    let table := r.1.1 in
    total_events ← total_events_of m;
    result_events ← solve_integer_assignment combinations dim_names m table
                                             total_events;
    Ok (result_events, combinations).

(** ** Round-trip verifier ([validate_reconstruction.py]) *)

(** The five dimensions the verifier is written for. *)
Definition dimension_names : list string :=
  ["pages"; "browsers"; "countries"; "devices"; "referrers"].

(** [reconstructed[dim][event[dim]] += 1] on a [defaultdict(int)]. *)
Definition bump (dim : string) (ev : event) (reconstructed : gmap string totals)
  : result (gmap string totals) :=
  value ← getitem ev dim;
  counts ← getitem reconstructed dim;
  Ok (<[dim := <[value := get_default counts value 0 + 1]> counts]>
        reconstructed).

(** The recount of one dimension: how often each category value occurs. *)
Definition count_values (dim : string) (evs : list event) : result totals :=
  foldM (λ (counts : totals) ev,
           value ← getitem ev dim;
           Ok (<[value := get_default counts value 0 + 1]> counts))
        ∅ evs.

Definition reconstruct_marginals_from_events (evs : list event)
  : result marginals :=
  let reconstructed : gmap string totals :=
    <["referrers" := ∅]> (<["devices" := ∅]> (<["countries" := ∅]>
      (<["browsers" := ∅]> (<["pages" := ∅]> ∅)))) in
  reconstructed ←
    foldM (λ reconstructed ev,
             r1 ← bump "pages" ev reconstructed;
             r2 ← bump "browsers" ev r1;
             r3 ← bump "countries" ev r2;
             r4 ← bump "devices" ev r3;
             bump "referrers" ev r4)
          reconstructed evs;
  forM (λ k, v ← getitem reconstructed k; Ok (k, v)) dimension_names.

(** The inner loop of [compare_marginals]: [matches] for one dimension. *)
Definition compare_dimension (orig_dict recon_dict : totals) : bool :=
  let all_keys : gset string := dom orig_dict ∪ dom recon_dict in
  foldl (λ matches key,
           let orig_val := get_default orig_dict key 0 in
           let recon_val := get_default recon_dict key 0 in
           if decide (orig_val ≠ recon_val) then false else matches)
        true (sort_by String.leb (elements all_keys)).

(** [compare_marginals], without its printing; the result is [all_match]. *)
Definition compare_marginals (original reconstructed : marginals) : bool :=
  foldl (λ all_match dim,
           let orig_dict := default ∅ (assoc dim original) in
           let recon_dict := default ∅ (assoc dim reconstructed) in
           if compare_dimension orig_dict recon_dict then all_match else false)
        true dimension_names.

(** ** Session composer ([create_session_visits]) *)

Local Open Scope Qc_scope.

(** [round(x)] of a float: to the nearest integer, ties to the even one. *)
Definition py_round (x : Qc) : Z :=
  let f := Qfloor x in
  match Qccompare (x - Qc_of_Z f) (Q2Qc (1 # 2)) with
  | Lt => f
  | Gt => (f + 1)%Z
  | Eq => if Z.even f then f else (f + 1)%Z
  end.

(** [bounced_visits = round(visit_count * bounce_rate)] *)
Definition bounced_visits_of (visit_count : Z) (bounce_rate : Qc) : Z :=
  py_round (Qc_of_Z visit_count * bounce_rate).

Local Close Scope Qc_scope.

(** [not l] for a list. *)
Definition is_empty {A} (l : list A) : bool :=
  match l with [] => true | _ => false end.

Section Visits.
Context {A : Type}.

(** [for i in range(n): if events_copy: visits.append([events_copy.pop(0)])] *)
Fixpoint bounce_loop (n : nat) (events_copy : list A) (visits : list (list A))
  : list A * list (list A) :=
  match n with
  | O => (events_copy, visits)
  | S n' =>
      match events_copy with
      | e :: rest => bounce_loop n' rest (visits ++ [[e]])
      | [] => bounce_loop n' [] visits
      end
  end.

(** [for j in range(visit_size): if events_copy: visit.append(events_copy.pop(0))] *)
Fixpoint take_events (visit_size : nat) (events_copy visit : list A)
  : list A * list A :=
  match visit_size with
  | O => (events_copy, visit)
  | S k =>
      match events_copy with
      | e :: rest => take_events k rest (visit ++ [e])
      | [] => take_events k [] visit
      end
  end.

(** [for i in range(multi_page_visits)], over the [indices]. *)
Fixpoint multi_loop (indices : list Z) (events_per_visit remainder : Z)
    (events_copy : list A) (visits : list (list A))
  : list A * list (list A) :=
  match indices with
  | [] => (events_copy, visits)
  | i :: indices' =>
      let visit_size := events_per_visit + (if i <? remainder then 1 else 0) in
      let '(events_copy, visit) :=
        take_events (Z.to_nat visit_size) events_copy [] in
      multi_loop indices' events_per_visit remainder events_copy
                 (match visit with [] => visits | _ => visits ++ [visit] end)
  end.

(** The visit structure built by [create_session_visits] (the lines up to
    the metadata loop), for a non-empty or empty [events]. *)
Definition build_visits (events : list A) (visit_count : Z) (bounce_rate : Qc)
  : list (list A) :=
  let bounced_visits := bounced_visits_of visit_count bounce_rate in
  let multi_page_visits := visit_count - bounced_visits in
  let '(events_copy, visits) :=
    bounce_loop (Z.to_nat bounced_visits) events [] in
  if (0 <? multi_page_visits) && negb (is_empty events_copy) then
    let events_per_visit := Z.of_nat (length events_copy) `div` multi_page_visits in
    let remainder := Z.of_nat (length events_copy) `mod` multi_page_visits in
    (multi_loop (seqZ 0 multi_page_visits) events_per_visit remainder
                events_copy visits).2
  else visits.
End Visits.

(** The fields of an enhanced event that depend on the visit structure or
    on the synthetic event.  [created_offset] is [event_offset], the
    seconds added to [base_timestamp]; the constant fields ([language],
    [event_type], the empty marketing fields) and the fields inferred from
    the browser and device names are left out. *)
Record session_event : Type := SessionEvent {
  website_id : string;
  session_id : string;
  visit_id : string;
  event_id : string;
  browser : string;
  device : string;
  country : string;
  url_path : string;
  referrer_domain : option string;
  created_offset : Qc;
  visit_page_number : Z;
  is_bounce : bool;
  visit_duration_estimate : Qc
}.

(** [enumerate(l)] *)
Definition enumerate {A} (l : list A) : list (nat * A) :=
  zip (seq 0 (length l)) l.

Section Composer.
(** [uuid4 n] is the text of the [n]-th identifier that [uuid.uuid4()]
    hands out during one call. *)
Variable uuid4 : nat → string.

Local Open Scope Qc_scope.

Definition Qc_of_nat (n : nat) : Qc := Qc_of_Z (Z.of_nat n).

(** The body of [for event_idx, event in enumerate(visit)]; [next] is the
    number of identifiers drawn so far. *)
Definition enhance_event (website_id session_id visit_id : string)
    (visit_start_offset visit_duration : Qc) (visit_len : nat)
    (acc : list session_event * nat) (indexed : nat * event)
  : result (list session_event * nat) :=
  let '(enhanced_events, next) := acc in
  let '(event_idx, ev) := indexed in
  let event_offset :=
    if (1 <? visit_len)%nat
    then visit_start_offset
         + Qc_of_nat event_idx * visit_duration / Qc_of_nat visit_len
    else visit_start_offset in
  let event_id := uuid4 next in
  browser ← getitem ev "browsers";
  device ← getitem ev "devices";
  country ← getitem ev "countries";
  url_path ← getitem ev "pages";
  referrer ← getitem ev "referrers";
  Ok ((enhanced_events ++
        [{| website_id := website_id;
            session_id := session_id;
            visit_id := visit_id;
            event_id := event_id;
            browser := browser;
            device := device;
            country := country;
            url_path := url_path;
            referrer_domain :=
              if decide (referrer ≠ "(direct)") then Some referrer else None;
            created_offset := event_offset;
            visit_page_number := Z.of_nat event_idx + 1;
            is_bounce := bool_decide (visit_len = 1%nat);
            visit_duration_estimate := visit_duration |}])%list,
      S next).

(** The body of [for visit_idx, visit in enumerate(visits)]. *)
Definition enhance_visit (website_id : string) (n_visits n_events : nat)
    (avg_duration : Qc) (acc : list session_event * nat)
    (indexed : nat * list event) : result (list session_event * nat) :=
  let '(enhanced_events, next) := acc in
  let '(visit_idx, visit) := indexed in
  let session_id := uuid4 next in
  let visit_id := uuid4 (S next) in
  let visit_duration :=
    if decide (n_visits = 1%nat) then avg_duration
    else avg_duration * Qc_of_nat (length visit) / Qc_of_nat n_events in
  let time_spread := Qc_of_Z 3600 in
  let visit_start_offset :=
    if (1 <? n_visits)%nat
    then Qc_of_nat visit_idx / Qc_of_nat n_visits * time_spread
    else 0 in
  foldM (enhance_event website_id session_id visit_id visit_start_offset
                       visit_duration (length visit))
        (enhanced_events, S (S next)) (enumerate visit).

(** [full_pipeline.create_session_visits]; the method of the same name in
    [fathom_to_umami_converter.py] builds [visits] by the same lines and
    differs in the metadata only.  [base_timestamp] enters the source
    only as the origin of [created_offset]. *)
Definition create_session_visits (events : list event) (visit_count : Z)
    (bounce_rate avg_duration : Qc) : result (list session_event) :=
  if is_empty events then Ok []
  else
    let visits := build_visits events visit_count bounce_rate in
    let website_id := uuid4 0 in
    r ← foldM (enhance_visit website_id (length visits) (length events)
                             avg_duration)
              ([], 1%nat) (enumerate visits);
    Ok r.1.
End Composer.

(** ** Notions used to state the properties *)

(** The remaining quota of category value [v] in dimension [d]; a missing
    dimension or value counts as no quota, as [.get(dim_value, 0)] does. *)
Definition quota (rq : gmap string totals) (d v : string) : Z :=
  get_default (default ∅ (rq !! d)) v 0.

(** The number of events whose value in dimension [d] is [v]. *)
Definition occurrences (d v : string) (evs : list event) : Z :=
  Z.of_nat (length (filter (λ ev, ev !! d = Some v) evs)).

(** The target count of value [v] in dimension [d] of the marginals. *)
Definition target (m : marginals) (d v : string) : Z :=
  get_default (default ∅ (assoc d m)) v 0.

(** Every count of the marginals is a non-negative integer. *)
Definition nonneg_marginals (m : marginals) : Prop :=
  ∀ d tot v c, (d, tot) ∈ m → tot !! v = Some c → 0 ≤ c.

(** The aggregated weight of value [v] at position [i]: the sum of the
    weights of all combinations of the table that contain it. *)
Definition aggregated_weight (t : weight_table) (i : nat) (v : string) : Qc :=
  float_sum (filter (λ p, p.1 !! i = Some v) t).*2.

(** No quota is negative. *)
Definition quotas_nonneg (rq : gmap string totals) : Prop :=
  ∀ d v, 0 ≤ quota rq d v.

(** The sum of [f] over a list. *)
Definition sum_over {A} (f : A → Z) (l : list A) : Z :=
  foldr (λ x acc, f x + acc) 0 l.

(** How one constraint application changes an entry of the table: the
    combination stays, and its weight is rescaled by target over current
    aggregate of its value at position [i], or set to zero when that
    aggregate is not positive. *)
Definition rescaled (i : nat) (current target : string → Qc)
    (old new : combo * Qc) : Prop :=
  new.1 = old.1 ∧
  ∃ v, old.1 !! i = Some v ∧
       new.2 = if Qc_ltb 0 (current v)
               then (old.2 * (target v / current v))%Qc else 0%Qc.

(** [n] sweeps in a row. *)
Fixpoint iterate_sweep (n : nat)
    (normalized_marginals : list (string * gmap string Qc))
    (dim_names : list string) (t : weight_table) : result weight_table :=
  match n with
  | O => Ok t
  | S n' =>
      t' ← sweep normalized_marginals dim_names t;
      iterate_sweep n' normalized_marginals dim_names t'
  end.

(** Every combination of the table has one value per dimension. *)
Definition table_arity (n : nat) (t : weight_table) : Prop :=
  ∀ c p, (c, p) ∈ t → length c = n.

(** Every dimension's counts are non-negative and add up to [N]; a joint
    table with these marginals then exists. *)
Definition jointly_feasible (m : marginals) (N : Z) : Prop :=
  NoDup m.*1 ∧ nonneg_marginals m ∧ ∀ d tot, (d, tot) ∈ m → dict_sum tot = N.

(** A population of events whose recount in every dimension of [m] is the
    marginal of that dimension. *)
Definition consistent_population (m : marginals) (evs : list event) : Prop :=
  ∀ d v, d ∈ m.*1 → occurrences d v evs = target m d v.

(** The marginals of the scenarios of the specification. *)
Definition scenario_marginals : marginals :=
  [("pages", <["/a" := 3]> (<["/b" := 2]> ∅));
   ("browsers", <["Chrome" := 4]> (<["Safari" := 1]> ∅))].

Definition infeasible_marginals : marginals :=
  [("pages", <["/a" := 3]> ∅);
   ("browsers", <["Chrome" := 1]> (<["Safari" := 1]> ∅))].

(** An hour in which the only page row has a count of zero. *)
Definition zero_marginals : marginals :=
  [("pages", <["/a" := 0]> ∅); ("browsers", ∅); ("countries", ∅);
   ("devices", ∅); ("referrers", ∅)].

(** Marginals over two dimensions only. *)
Definition two_dimension_marginals : marginals :=
  [("pages", <["/a" := 1]> ∅); ("browsers", <["Chrome" := 1]> ∅)].

(** Marginals without any category value. *)
Definition empty_marginals : marginals :=
  [("pages", ∅); ("browsers", ∅); ("countries", ∅); ("devices", ∅);
   ("referrers", ∅)].

(** A reading of [int] for the examples: unsigned decimal numerals. *)
Fixpoint decimal_digits (acc : Z) (s : string) : option Z :=
  match s with
  | EmptyString => Some acc
  | String c s' =>
      let n := Z.of_N (N_of_ascii c) in
      if (48 <=? n) && (n <=? 57) then decimal_digits (10 * acc + (n - 48)) s'
      else None
  end.

Definition decimal (s : string) : option Z :=
  match s with
  | EmptyString => None
  | _ => decimal_digits 0 s
  end.

(** An hour with five pageviews of which three have a referrer. *)
Definition example_site_row : row := <["Pageviews" := "5"]> ∅.
Definition example_referrer_a : row :=
  <["Referrer Hostname" := "a.org"]> (<["Views" := "2"]> ∅).
Definition example_referrer_b : row :=
  <["Referrer Hostname" := "b.org"]> (<["Views" := "1"]> ∅).
Definition example_hour : hourly :=
  <["site" := cons example_site_row nil]>
    (<["referrers" := cons example_referrer_a (cons example_referrer_b nil)]> ∅).

(** The events the solver returns on the two scenarios. *)
Definition scenario_events : list event :=
  replicate 3 (dict_of_zip ["pages"; "browsers"] ["/a"; "Chrome"])
  ++ [dict_of_zip ["pages"; "browsers"] ["/b"; "Chrome"];
      dict_of_zip ["pages"; "browsers"] ["/b"; "Safari"]].

Definition infeasible_events : list event :=
  [dict_of_zip ["pages"; "browsers"] ["/a"; "Chrome"];
   dict_of_zip ["pages"; "browsers"] ["/a"; "Safari"]].

(** Two pageviews described in all five dimensions. *)
Definition five_dimension_marginals : marginals :=
  [("pages", <["/a" := 1]> (<["/b" := 1]> ∅));
   ("browsers", <["Chrome" := 2]> ∅);
   ("countries", <["DE" := 1]> (<["US" := 1]> ∅));
   ("devices", <["desktop" := 2]> ∅);
   ("referrers", <["(direct)" := 2]> ∅)].

(** A table in which one combination already has weight zero, and the
    normalised marginal of its second dimension. *)
Definition example_table : weight_table :=
  [(["/a"; "Chrome"], Q2Qc (1 # 2)); (["/a"; "Safari"], 0%Qc);
   (["/b"; "Chrome"], Q2Qc (1 # 2)); (["/b"; "Safari"], 0%Qc)].

Definition example_browser_fractions : gmap string Qc :=
  <["Chrome" := Q2Qc (4 # 5)]> (<["Safari" := Q2Qc (1 # 5)]> ∅).

(** The sizes [visit_size] takes for the indices [0 .. n-1]. *)
Definition visit_sizes (len n : Z) : list nat :=
  (λ i, Z.to_nat (len `div` n + if i <? len `mod` n then 1 else 0))
    <$> seqZ 0 n.

(** An enhanced event carries the values of the synthetic event. *)
Definition describes (se : session_event) (ev : event) : Prop :=
  ev !! "browsers" = Some (browser se) ∧
  ev !! "devices" = Some (device se) ∧
  ev !! "countries" = Some (country se) ∧
  ev !! "pages" = Some (url_path se) ∧
  ∃ r, ev !! "referrers" = Some r ∧
       referrer_domain se = if decide (r ≠ "(direct)") then Some r else None.
(** ** Further functions of the sources *)

Local Open Scope Qc_scope.

(** [simple_ipf.normalize_table] *)
Definition normalize_table (table : weight_table) : weight_table :=
  let total := float_sum table.*2 in
  if Qc_ltb 0 total then map (λ '(key, v), (key, v / total)) table
  else table.

Local Close Scope Qc_scope.

(** [d[k] = v] on an insertion-ordered dictionary: a key that is present
    keeps its place, a new key goes to the end. *)
Fixpoint dict_set {K V} `{EqDecision K} (k : K) (v : V) (d : list (K * V))
  : list (K * V) :=
  match d with
  | [] => [(k, v)]
  | (k', v') :: d' =>
      if decide (k = k') then (k, v) :: d' else (k', v') :: dict_set k v d'
  end.

(** [sorted(table.items(), key=lambda x: x[1], reverse=True)] *)
Definition heavier_combo_first (x y : combo * Qc) : bool := Qc_leb y.2 x.2.

(** The first loop of [sample_events_deterministic]: every combination
    gets its rounded weight, cut down to what is left to hand out. *)
Fixpoint round_counts (sorted_combos : list (combo * Qc))
    (combo_counts : list (combo * Z)) (remaining_events : Z)
  : list (combo * Z) * Z :=
  match sorted_combos with
  | [] => (combo_counts, remaining_events)
  | (combo, prob) :: rest =>
      let count := py_round prob in
      let count := if remaining_events <? count then remaining_events
                   else count in
      let combo_counts := dict_set combo count combo_counts in
      let remaining_events := remaining_events - count in
      if remaining_events <=? 0 then (combo_counts, remaining_events)
      else round_counts rest combo_counts remaining_events
  end.

(** The second loop: one more event for the heaviest combinations while
    events are left. *)
Fixpoint spread_remaining (sorted_combos : list (combo * Qc))
    (combo_counts : list (combo * Z)) (remaining_events : Z)
  : list (combo * Z) * Z :=
  match sorted_combos with
  | [] => (combo_counts, remaining_events)
  | (combo, prob) :: rest =>
      if remaining_events <=? 0 then (combo_counts, remaining_events)
      else
        match assoc combo combo_counts with
        | Some count =>
            spread_remaining rest (dict_set combo (count + 1) combo_counts)
                             (remaining_events - 1)
        | None => spread_remaining rest combo_counts remaining_events
        end
  end.

(** [simple_ipf.sample_events_deterministic] *)
Definition sample_events_deterministic (table : weight_table)
    (combinations : list event) (dim_names : list string) (num_events : Z)
  : list event :=
  if is_empty table || is_empty combinations then []
  else
    let sorted_combos := sort_by heavier_combo_first table in
    let '(combo_counts, remaining_events) :=
      round_counts sorted_combos [] num_events in
    let '(combo_counts, _) :=
      spread_remaining sorted_combos combo_counts remaining_events in
    flat_map (λ '(combo, count),
                replicate (Z.to_nat count) (dict_of_zip dim_names combo))
             combo_counts.

Section Reconstruction.
Variable py_int : string → option Z.

(** [exact_ipf.test_exact_reconstruction] once the hour is loaded; the
    result is [(matches, synthetic_events)]. *)
Definition test_exact_reconstruction (hourly_data : hourly)
  : result (bool * list event) :=
  original_marginals ← get_marginal_totals py_int hourly_data;
  r ← solve_exact_distribution original_marginals;
  let synthetic_events := r.1 in
  reconstructed_marginals ← reconstruct_marginals_from_events synthetic_events;
  let matches := compare_marginals original_marginals reconstructed_marginals in
  Ok (matches, synthetic_events).
End Reconstruction.

(** ** Further notions used to state the properties *)

(** The cell of column [count] read as [safe_int] reads it, summed over
    the rows whose cell of column [label] is [k]. *)
Definition label_total (py_int : string → option Z) (label count : string)
    (rows : list row) (k : string) : Z :=
  sum_over (λ r, if decide (r !! label = Some k)
                 then safe_int py_int (default "" (r !! count)) else 0)
           rows.

(** Every row has the two columns the accumulation loop reads. *)
Definition has_columns (label count : string) (rows : list row) : Prop :=
  ∀ r, r ∈ rows → is_Some (r !! label) ∧ is_Some (r !! count).

(** The sum of the rounded weights of a table. *)
Definition rounded_total (t : weight_table) : Z :=
  sum_over (λ p, py_round p.2) t.

(** An hour with two pageviews, no visit from a referrer. *)
Definition example_row (label value count n : string) : row :=
  <[label := value]> (<[count := n]> ∅).
Definition example_full_hour : hourly :=
  <["site" := cons (<["Pageviews" := "2"]> ∅) nil]>
  (<["pages" := cons (example_row "Pathname" "/a" "Views" "1")
                  (cons (example_row "Pathname" "/b" "Views" "1") nil)]>
  (<["browsers" := cons (example_row "Browser" "Chrome" "Pageviews" "2") nil]>
  (<["countries" := cons (example_row "Country" "DE" "Pageviews" "1")
                      (cons (example_row "Country" "US" "Pageviews" "1") nil)]>
  (<["devices" := cons (example_row "Device Type" "desktop" "Pageviews" "2")
                       nil]> ∅)))).

(** An hour in which ["(direct)"] is itself a referrer host name. *)
Definition example_direct_hour : hourly :=
  <["site" := cons (<["Pageviews" := "5"]> ∅) nil]>
    (<["referrers" :=
         cons (example_row "Referrer Hostname" "(direct)" "Views" "1")
           (cons (example_row "Referrer Hostname" "a.org" "Views" "2") nil)]>
       ∅).

(** The number of combinations of the marginals: the product of the
    numbers of category values of the dimensions that have any. *)
Definition joint_size (m : marginals) : nat :=
  foldr (λ p n, if decide (p.2 = ∅) then n else (size p.2 * n)%nat) 1%nat m.


(** The number of identifiers drawn before visit [j] is reached: one for
    the website, two for each earlier visit and one for each of its
    events. *)
Definition visit_start {A} (groups : list (list A)) (j : nat) : nat :=
  1 + 2 * j + length (mjoin (take j groups)).

(** A supply of identifiers for the examples: the [n]-th one is [n]
    letters long. *)
Fixpoint example_uuid4 (n : nat) : string :=
  match n with
  | O => EmptyString
  | S n' => String "u"%char (example_uuid4 n')
  end.

(** An event described in all five dimensions. *)
Definition example_event : event :=
  dict_of_zip dimension_names ["/a"; "Chrome"; "DE"; "desktop"; "(direct)"].

(** The number of events a table of counts stands for. *)
Definition count_sum {K} (combo_counts : list (K * Z)) : Z :=
  sum_over (λ p, p.2) combo_counts.
(** ** Tables that are a product of one factor per dimension *)

Local Open Scope Qc_scope.

(** The sum of [f] over a list, added up as [sum] does. *)
Definition weight_sum {A} (f : A → Qc) (l : list A) : Qc :=
  float_sum (f <$> l).

(** The table that gives each combination [c] of [keys] the weight [f c]. *)
Definition table_of (keys : list combo) (f : combo → Qc) : weight_table :=
  (λ c, (c, f c)) <$> keys.

(** [ws_0(c_0) * ws_1(c_1) * ...]: the weight of a combination in a table
    that is the product of one factor per dimension. *)
Fixpoint factor_product (ws : list (string → Qc)) (c : combo) : Qc :=
  match ws, c with
  | w :: ws', v :: c' => w v * factor_product ws' c'
  | _, _ => 1
  end.

(** The product, over the dimensions, of the sum of the factor of the
    dimension over its values. *)
Fixpoint sums_product (ws : list (string → Qc)) (vals : list (list string))
  : Qc :=
  match ws, vals with
  | w :: ws', l :: vals' => weight_sum w l * sums_product ws' vals'
  | _, _ => 1
  end.

(** The target fractions of the dimensions, as functions of the value:
    [marginal_totals.get(dim_value, 0)]. *)
Definition targets (nm : list (string * gmap string Qc))
  : list (string → Qc) :=
  (λ q v, get_default q.2 v 0) <$> nm.

(** The body of the [for dim_name in dim_names] loop of a sweep. *)
Definition sweep_step (normalized_marginals : list (string * gmap string Qc))
    (dim_names : list string) (table : weight_table) (dim_name : string)
  : result weight_table :=
  match assoc dim_name normalized_marginals with
  | Some marginal_totals =>
      apply_marginal_constraint_simple table dim_names dim_name marginal_totals
  | None => Ok table
  end.

(** The dimensions with a non-empty marginal. *)
Definition active_marginals (m : marginals) : marginals :=
  filter (λ p, p.2 ≠ ∅) m.

Local Close Scope Qc_scope.

(** * Properties *)

(** ** The error monad *)

Lemma bind_Ok {A B} (r : result A) (f : A → result B) (b : B) :
  r ≫= f = Ok b ↔ ∃ a, r = Ok a ∧ f a = Ok b.
Proof.
  destruct r as [a|e]; simpl; split.
  - intros H. by exists a.
  - by intros (a' & [= ->] & H).
  - intros H. discriminate H.
  - by intros (a' & H & _).
Qed.

Lemma fmap_Ok {A B} (r : result A) (f : A → B) (b : B) :
  f <$> r = Ok b ↔ ∃ a, r = Ok a ∧ f a = b.
Proof.
  destruct r as [a|e]; simpl; split.
  - intros [= <-]. by exists a.
  - by intros (a' & [= ->] & ->).
  - intros H. discriminate H.
  - by intros (a' & H & _).
Qed.

Lemma getitem_Ok {V} (d : gmap string V) (k : string) (v : V) :
  getitem d k = Ok v ↔ d !! k = Some v.
Proof.
  unfold getitem. destruct (d !! k); split; intros H; by inversion H.
Qed.

(** Splits a hypothesis [x ← r; k = Ok y] into its steps. *)
Ltac inv_bind H :=
  repeat match type of H with
  | (_ ≫= _) = Ok _ =>
      let a := fresh "a" in
      let Ha := fresh "Hstep" in
      apply bind_Ok in H as (a & Ha & H)
  end.

Lemma foldM_app {A S} (f : S → A → result S) (s : S) (l1 l2 : list A) :
  foldM f s (l1 ++ l2) = (foldM f s l1 ≫= λ s', foldM f s' l2).
Proof.
  revert s. induction l1 as [|x l1 IH]; intros s; simpl; [done|].
  destruct (f s x); simpl; [apply IH | done].
Qed.

(** An invariant of a loop that does not raise holds when it ends. *)
Lemma foldM_invariant {A S} (P : S → Prop) (f : S → A → result S)
    (l : list A) (s s' : S) :
  (∀ s x s', x ∈ l → P s → f s x = Ok s' → P s') →
  P s → foldM f s l = Ok s' → P s'.
Proof.
  revert s. induction l as [|x l IH]; intros s Hstep Hs H; simpl in H.
  - injection H as <-. exact Hs.
  - apply bind_Ok in H as (s1 & H1 & H).
    eapply IH; [| |exact H].
    + intros ? ? ? Hin. apply Hstep. by right.
    + eapply Hstep; [by left|exact Hs|exact H1].
Qed.

(** A loop whose body cannot raise under its invariant does not raise. *)
Lemma foldM_total {A S} (P : S → Prop) (f : S → A → result S)
    (l : list A) (s : S) :
  (∀ s x, x ∈ l → P s → ∃ s', f s x = Ok s' ∧ P s') →
  P s → ∃ s', foldM f s l = Ok s' ∧ P s'.
Proof.
  revert s. induction l as [|x l IH]; intros s Hstep Hs; simpl.
  - by exists s.
  - destruct (Hstep s x) as (s1 & -> & Hs1); [by left|done|]. simpl.
    apply IH; [|done]. intros ? ? Hin. apply Hstep. by right.
Qed.

Lemma forM_Forall2 {A B} (f : A → result B) (l : list A) (l' : list B) :
  forM f l = Ok l' ↔ Forall2 (λ x y, f x = Ok y) l l'.
Proof.
  revert l'. induction l as [|x l IH]; intros l'; simpl.
  - split; [intros [= <-]; constructor | by inversion 1].
  - split.
    + intros H. apply bind_Ok in H as (y & Hy & H).
      apply bind_Ok in H as (ys & Hys & [= <-]).
      constructor; [done|]. by apply IH.
    + inversion 1 as [|? y ? ys Hy Hys]; subst.
      rewrite Hy. simpl. apply IH in Hys. by rewrite Hys.
Qed.

Lemma forM_total {A B} (f : A → result B) (l : list A) :
  (∀ x, x ∈ l → ∃ y, f x = Ok y) → ∃ l', forM f l = Ok l'.
Proof.
  induction l as [|x l IH]; intros H; simpl; [by eexists|].
  destruct (H x) as (y & ->); [by left|].
  destruct IH as (ys & ->); [intros ? ?; apply H; by right|].
  by eexists.
Qed.

(** ** Sorting *)

Lemma insert_by_Permutation {A} (le : A → A → bool) (x : A) (l : list A) :
  insert_by le x l ≡ₚ x :: l.
Proof.
  induction l as [|y l IH]; simpl; [done|].
  destruct (le x y); [done|]. rewrite IH. apply Permutation_swap.
Qed.

Lemma sort_by_Permutation {A} (le : A → A → bool) (l : list A) :
  sort_by le l ≡ₚ l.
Proof.
  induction l as [|x l IH]; simpl; [done|].
  change (foldr (insert_by le) [] l) with (sort_by le l).
  by rewrite insert_by_Permutation, IH.
Qed.

Lemma sorted_keys_Permutation {V} (d : gmap string V) :
  sorted_keys d ≡ₚ (map_to_list d).*1.
Proof. apply sort_by_Permutation. Qed.

Lemma elem_of_sorted_keys {V} (d : gmap string V) (k : string) :
  k ∈ sorted_keys d ↔ is_Some (d !! k).
Proof.
  rewrite sorted_keys_Permutation, list_elem_of_fmap. split.
  - intros ([k' v] & -> & Hin). apply elem_of_map_to_list in Hin. by exists v.
  - intros [v Hv]. exists (k, v). split; [done|]. by apply elem_of_map_to_list.
Qed.

Lemma NoDup_sorted_keys {V} (d : gmap string V) : NoDup (sorted_keys d).
Proof. rewrite sorted_keys_Permutation. apply NoDup_fst_map_to_list. Qed.

Lemma sorted_keys_nil {V} (d : gmap string V) : sorted_keys d = [] → d = ∅.
Proof.
  intros H. apply map_empty. intros k.
  destruct (d !! k) as [v|] eqn:E; [|done].
  assert (k ∈ sorted_keys d) as Hin by (apply elem_of_sorted_keys; eauto).
  rewrite H in Hin. by apply not_elem_of_nil in Hin.
Qed.

(** ** Quotas and the greedy step *)

Lemma quota_lookup (rq : gmap string totals) (d v : string) (quotas : totals) :
  rq !! d = Some quotas → quota rq d v = get_default quotas v 0.
Proof. intros H. unfold quota. by rewrite H. Qed.

Lemma quota_insert (rq : gmap string totals) (d v : string) (quotas : totals)
    (q : Z) (d' v' : string) :
  rq !! d = Some quotas →
  quota (<[d := <[v := q]> quotas]> rq) d' v' =
    if decide (d' = d ∧ v' = v) then q else quota rq d' v'.
Proof.
  intros Hd. unfold quota, get_default.
  destruct (decide (d' = d)) as [->|Hne].
  - rewrite lookup_insert_eq. simpl. destruct (decide (v' = v)) as [->|Hv].
    + rewrite lookup_insert_eq. by rewrite decide_True.
    + rewrite lookup_insert_ne by done.
      rewrite decide_False by naive_solver. by rewrite Hd.
  - rewrite lookup_insert_ne by done. by rewrite decide_False by naive_solver.
Qed.

Lemma quota_pos_key (rq : gmap string totals) (d v : string) (quotas : totals) :
  rq !! d = Some quotas → 0 < quota rq d v → is_Some (quotas !! v).
Proof.
  intros Hd. rewrite (quota_lookup _ _ _ _ Hd). unfold get_default.
  destruct (quotas !! v); [eauto | simpl; lia].
Qed.

Lemma occurrences_nil (d v : string) : occurrences d v [] = 0.
Proof. done. Qed.

Lemma occurrences_app (d v : string) (evs evs' : list event) :
  occurrences d v (evs ++ evs') = occurrences d v evs + occurrences d v evs'.
Proof. unfold occurrences. rewrite filter_app, length_app. lia. Qed.

Lemma occurrences_cons (d v : string) (ev : event) (evs : list event) :
  occurrences d v (ev :: evs) =
    (if decide (ev !! d = Some v) then 1 else 0) + occurrences d v evs.
Proof.
  unfold occurrences. rewrite filter_cons.
  destruct (decide (ev !! d = Some v)); simpl; lia.
Qed.

Lemma occurrences_replicate (d v : string) (n : nat) (c : event) :
  occurrences d v (replicate n c) =
    if decide (c !! d = Some v) then Z.of_nat n else 0.
Proof.
  induction n as [|n IH]; simpl.
  - by destruct (decide _).
  - rewrite occurrences_cons, IH. destruct (decide _); lia.
Qed.

Lemma occurrences_nonneg (d v : string) (evs : list event) :
  0 ≤ occurrences d v evs.
Proof. unfold occurrences. lia. Qed.

(** What the loop over the dimensions computes for [max_assignable]. *)
Lemma max_assignable_fold (dims : list string) (c : event)
    (rq : gmap string totals) (acc ma : Z) :
  foldM (λ max_assignable dim_name,
           dim_value ← getitem c dim_name;
           quotas ← getitem rq dim_name;
           let quota_left := get_default quotas dim_value 0 in
           Ok (Z.min max_assignable quota_left)) acc dims = Ok ma →
  ma ≤ acc ∧
  (∀ d, d ∈ dims →
     ∃ v, c !! d = Some v ∧ is_Some (rq !! d) ∧ ma ≤ quota rq d v) ∧
  (ma = acc ∨ ∃ d v, d ∈ dims ∧ c !! d = Some v ∧ ma = quota rq d v).
Proof.
  revert acc. induction dims as [|d dims IH]; intros acc H; simpl in H.
  - injection H as <-. split; [lia|]. split; [|by left].
    intros d Hd. by apply not_elem_of_nil in Hd.
  - apply bind_Ok in H as (acc' & Hacc & H).
    apply bind_Ok in Hacc as (v & Hv & Hacc).
    apply bind_Ok in Hacc as (quotas & Hq & Hacc).
    apply getitem_Ok in Hv, Hq. injection Hacc as <-.
    rewrite <- (quota_lookup rq d v quotas Hq) in H.
    destruct (IH _ H) as (Hle & Hall & Hsat).
    split; [lia|]. split.
    + intros d' [->|Hd']%elem_of_cons; [|by apply Hall].
      exists v. split; [done|]. split; [eauto|lia].
    + destruct Hsat as [->|(d' & v' & Hd' & Hv' & ->)].
      * destruct (Z.min_spec acc (quota rq d v)) as [[_ ->]|[_ ->]];
          [by left|].
        right. exists d, v. split; [by left|done].
      * right. exists d', v'. split; [by right|done].
Qed.

Lemma decrement_quotas_spec (dims : list string) (c : event) (n : Z)
    (rq rq' : gmap string totals) :
  NoDup dims → decrement_quotas dims c n rq = Ok rq' →
  (∀ d v, quota rq' d v =
            if decide (d ∈ dims ∧ c !! d = Some v) then quota rq d v - n
            else quota rq d v) ∧
  (∀ d, is_Some (rq' !! d) ↔ is_Some (rq !! d)).
Proof.
  unfold decrement_quotas. revert rq.
  induction dims as [|d0 dims IH]; intros rq Hnd H; simpl in H.
  - injection H as <-. split; [|done]. intros d v.
    rewrite decide_False; [done|]. intros [Hd _]. by apply not_elem_of_nil in Hd.
  - apply NoDup_cons in Hnd as [Hd0 Hnd].
    apply bind_Ok in H as (rq1 & Hrq1 & H).
    apply bind_Ok in Hrq1 as (v0 & Hv0 & Hrq1).
    apply bind_Ok in Hrq1 as (quotas & Hq & Hrq1).
    apply bind_Ok in Hrq1 as (q & Hq0 & Hrq1).
    apply getitem_Ok in Hv0, Hq, Hq0. injection Hrq1 as <-.
    destruct (IH _ Hnd H) as [Hquota Hdom]. split.
    + intros d v. rewrite Hquota, (quota_insert rq d0 v0 quotas _ d v Hq).
      assert (quota rq d0 v0 = q) as Hq'.
      { rewrite (quota_lookup _ _ _ _ Hq). unfold get_default. by rewrite Hq0. }
      destruct (decide (d = d0)) as [->|Hne].
      * rewrite (decide_False (P := d0 ∈ dims ∧ _)) by (intros [? _]; done).
        destruct (decide (v = v0)) as [->|Hv].
        -- rewrite decide_True by done.
           rewrite decide_True by (split; [by left|done]). lia.
        -- rewrite decide_False by (intros [_ ?]; done).
           rewrite decide_False; [done|]. intros [_ Hc]. congruence.
      * rewrite (decide_False (P := d = d0 ∧ _)) by (intros [? _]; done).
        destruct (decide (d ∈ dims ∧ c !! d = Some v)) as [[Hin Hc]|Hn].
        -- rewrite decide_True by (split; [by right|done]). done.
        -- rewrite decide_False; [done|].
           intros [[?|?]%elem_of_cons Hc]; [done|]. by apply Hn.
    + intros d. rewrite Hdom. destruct (decide (d = d0)) as [->|Hne].
      * rewrite lookup_insert_eq, Hq. split; eauto.
      * by rewrite lookup_insert_ne.
Qed.

Lemma decrement_quotas_total (dims : list string) (c : event) (n : Z)
    (rq : gmap string totals) :
  (∀ d, d ∈ dims →
     ∃ v quotas, c !! d = Some v ∧ rq !! d = Some quotas
                 ∧ is_Some (quotas !! v)) →
  ∃ rq', decrement_quotas dims c n rq = Ok rq'.
Proof.
  intros H. unfold decrement_quotas.
  match goal with |- ∃ _, foldM ?f ?s ?l = _ =>
    destruct (foldM_total
      (λ rq : gmap string totals, ∀ d, d ∈ dims →
         ∃ v quotas, c !! d = Some v ∧ rq !! d = Some quotas
                     ∧ is_Some (quotas !! v)) f l s) as (rq' & Hrq' & _)
  end; [|exact H|eauto].
  intros rq1 d0 Hd0 Hinv.
  destruct (Hinv d0 Hd0) as (v0 & quotas & Hv0 & Hq & [q Hq0]).
  apply getitem_Ok in Hv0 as Hv0', Hq as Hq', Hq0 as Hq0'.
  rewrite Hv0', Hq'. simpl. rewrite Hq0'. simpl.
  eexists. split; [done|]. intros d Hd.
  destruct (Hinv d Hd) as (v & quotas' & Hv & Hqd & Hsome).
  destruct (decide (d = d0)) as [->|Hne].
  - exists v0, (<[v0 := q - n]> quotas).
    rewrite lookup_insert_eq. split; [done|]. split; [done|].
    rewrite lookup_insert_eq. eauto.
  - exists v, quotas'. by rewrite lookup_insert_ne.
Qed.

(** One greedy step either leaves the state alone or assigns [n > 0]
    events: [n] is at most the events left and at most every quota the
    combination draws on, and exhausts one of them. *)
Lemma assign_combo_spec (dims : list string) (c : event)
    (st st' : assign_state) :
  NoDup dims → assign_combo dims c st = Ok st' →
  ∃ n, 0 ≤ n ∧
    events st' = events st ++ replicate (Z.to_nat n) c ∧
    remaining_events st' = remaining_events st - n ∧
    (0 < n → n ≤ remaining_events st) ∧
    (∀ d v, quota (remaining_quotas st') d v =
              if decide (d ∈ dims ∧ c !! d = Some v)
              then quota (remaining_quotas st) d v - n
              else quota (remaining_quotas st) d v) ∧
    (∀ d, d ∈ dims →
       ∃ v, c !! d = Some v ∧
            (0 < n → n ≤ quota (remaining_quotas st) d v)) ∧
    (∀ d, is_Some (remaining_quotas st' !! d)
          ↔ is_Some (remaining_quotas st !! d)) ∧
    (0 < remaining_events st →
       remaining_events st' = 0 ∨
       ∃ d v, d ∈ dims ∧ c !! d = Some v
              ∧ quota (remaining_quotas st') d v ≤ 0).
Proof.
  intros Hnd H. unfold assign_combo in H.
  apply bind_Ok in H as (ma & Hma & H).
  apply max_assignable_fold in Hma as (Hle & Hall & Hsat).
  destruct (0 <? ma) eqn:Hpos.
  - apply Z.ltb_lt in Hpos.
    apply bind_Ok in H as (rq' & Hrq' & [= <-]). simpl.
    destruct (decrement_quotas_spec _ _ _ _ _ Hnd Hrq') as [Hquota Hdom].
    exists ma. repeat split; try done; try lia.
    + intros d Hd. destruct (Hall d Hd) as (v & Hv & _ & Hq). eauto.
    + apply Hdom.
    + apply Hdom.
    + intros _. destruct Hsat as [->|(d & v & Hd & Hv & Heq)]; [left; lia|].
      right. exists d, v. rewrite Hquota, decide_True by done.
      split; [done|]. split; [done|]. lia.
  - apply Z.ltb_ge in Hpos. injection H as <-.
    exists 0. simpl. rewrite app_nil_r. repeat split; try done; try lia.
    + intros d v. destruct (decide _); lia.
    + intros d Hd. destruct (Hall d Hd) as (v & Hv & _). exists v.
      split; [done|lia].
    + intros Hrem. right.
      destruct Hsat as [->|(d & v & Hd & Hv & Heq)]; [lia|].
      exists d, v. split; [done|]. split; [done|]. lia.
Qed.

Lemma assign_combo_total (dims : list string) (c : event) (st : assign_state) :
  (∀ d, d ∈ dims → is_Some (c !! d)) →
  (∀ d, d ∈ dims → is_Some (remaining_quotas st !! d)) →
  ∃ st', assign_combo dims c st = Ok st'.
Proof.
  intros Hc Hrq. unfold assign_combo.
  assert (∃ ma, max_assignable_of dims c st = Ok ma) as [ma Hma].
  { unfold max_assignable_of.
    match goal with |- ∃ _, foldM ?f ?s ?l = _ =>
      destruct (foldM_total (λ _, True) f l s) as (ma & Hma & _)
    end; [|done|eauto].
    intros acc d Hd _. destruct (Hc d Hd) as [v Hv], (Hrq d Hd) as [q Hq].
    apply getitem_Ok in Hv, Hq. rewrite Hv. simpl. rewrite Hq. simpl. eauto. }
  rewrite Hma. simpl.
  apply max_assignable_fold in Hma as (_ & Hall & _).
  destruct (0 <? ma) eqn:Hpos; [|eauto].
  apply Z.ltb_lt in Hpos.
  destruct (decrement_quotas_total dims c ma (remaining_quotas st))
    as [rq' ->]; [|simpl; eauto].
  intros d Hd. destruct (Hall d Hd) as (v & Hv & [quotas Hq] & Hle).
  exists v, quotas. split; [done|]. split; [done|].
  eapply quota_pos_key; [done|lia].
Qed.

(** ** The greedy loop *)

(** What holds between a state of the loop and any later one. *)
Lemma greedy_assignment_spec (dims : list string) (cws : list (event * Qc))
    (st st' : assign_state) :
  NoDup dims → quotas_nonneg (remaining_quotas st) →
  greedy_assignment dims cws st = Ok st' →
  quotas_nonneg (remaining_quotas st') ∧
  (0 ≤ remaining_events st → 0 ≤ remaining_events st') ∧
  remaining_events st' ≤ remaining_events st ∧
  (∀ d v, quota (remaining_quotas st') d v ≤ quota (remaining_quotas st) d v) ∧
  (∀ d v, d ∈ dims →
     quota (remaining_quotas st') d v + occurrences d v (events st') =
     quota (remaining_quotas st) d v + occurrences d v (events st)) ∧
  remaining_events st' + Z.of_nat (length (events st')) =
    remaining_events st + Z.of_nat (length (events st)) ∧
  (∃ new, events st' = events st ++ new ∧ ∀ ev, ev ∈ new → ev ∈ cws.*1) ∧
  (remaining_events st' ≤ 0 ∨
   ∀ c, c ∈ cws.*1 →
     ∃ d v, d ∈ dims ∧ c !! d = Some v ∧ quota (remaining_quotas st') d v = 0).
Proof.
  intros Hnd. revert st.
  induction cws as [|[c w] cws IH]; intros st Hnn H; simpl in H.
  - injection H as <-. repeat split; try done; try lia.
    + exists []. rewrite app_nil_r. split; [done|].
      intros ev Hev. by apply not_elem_of_nil in Hev.
    + right. intros c Hc. by apply not_elem_of_nil in Hc.
  - destruct (remaining_events st <=? 0) eqn:Hbreak.
    + apply Z.leb_le in Hbreak. injection H as <-.
      repeat split; try done; try lia.
      * exists []. rewrite app_nil_r. split; [done|].
        intros ev Hev. by apply not_elem_of_nil in Hev.
    + apply Z.leb_gt in Hbreak.
      apply bind_Ok in H as (st1 & Hst1 & H).
      destruct (assign_combo_spec _ _ _ _ Hnd Hst1)
        as (n & Hn & Hev & Hrem & Hnle & Hquota & Hdraw & _ & Hsat).
      assert (quotas_nonneg (remaining_quotas st1)) as Hnn1.
      { intros d v. rewrite Hquota. specialize (Hnn d v).
        destruct (decide _) as [[Hd Hv]|]; [|done].
        destruct (Hdraw d Hd) as (v' & Hv' & Hle).
        assert (v' = v) as -> by congruence.
        destruct (decide (0 < n)); [specialize (Hle ltac:(done))|]; lia. }
      destruct (IH st1 Hnn1 H)
        as (Hnn' & Hrem' & Hremle & Hmono & Hcons & Hcount & Hnew & Hsat').
      split; [done|]. split; [lia|]. split; [lia|]. split.
      { intros d v. specialize (Hmono d v). rewrite Hquota in Hmono.
        destruct (decide _); lia. }
      split.
      { intros d v Hd. rewrite (Hcons d v Hd), Hquota, Hev, occurrences_app,
          occurrences_replicate.
        destruct (decide (d ∈ dims ∧ c !! d = Some v)) as [[_ Hv]|Hno].
        - rewrite decide_True by done. lia.
        - rewrite decide_False by (intros ?; apply Hno; done). lia. }
      split.
      { rewrite Hcount, Hev, length_app, length_replicate. lia. }
      split.
      { destruct Hnew as (new & Hnew & Hin). rewrite Hev in Hnew.
        exists (replicate (Z.to_nat n) c ++ new).
        split; [by rewrite Hnew, app_assoc|].
        intros ev [Hrep|Hev']%elem_of_app.
        - apply elem_of_replicate in Hrep as [-> _]. simpl. by left.
        - simpl. right. by apply Hin. }
      destruct Hsat' as [Hz|Hsat']; [by left|].
      destruct (Hsat Hbreak) as [Hz|(d & v & Hd & Hv & Hq)]; [left; lia|].
      right. intros c' [->|Hc']%elem_of_cons; [|by apply Hsat'].
      exists d, v. split; [done|]. split; [done|].
      specialize (Hmono d v). specialize (Hnn' d v). lia.
Qed.

Lemma greedy_assignment_total (dims : list string) (cws : list (event * Qc))
    (st : assign_state) :
  NoDup dims →
  (∀ c d, c ∈ cws.*1 → d ∈ dims → is_Some (c !! d)) →
  (∀ d, d ∈ dims → is_Some (remaining_quotas st !! d)) →
  ∃ st', greedy_assignment dims cws st = Ok st'.
Proof.
  intros Hnd. revert st.
  induction cws as [|[c w] cws IH]; intros st Hc Hrq; simpl; [eauto|].
  destruct (remaining_events st <=? 0); [eauto|].
  destruct (assign_combo_total dims c st) as [st1 Hst1]; [|done|].
  { intros d Hd. apply Hc; [by left|done]. }
  rewrite Hst1. simpl. apply IH.
  - intros c' d Hc' Hd. apply Hc; [by right|done].
  - intros d Hd.
    destruct (assign_combo_spec _ _ _ _ Hnd Hst1)
      as (n & _ & _ & _ & _ & _ & _ & Hdom & _).
    apply Hdom. by apply Hrq.
Qed.

(** ** Dictionaries built by insertion *)

Lemma foldl_insert_lookup {V} (l : list (string * V)) (acc : gmap string V)
    (k : string) :
  NoDup l.*1 →
  foldl (λ d kv, <[kv.1 := kv.2]> d) acc l !! k =
    match assoc k l with Some v => Some v | None => acc !! k end.
Proof.
  revert acc. induction l as [|[k' v'] l IH]; intros acc Hnd; simpl; [done|].
  apply NoDup_cons in Hnd as [Hk' Hnd]. rewrite IH by done.
  destruct (decide (k = k')) as [->|Hne].
  - assert (assoc k' l = None) as ->; [|by rewrite lookup_insert_eq].
    clear -Hk'. induction l as [|[k v] l IH]; simpl; [done|].
    simpl in Hk'. apply not_elem_of_cons in Hk' as [? ?].
    rewrite decide_False by done. by apply IH.
  - destruct (assoc k l); [done|]. by rewrite lookup_insert_ne.
Qed.

Lemma assoc_Some_elem {V} (l : list (string * V)) (k : string) (v : V) :
  assoc k l = Some v → (k, v) ∈ l.
Proof.
  induction l as [|[k' v'] l IH]; simpl; [done|].
  destruct (decide (k = k')) as [->|]; [intros [= ->]; by left|].
  intros H. right. by apply IH.
Qed.

Lemma elem_assoc_Some {V} (l : list (string * V)) (k : string) (v : V) :
  NoDup l.*1 → (k, v) ∈ l → assoc k l = Some v.
Proof.
  induction l as [|[k' v'] l IH]; simpl; intros Hnd Hin.
  - by apply not_elem_of_nil in Hin.
  - apply NoDup_cons in Hnd as [Hk' Hnd].
    apply elem_of_cons in Hin as [[= <- <-]|Hin].
    + by rewrite decide_True.
    + rewrite decide_False; [by apply IH|].
      intros ->. apply Hk'. apply list_elem_of_fmap. by exists (k', v).
Qed.

Lemma assoc_None_notin {V} (l : list (string * V)) (k : string) :
  assoc k l = None ↔ k ∉ l.*1.
Proof.
  induction l as [|[k' v'] l IH]; simpl.
  - split; [intros _; apply not_elem_of_nil|done].
  - rewrite not_elem_of_cons. destruct (decide (k = k')) as [->|Hne].
    + split; [done|]. by intros [? _].
    + rewrite IH. naive_solver.
Qed.

Lemma initial_quotas_lookup (m : marginals) (d : string) :
  NoDup m.*1 → initial_quotas m !! d = assoc d m.
Proof.
  intros Hnd. unfold initial_quotas. rewrite foldl_insert_lookup by done.
  destruct (assoc d m); [done|apply lookup_empty].
Qed.

Lemma quota_initial (m : marginals) (d v : string) :
  NoDup m.*1 → quota (initial_quotas m) d v = target m d v.
Proof. intros Hnd. unfold quota, target. by rewrite initial_quotas_lookup. Qed.

Lemma target_nonneg (m : marginals) (d v : string) :
  nonneg_marginals m → 0 ≤ target m d v.
Proof.
  intros Hnn. unfold target, get_default.
  destruct (assoc d m) as [tot|] eqn:E; simpl; [|by rewrite lookup_empty].
  destruct (tot !! v) as [c|] eqn:Ev; simpl; [|done].
  eapply Hnn; [by apply assoc_Some_elem|done].
Qed.

Lemma dict_of_zip_lookup {V} (keys : list string) (vals : list V) (k : string) :
  NoDup keys → dict_of_zip keys vals !! k = assoc k (zip keys vals).
Proof.
  intros Hnd. unfold dict_of_zip. rewrite foldl_insert_lookup.
  - destruct (assoc k _); [done|apply lookup_empty].
  - revert vals. induction Hnd as [|x keys Hx Hnd IH]; intros vals; simpl.
    + constructor.
    + destruct vals as [|v vals]; simpl; [constructor|].
      constructor; [|apply IH].
      intros Hin. apply Hx. apply list_elem_of_fmap in Hin as ([k' v'] & -> & Hin).
      simpl. apply elem_of_zip_l in Hin. done.
Qed.

(** ** The cross product and the combinations *)

Lemma elem_of_product (ls : list (list string)) (t : combo) :
  t ∈ product ls ↔ Forall2 (λ v l, v ∈ l) t ls.
Proof.
  revert t. induction ls as [|l ls IH]; intros t; simpl.
  - rewrite list_elem_of_singleton. split; [intros ->; constructor|].
    by inversion 1.
  - rewrite list_elem_of_In, in_flat_map. split.
    + intros (x & Hx & Ht). apply list_elem_of_In in Hx.
      apply list_elem_of_In, list_elem_of_fmap in Ht as (t' & -> & Ht').
      constructor; [done|]. by apply IH.
    + inversion 1 as [|x ? t' ? Hx Ht']; subst. exists x.
      split; [by apply list_elem_of_In|].
      apply list_elem_of_In, list_elem_of_fmap. exists t'.
      split; [done|]. by apply IH.
Qed.

(** The values of a combination are taken dimension by dimension. *)
Lemma zip_assoc_elem (dimensions : list (string * list string)) (t : combo)
    (d v : string) :
  Forall2 (λ v l, v ∈ l) t dimensions.*2 →
  assoc d (zip dimensions.*1 t) = Some v →
  ∃ vals, (d, vals) ∈ dimensions ∧ v ∈ vals.
Proof.
  revert t. induction dimensions as [|[d' vals'] dimensions IH];
    intros t Ht; simpl in *.
  - inversion Ht; subst. done.
  - inversion Ht as [|v' ? t' ? Hv' Ht']; subst. simpl.
    destruct (decide (d = d')) as [->|Hne].
    + intros [= ->]. exists vals'. split; [by left|done].
    + intros H. destruct (IH _ Ht' H) as (vals & Hin & Hv).
      exists vals. split; [by right|done].
Qed.

Lemma zip_assoc_is_Some (dimensions : list (string * list string)) (t : combo)
    (d : string) :
  Forall2 (λ v l, v ∈ l) t dimensions.*2 → d ∈ dimensions.*1 →
  is_Some (assoc d (zip dimensions.*1 t)).
Proof.
  revert t. induction dimensions as [|[d' vals'] dimensions IH];
    intros t Ht Hd; simpl in *.
  - by apply not_elem_of_nil in Hd.
  - inversion Ht as [|v' ? t' ? Hv' Ht']; subst. simpl.
    destruct (decide (d = d')) as [->|Hne]; [eauto|].
    apply elem_of_cons in Hd as [?|Hd]; [done|]. by apply IH.
Qed.

(** One value can be chosen in every dimension at once. *)
Lemma product_choice (dimensions : list (string * list string))
    (P : string → string → Prop) :
  (∀ d vals, (d, vals) ∈ dimensions → ∃ v, v ∈ vals ∧ P d v) →
  ∃ t, t ∈ product dimensions.*2 ∧
       ∀ d v, assoc d (zip dimensions.*1 t) = Some v → P d v.
Proof.
  induction dimensions as [|[d' vals'] dimensions IH]; intros H; simpl.
  - exists []. split; [by left|]. done.
  - destruct (H d' vals') as (v' & Hv' & HP); [by left|].
    destruct IH as (t & Ht & HPt).
    { intros d vals Hin. apply H. by right. }
    exists (v' :: t). split.
    + apply (elem_of_product (vals' :: dimensions.*2)).
      constructor; [done|]. by apply elem_of_product.
    + intros d v. simpl. destruct (decide (d = d')) as [->|Hne].
      * by intros [= <-].
      * apply HPt.
Qed.

Lemma elem_of_combinations_of (dimensions : list (string * list string))
    (c : event) :
  c ∈ combinations_of dimensions ↔
  ∃ t, t ∈ product dimensions.*2 ∧ c = dict_of_zip dimensions.*1 t.
Proof.
  unfold combinations_of. rewrite list_elem_of_fmap. naive_solver.
Qed.

(** ** The active dimensions *)

Lemma elem_of_active_dimensions (m : marginals) (d : string)
    (vals : list string) :
  (d, vals) ∈ active_dimensions m ↔
  ∃ tot, (d, tot) ∈ m ∧ tot ≠ ∅ ∧ vals = sorted_keys tot.
Proof.
  unfold active_dimensions. rewrite list_elem_of_omap. split.
  - intros ([d' tot] & Hin & H). destruct (decide (tot = ∅)); [done|].
    injection H as <- <-. eauto.
  - intros (tot & Hin & Hne & ->). exists (d, tot). split; [done|].
    by rewrite decide_False.
Qed.

Lemma active_dimensions_names (m : marginals) (d : string) :
  d ∈ (active_dimensions m).*1 → d ∈ m.*1.
Proof.
  intros ([d' vals] & -> & Hin)%list_elem_of_fmap.
  apply elem_of_active_dimensions in Hin as (tot & Hin & _).
  apply list_elem_of_fmap. by exists (d', tot).
Qed.

Lemma NoDup_active_dimensions (m : marginals) :
  NoDup m.*1 → NoDup (active_dimensions m).*1.
Proof.
  induction m as [|[d tot] m IH]; simpl; intros Hnd; [constructor|].
  apply NoDup_cons in Hnd as [Hd Hnd].
  unfold active_dimensions. simpl. destruct (decide (tot = ∅)).
  - by apply IH.
  - simpl. constructor; [|by apply IH].
    intros Hin. apply Hd. by apply active_dimensions_names.
Qed.

(** ** Sums over the keys of a dictionary *)

Lemma sum_over_ext {A} (f g : A → Z) (l : list A) :
  (∀ x, x ∈ l → f x = g x) → sum_over f l = sum_over g l.
Proof.
  induction l as [|x l IH]; intros H; simpl; [done|].
  rewrite (H x) by (by left). rewrite IH; [done|].
  intros y Hy. apply H. by right.
Qed.

Lemma sum_over_plus {A} (f g : A → Z) (l : list A) :
  sum_over (λ x, f x + g x) l = sum_over f l + sum_over g l.
Proof. induction l as [|x l IH]; simpl; lia. Qed.

Lemma sum_over_pos {A} (f : A → Z) (l : list A) :
  0 < sum_over f l → ∃ x, x ∈ l ∧ 0 < f x.
Proof.
  induction l as [|x l IH]; simpl; [lia|]. intros H.
  destruct (decide (0 < f x)) as [Hx|Hx]; [exists x; split; [by left|done]|].
  destruct IH as (y & Hy & Hfy); [lia|]. exists y. split; [by right|done].
Qed.

Lemma sum_over_zero {A} (f : A → Z) (l : list A) (x : A) :
  (∀ y, y ∈ l → 0 ≤ f y) → sum_over f l = 0 → x ∈ l → f x = 0.
Proof.
  induction l as [|y l IH]; simpl; intros Hnn Hsum Hx.
  - by apply not_elem_of_nil in Hx.
  - assert (0 ≤ sum_over f l) as Hl.
    { clear -Hnn. induction l as [|z l IH]; simpl; [lia|].
      assert (0 ≤ f z) by (apply Hnn; right; by left).
      assert (0 ≤ sum_over f l); [|lia].
      apply IH. intros y' [->|Hy']%elem_of_cons; apply Hnn;
        [by left|right; by right]. }
    assert (0 ≤ f y) by (apply Hnn; by left).
    apply elem_of_cons in Hx as [->|Hx]; [lia|].
    apply IH; [|lia|done]. intros ? ?. apply Hnn. by right.
Qed.

Lemma sum_over_indicator (ks : list string) (v : string) :
  NoDup ks → v ∈ ks →
  sum_over (λ k, if decide (k = v) then 1 else 0) ks = 1.
Proof.
  induction 1 as [|k ks Hk Hnd IH]; intros Hv; simpl.
  - by apply not_elem_of_nil in Hv.
  - destruct (decide (k = v)) as [->|Hne].
    + rewrite (sum_over_ext _ (λ _, 0)).
      * clear. induction ks; simpl; lia.
      * intros x Hx. rewrite decide_False; [done|]. by intros ->.
    + apply elem_of_cons in Hv as [->|Hv]; [done|]. by rewrite IH.
Qed.

Lemma dict_sum_sum_over (tot : totals) :
  dict_sum tot = sum_over (λ k, get_default tot k 0) (map_to_list tot).*1.
Proof.
  unfold dict_sum. rewrite map_fold_foldr.
  assert (∀ l : list (string * Z),
            (∀ k v, (k, v) ∈ l → tot !! k = Some v) →
            foldr (uncurry (λ (_ : string) v acc, v + acc)) 0 l
            = sum_over (λ k, get_default tot k 0) l.*1) as H.
  { induction l as [|[k v] l IH]; intros Hl; simpl; [done|].
    unfold get_default at 1. rewrite (Hl k v) by (by left). simpl.
    rewrite IH; [done|]. intros ? ? ?. apply Hl. by right. }
  apply H. intros k v. apply elem_of_map_to_list.
Qed.

Lemma elem_of_keys (tot : totals) (k : string) :
  k ∈ (map_to_list tot).*1 ↔ is_Some (tot !! k).
Proof. by rewrite <- sorted_keys_Permutation, elem_of_sorted_keys. Qed.

(** Every event counts once in a dimension whose values it draws from [ks]. *)
Lemma sum_over_occurrences (d : string) (ks : list string) (evs : list event) :
  NoDup ks →
  (∀ ev, ev ∈ evs → ∃ v, v ∈ ks ∧ ev !! d = Some v) →
  sum_over (λ k, occurrences d k evs) ks = Z.of_nat (length evs).
Proof.
  intros Hnd. induction evs as [|ev evs IH]; intros H.
  - simpl. clear. induction ks; simpl; [done|]. by rewrite occurrences_nil.
  - rewrite (sum_over_ext _ (λ k, (if decide (k = default k (ev !! d))
                                    then 1 else 0)
                                   + occurrences d k evs)).
    + destruct (H ev) as (v & Hv & Hev); [by left|].
      rewrite sum_over_plus, IH by (intros ? ?; apply H; by right).
      rewrite Hev. simpl. rewrite sum_over_indicator by done. lia.
    + intros k _. rewrite occurrences_cons.
      destruct (H ev) as (v & Hv & Hev); [by left|]. rewrite Hev. simpl.
      destruct (decide (k = v)) as [->|Hne].
      * by rewrite decide_True.
      * rewrite decide_False; [done|]. intros [= ->]. done.
Qed.

Lemma occurrences_absent (d v : string) (evs : list event) :
  (∀ ev, ev ∈ evs → ev !! d ≠ Some v) → occurrences d v evs = 0.
Proof.
  induction evs as [|ev evs IH]; intros H; [done|].
  rewrite occurrences_cons, decide_False by (apply H; by left).
  rewrite IH; [done|]. intros ? ?. apply H. by right.
Qed.

(** ** The list of weighted combinations *)

Lemma weigh_fst (combinations : list event) (dims : list string)
    (w : weight_table) (cws : list (event * Qc)) :
  weigh combinations dims w = Ok cws → cws.*1 = combinations.
Proof.
  unfold weigh. rewrite forM_Forall2. induction 1 as [|c [c' q] ? ? H ? IH].
  - done.
  - apply bind_Ok in H as (t & _ & [= <- _]). rewrite fmap_cons. by f_equal.
Qed.

Lemma weigh_total (combinations : list event) (dims : list string)
    (w : weight_table) :
  (∀ c d, c ∈ combinations → d ∈ dims → is_Some (c !! d)) →
  ∃ cws, weigh combinations dims w = Ok cws.
Proof.
  intros H. apply forM_total. intros c Hc.
  destruct (forM_total (getitem c) dims) as [t Ht].
  { intros d Hd. destruct (H c d Hc Hd) as [v Hv].
    exists v. by apply getitem_Ok. }
  unfold combo_tuple_of. rewrite Ht. simpl. eauto.
Qed.

(** ** Combinations of the active dimensions *)

Lemma combination_lookup (m : marginals) (c : event) (d v : string) :
  NoDup m.*1 → c ∈ combinations_of (active_dimensions m) → c !! d = Some v →
  ∃ tot, (d, tot) ∈ m ∧ tot ≠ ∅ ∧ is_Some (tot !! v).
Proof.
  intros Hnd (t & Ht & ->)%elem_of_combinations_of.
  rewrite dict_of_zip_lookup by by apply NoDup_active_dimensions.
  intros Hv. apply elem_of_product in Ht.
  destruct (zip_assoc_elem _ _ _ _ Ht Hv) as (vals & Hin & Hvals).
  apply elem_of_active_dimensions in Hin as (tot & Hin & Hne & ->).
  exists tot. split; [done|]. split; [done|]. by apply elem_of_sorted_keys.
Qed.

Lemma combination_total (m : marginals) (c : event) (d : string) :
  NoDup m.*1 → c ∈ combinations_of (active_dimensions m) →
  d ∈ (active_dimensions m).*1 → is_Some (c !! d).
Proof.
  intros Hnd (t & Ht & ->)%elem_of_combinations_of Hd.
  rewrite dict_of_zip_lookup by by apply NoDup_active_dimensions.
  apply zip_assoc_is_Some; [by apply elem_of_product|done].
Qed.

Lemma target_inactive (m : marginals) (d v : string) :
  d ∉ (active_dimensions m).*1 → target m d v = 0.
Proof.
  intros Hd. unfold target, get_default.
  destruct (assoc d m) as [tot|] eqn:E; simpl; [|by rewrite lookup_empty].
  destruct (decide (tot = ∅)) as [->|Hne]; [by rewrite lookup_empty|].
  exfalso. apply Hd. apply list_elem_of_fmap. exists (d, sorted_keys tot).
  split; [done|]. apply elem_of_active_dimensions. exists tot.
  split; [by apply assoc_Some_elem|done].
Qed.

(** ** The greedy assignment on the combinations of the marginals *)

(** The loop does not raise on the combinations of the active dimensions,
    whatever the weights, and its invariants hold in the state it ends in. *)
Lemma run_integer_assignment_spec (m : marginals) (w : weight_table) (N : Z) :
  NoDup m.*1 → nonneg_marginals m →
  let dimensions := active_dimensions m in
  ∃ st,
    run_integer_assignment (combinations_of dimensions) dimensions.*1 m w N
      = Ok st ∧
    quotas_nonneg (remaining_quotas st) ∧
    (0 ≤ N → 0 ≤ remaining_events st) ∧
    remaining_events st + Z.of_nat (length (events st)) = N ∧
    (∀ ev, ev ∈ events st → ev ∈ combinations_of dimensions) ∧
    (∀ d v, quota (remaining_quotas st) d v + occurrences d v (events st)
            = target m d v) ∧
    (remaining_events st ≤ 0 ∨
     ∀ c, c ∈ combinations_of dimensions →
       ∃ d v, d ∈ dimensions.*1 ∧ c !! d = Some v
              ∧ quota (remaining_quotas st) d v = 0).
Proof.
  intros Hnd Hnn dimensions.
  pose proof (NoDup_active_dimensions m Hnd) as Hnd'.
  fold dimensions in Hnd'.
  destruct (weigh_total (combinations_of dimensions) dimensions.*1 w)
    as [cws Hcws].
  { intros c d Hc Hd. by apply (combination_total m). }
  pose proof (weigh_fst _ _ _ _ Hcws) as Hfst.
  unfold run_integer_assignment. rewrite Hcws. simpl.
  set (st0 := {| events := []; remaining_quotas := initial_quotas m;
                 remaining_events := N |}).
  assert ((sort_by heavier_first cws).*1 ≡ₚ combinations_of dimensions)
    as Hperm.
  { etrans; [apply fmap_Permutation, sort_by_Permutation|]. by rewrite Hfst. }
  assert (quotas_nonneg (remaining_quotas st0)) as Hnn0.
  { intros d v. simpl. rewrite quota_initial by done. by apply target_nonneg. }
  destruct (greedy_assignment_total dimensions.*1
              (sort_by heavier_first cws) st0) as [st Hst]; [done| |..].
  { intros c d Hc Hd. rewrite Hperm in Hc.
    by apply (combination_total m). }
  { intros d Hd. simpl. rewrite initial_quotas_lookup by done.
    apply active_dimensions_names in Hd.
    destruct (assoc d m) eqn:E; [eauto|].
    by apply assoc_None_notin in E. }
  exists st. split; [done|].
  destruct (greedy_assignment_spec _ _ _ _ Hnd' Hnn0 Hst)
    as (Hnn' & Hrem & _ & Hmono & Hcons & Hcount & (new & Hnew & Hin) & Hsat).
  simpl in *.
  assert (∀ ev, ev ∈ events st → ev ∈ combinations_of dimensions) as Hevs.
  { intros ev Hev. rewrite Hnew in Hev. rewrite <- Hperm. by apply Hin. }
  split; [done|]. split; [done|]. split; [lia|]. split; [done|]. split.
  - intros d v. destruct (decide (d ∈ dimensions.*1)) as [Hd|Hd].
    + rewrite (Hcons d v Hd), occurrences_nil, quota_initial by done. lia.
    + assert (quota (remaining_quotas st) d v = 0) as ->.
      { specialize (Hmono d v). specialize (Hnn' d v).
        rewrite quota_initial, target_inactive in Hmono by done. lia. }
      rewrite target_inactive by done.
      rewrite occurrences_absent; [done|]. intros ev Hev Hv.
      apply Hevs in Hev.
      destruct (combination_lookup m ev d v Hnd Hev Hv)
        as (tot & Htot & Hne & _).
      apply Hd. apply list_elem_of_fmap. exists (d, sorted_keys tot).
      split; [done|]. apply elem_of_active_dimensions. eauto.
  - destruct Hsat as [?|Hsat]; [by left|]. right.
    intros c Hc. apply Hsat. by rewrite Hperm.
Qed.

(** When every non-empty marginal sums to [N] the loop assigns all [N]
    events and uses up every quota, in whatever order the weights put the
    combinations. *)
Lemma run_integer_assignment_exact (m : marginals) (w : weight_table) (N : Z) :
  NoDup m.*1 → nonneg_marginals m → 0 ≤ N →
  (∀ d tot, (d, tot) ∈ m → tot ≠ ∅ → dict_sum tot = N) →
  let dimensions := active_dimensions m in
  ∃ st,
    run_integer_assignment (combinations_of dimensions) dimensions.*1 m w N
      = Ok st ∧
    remaining_events st = 0 ∧
    Z.of_nat (length (events st)) = N ∧
    (∀ ev, ev ∈ events st → ev ∈ combinations_of dimensions) ∧
    (∀ d v, quota (remaining_quotas st) d v = 0) ∧
    (∀ d v, occurrences d v (events st) = target m d v).
Proof.
  intros Hnd Hnn HN Hsum dimensions.
  destruct (run_integer_assignment_spec m w N Hnd Hnn)
    as (st & Hst & Hnn' & Hrem & Hcount & Hevs & Hcons & Hsat).
  fold dimensions in Hst, Hevs, Hsat. specialize (Hrem HN).
  pose proof (NoDup_active_dimensions m Hnd) as Hnd'.
  fold dimensions in Hnd'.
  (* the quotas left in an active dimension add up to the events left *)
  assert (∀ d tot, (d, tot) ∈ m → tot ≠ ∅ →
            sum_over (quota (remaining_quotas st) d) (map_to_list tot).*1
            = remaining_events st) as Hleft.
  { intros d tot Hin Hne.
    rewrite (sum_over_ext _ (λ k, get_default tot k 0
                                  + - occurrences d k (events st))).
    - rewrite sum_over_plus, <- dict_sum_sum_over, (Hsum d tot Hin Hne).
      assert (sum_over (λ k, - occurrences d k (events st))
                       (map_to_list tot).*1
              = - Z.of_nat (length (events st))) as ->; [|lia].
      rewrite <- (sum_over_occurrences d (map_to_list tot).*1 (events st)).
      + generalize (map_to_list tot).*1. intros l.
        induction l as [|k l IH]; simpl; lia.
      + apply NoDup_fst_map_to_list.
      + intros ev Hev. apply Hevs in Hev.
        destruct (combination_total m ev d Hnd Hev) as [v Hv].
        { apply list_elem_of_fmap. exists (d, sorted_keys tot).
          split; [done|]. apply elem_of_active_dimensions. eauto. }
        exists v. split; [|done].
        destruct (combination_lookup m ev d v Hnd Hev Hv)
          as (tot' & Htot' & _ & Hsome).
        assert (tot' = tot) as ->.
        { apply (elem_assoc_Some m) in Hin, Htot'; [congruence|done..]. }
        by apply elem_of_keys.
    - intros k _. specialize (Hcons d k). unfold target in Hcons.
      rewrite (elem_assoc_Some m d tot Hnd Hin) in Hcons. simpl in Hcons.
      lia. }
  assert (remaining_events st = 0) as Hzero.
  { destruct (decide (remaining_events st = 0)) as [|Hpos]; [done|].
    exfalso. destruct Hsat as [?|Hsat]; [lia|].
    destruct (product_choice dimensions
                (λ d v, 0 < quota (remaining_quotas st) d v))
      as (t & Ht & HP).
    { intros d vals (tot & Hin & Hne & ->)%elem_of_active_dimensions.
      destruct (sum_over_pos (quota (remaining_quotas st) d)
                             (map_to_list tot).*1) as (k & Hk & Hq).
      { rewrite (Hleft d tot Hin Hne). lia. }
      exists k. split; [|done].
      by apply elem_of_sorted_keys, elem_of_keys. }
    destruct (Hsat (dict_of_zip dimensions.*1 t)) as (d & v & Hd & Hv & Hq).
    { apply elem_of_combinations_of. eauto. }
    rewrite dict_of_zip_lookup in Hv by done.
    specialize (HP d v Hv). simpl in HP. lia. }
  exists st. split; [done|]. split; [done|]. split; [lia|]. split; [done|].
  assert (∀ d v, quota (remaining_quotas st) d v = 0) as Hq.
  { intros d v. destruct (decide (d ∈ dimensions.*1)) as [Hd|Hd].
    - apply list_elem_of_fmap in Hd as ([d' vals] & -> & Hin).
      apply elem_of_active_dimensions in Hin as (tot & Hin & Hne & ->).
      simpl. destruct (decide (v ∈ (map_to_list tot).*1)) as [Hv|Hv].
      + eapply (sum_over_zero _ _ v); [|by rewrite (Hleft d' tot Hin Hne)|done].
        intros k _. apply Hnn'.
      + specialize (Hcons d' v). specialize (Hnn' d' v).
        pose proof (occurrences_nonneg d' v (events st)).
        assert (target m d' v = 0); [|lia].
        unfold target. rewrite (elem_assoc_Some m d' tot Hnd Hin). simpl.
        unfold get_default. rewrite elem_of_keys in Hv.
        destruct (tot !! v); [exfalso; eauto|done].
    - specialize (Hcons d v). specialize (Hnn' d v).
      pose proof (occurrences_nonneg d v (events st)).
      rewrite target_inactive in Hcons by done. lia. }
  split; [done|]. intros d v. specialize (Hcons d v). rewrite Hq in Hcons. lia.
Qed.

(** Whatever the weights, the loop ends without raising, with no quota
    negative and no value assigned more often than its marginal count. *)
Lemma run_integer_assignment_bounds (m : marginals) (w : weight_table) (N : Z) :
  NoDup m.*1 → nonneg_marginals m →
  ∃ st, run_integer_assignment (combinations_of (active_dimensions m))
                               (active_dimensions m).*1 m w N = Ok st ∧
        quotas_nonneg (remaining_quotas st) ∧
        ∀ d v, quota (remaining_quotas st) d v ≤ target m d v
               ∧ occurrences d v (events st) ≤ target m d v.
Proof.
  intros Hnd Hnn.
  destruct (run_integer_assignment_spec m w N Hnd Hnn)
    as (st & Hst & Hnn' & _ & _ & _ & Hcons & _).
  exists st. split; [done|]. split; [done|]. intros d v.
  specialize (Hcons d v). specialize (Hnn' d v).
  pose proof (occurrences_nonneg d v (events st)). lia.
Qed.

(** ** The constraint application of IPF *)

Local Open Scope Qc_scope.

Lemma Qc_ltb_irrefl (x : Qc) : Qc_ltb x x = false.
Proof.
  unfold Qc_ltb. by rewrite (proj1 (Qceq_alt x x) eq_refl).
Qed.

Lemma Qc_ltb_lt (x y : Qc) : Qc_ltb x y = true ↔ x < y.
Proof.
  rewrite Qclt_alt. unfold Qc_ltb. destruct (x ?= y); naive_solver.
Qed.

Lemma foldl_Qcplus_acc (acc : Qc) (xs : list Qc) :
  foldl Qcplus acc xs = acc + float_sum xs.
Proof.
  unfold float_sum. revert acc. induction xs as [|x xs IH]; intros acc; simpl.
  - by rewrite Qcplus_0_r.
  - rewrite (IH (acc + x)), (IH (0 + x)), Qcplus_0_l.
    symmetry. apply Qcplus_assoc.
Qed.

Lemma float_sum_cons (x : Qc) (xs : list Qc) :
  float_sum (x :: xs) = x + float_sum xs.
Proof.
  unfold float_sum at 1. simpl. by rewrite foldl_Qcplus_acc, Qcplus_0_l.
Qed.

Lemma float_sum_nonneg (xs : list Qc) :
  Forall (λ x, 0 ≤ x) xs → 0 ≤ float_sum xs.
Proof.
  induction 1 as [|x xs Hx _ IH]; [done|].
  rewrite float_sum_cons. by apply Qcplus_nonneg_nonneg.
Qed.

Lemma list_index_Ok (x : string) (l : list string) (i : nat) :
  list_index x l = Ok i → l !! i = Some x.
Proof.
  unfold list_index. destruct (list_find _ l) as [[j y]|] eqn:E; [|done].
  intros [= ->]. apply list_find_Some in E as (Hy & -> & _). done.
Qed.

Lemma list_index_total (x : string) (l : list string) :
  x ∈ l → ∃ i, list_index x l = Ok i.
Proof.
  intros Hx. unfold list_index.
  destruct (list_find (λ y, y = x) l) as [[j y]|] eqn:E; [eauto|].
  exfalso. eapply list_find_None in E. rewrite Forall_forall in E.
  by apply (E x).
Qed.

Lemma tuple_get_Ok (c : combo) (i : nat) (v : string) :
  tuple_get c i = Ok v ↔ c !! i = Some v.
Proof. unfold tuple_get. destruct (c !! i); naive_solver. Qed.

(** The dictionary built by the first loop holds the aggregated weights. *)
Lemma current_marginals_of_spec (t : weight_table) (i : nat)
    (cm : gmap string Qc) (v : string) :
  current_marginals_of t i = Ok cm →
  get_default cm v 0 = aggregated_weight t i v.
Proof.
  unfold current_marginals_of, aggregated_weight.
  assert (∀ cm0, foldM (λ (cm : gmap string Qc) '(combo, prob),
                          dim_value ← tuple_get combo i;
                          Ok (<[dim_value := get_default cm dim_value 0 + prob]> cm))
                       cm0 t = Ok cm →
                 get_default cm v 0
                 = get_default cm0 v 0
                   + float_sum (filter (λ p, p.1 !! i = Some v) t).*2) as H.
  { induction t as [|[c p] t IH]; intros cm0 H; simpl in H.
    - injection H as <-. unfold float_sum. simpl. by rewrite Qcplus_0_r.
    - apply bind_Ok in H as (cm1 & Hcm1 & H).
      apply bind_Ok in Hcm1 as (dv & Hdv & [= <-]).
      apply tuple_get_Ok in Hdv. rewrite (IH _ H), filter_cons. simpl.
      destruct (decide (c !! i = Some v)) as [Hv|Hv].
      + assert (dv = v) as -> by congruence.
        rewrite fmap_cons, float_sum_cons. simpl.
        unfold get_default at 1. rewrite lookup_insert_eq. simpl.
        by rewrite Qcplus_assoc.
      + unfold get_default at 1. rewrite lookup_insert_ne; [done|].
        intros ->. done. }
  intros Hcm. rewrite (H ∅ Hcm). unfold get_default at 1.
  rewrite lookup_empty. simpl. by rewrite Qcplus_0_l.
Qed.

Lemma current_marginals_of_total (t : weight_table) (i : nat) :
  (∀ c p, (c, p) ∈ t → is_Some (c !! i)) →
  ∃ cm, current_marginals_of t i = Ok cm.
Proof.
  intros H. unfold current_marginals_of.
  match goal with |- ∃ _, foldM ?f ?s ?l = _ =>
    destruct (foldM_total (λ _, True) f l s) as (cm & Hcm & _)
  end; [|done|eauto].
  intros cm [c p] Hin _. destruct (H c p Hin) as [v Hv].
  apply tuple_get_Ok in Hv. rewrite Hv. simpl. eauto.
Qed.

Lemma adjust_probabilities_spec (t t' : weight_table) (i : nat)
    (cm mt : gmap string Qc) :
  adjust_probabilities t i cm mt = Ok t' →
  Forall2 (rescaled i (λ v, get_default cm v 0) (λ v, get_default mt v 0)) t t'.
Proof.
  unfold adjust_probabilities. rewrite forM_Forall2. intros HF.
  eapply Forall2_impl; [exact HF|]. clear HF. intros [c p] [c' p'] H.
  apply bind_Ok in H as (v & Hv & H). apply tuple_get_Ok in Hv.
  unfold rescaled. simpl. destruct (Qc_ltb 0 (get_default cm v 0)) eqn:Hpos.
  - apply bind_Ok in H as (factor & Hf & [= <- <-]).
    unfold py_div in Hf. destruct (decide _); [done|]. injection Hf as <-.
    split; [done|]. exists v. by rewrite Hpos.
  - injection H as <- <-. split; [done|]. exists v. by rewrite Hpos.
Qed.

Lemma adjust_probabilities_total (t : weight_table) (i : nat)
    (cm mt : gmap string Qc) :
  (∀ c p, (c, p) ∈ t → is_Some (c !! i)) →
  ∃ t', adjust_probabilities t i cm mt = Ok t'.
Proof.
  intros H. apply forM_total. intros [c p] Hin.
  destruct (H c p Hin) as [v Hv]. apply tuple_get_Ok in Hv.
  rewrite Hv. simpl. destruct (Qc_ltb 0 (get_default cm v 0)) eqn:Hpos; [|eauto].
  unfold py_div. destruct (decide (get_default cm v 0 = 0)) as [Hz|]; [|simpl; eauto].
  rewrite Hz, Qc_ltb_irrefl in Hpos. done.
Qed.

Lemma rescaled_ext (i : nat) (current current' target : string → Qc)
    (t t' : weight_table) :
  (∀ v, current v = current' v) →
  Forall2 (rescaled i current target) t t' →
  Forall2 (rescaled i current' target) t t'.
Proof.
  intros Heq HF. eapply Forall2_impl; [exact HF|].
  intros old new (Hk & v & Hv & Hp).
  split; [done|]. exists v. by rewrite <- Heq.
Qed.

Lemma rescaled_keys (i : nat) (current target : string → Qc)
    (t t' : weight_table) :
  Forall2 (rescaled i current target) t t' → t'.*1 = t.*1.
Proof.
  induction 1 as [|old new t t' [Hk _] _ IH]; [done|].
  rewrite !fmap_cons. by f_equal.
Qed.

(** A weight of zero is rescaled to zero. *)
Lemma rescaled_zero (i : nat) (current target : string → Qc)
    (t t' : weight_table) (c : combo) :
  Forall2 (rescaled i current target) t t' →
  assoc c t = Some 0 → assoc c t' = Some 0.
Proof.
  induction 1 as [|[c0 p0] [c1 p1] t t' (Hk & v & Hv & Hp) _ IH]; [done|].
  simpl in *. subst c1. destruct (decide (c = c0)) as [->|Hne]; [|done].
  intros [= ->]. rewrite Hp. destruct (Qc_ltb _ _); [|done].
  by rewrite Qcmult_0_l.
Qed.

(** A value whose aggregate is zero has all its combinations set to zero. *)
Lemma rescaled_pinned (i : nat) (current target : string → Qc)
    (t t' : weight_table) (c : combo) (p : Qc) (v : string) :
  Forall2 (rescaled i current target) t t' →
  current v = 0 → (c, p) ∈ t' → c !! i = Some v → p = 0.
Proof.
  intros H Hcur Hin Hv.
  induction H as [|[c0 p0] [c1 p1] t t' (Hk & v' & Hv' & Hp) _ IH].
  - by apply not_elem_of_nil in Hin.
  - apply elem_of_cons in Hin as [[= -> ->]|Hin]; [|by apply IH].
    simpl in *. subst c0. assert (v' = v) as -> by congruence.
    by rewrite Hp, Hcur, Qc_ltb_irrefl.
Qed.

Lemma apply_marginal_constraint_simple_spec (t t' : weight_table)
    (dims : list string) (d : string) (mt : gmap string Qc) :
  apply_marginal_constraint_simple t dims d mt = Ok t' →
  ∃ i, list_index d dims = Ok i ∧
       Forall2 (rescaled i (aggregated_weight t i)
                           (λ v, get_default mt v 0)) t t'.
Proof.
  intros H. unfold apply_marginal_constraint_simple in H.
  apply bind_Ok in H as (i & Hi & H). apply bind_Ok in H as (cm & Hcm & H).
  exists i. split; [done|]. apply adjust_probabilities_spec in H.
  eapply rescaled_ext; [|exact H].
  intros v. simpl. by apply current_marginals_of_spec.
Qed.

Lemma apply_marginal_constraint_spec (t t' : weight_table)
    (dims : list string) (d : string) (mt : gmap string Qc) :
  apply_marginal_constraint t dims d mt = Ok t' →
  (d ∉ dims ∧ t' = t) ∨
  (∃ i, list_index d dims = Ok i ∧
        Forall2 (rescaled i (aggregated_weight t i)
                            (λ v, get_default mt v 0)) t t').
Proof.
  intros H. unfold apply_marginal_constraint in H.
  case_bool_decide as Hd.
  - right. by apply apply_marginal_constraint_simple_spec.
  - left. by injection H as <-.
Qed.

Lemma apply_marginal_constraint_simple_total (t : weight_table)
    (dims : list string) (d : string) (mt : gmap string Qc) :
  d ∈ dims → table_arity (length dims) t →
  ∃ t', apply_marginal_constraint_simple t dims d mt = Ok t'
        ∧ table_arity (length dims) t'.
Proof.
  intros Hd Hwf. unfold apply_marginal_constraint_simple.
  destruct (list_index_total d dims Hd) as [i Hi]. rewrite Hi. simpl.
  assert (∀ c p, (c, p) ∈ t → is_Some (c !! i)) as Hget.
  { intros c p Hin. apply lookup_lt_is_Some. rewrite (Hwf c p Hin).
    apply list_index_Ok in Hi. by eapply lookup_lt_Some. }
  destruct (current_marginals_of_total t i Hget) as [cm Hcm].
  rewrite Hcm. simpl.
  destruct (adjust_probabilities_total t i cm mt Hget) as [t' Ht'].
  exists t'. split; [done|].
  apply adjust_probabilities_spec, rescaled_keys in Ht'.
  intros c p Hin.
  assert (c ∈ t.*1) as ([c0 p0] & -> & Hin0)%list_elem_of_fmap.
  { rewrite <- Ht'. apply list_elem_of_fmap. by exists (c, p). }
  by apply (Hwf c0 p0).
Qed.

(** ** Sweeps and the iteration *)

Lemma sweep_total (nm : list (string * gmap string Qc)) (dims : list string)
    (t : weight_table) :
  table_arity (length dims) t →
  ∃ t', sweep nm dims t = Ok t' ∧ table_arity (length dims) t'.
Proof.
  intros Hwf. unfold sweep.
  match goal with |- ∃ _, foldM ?f ?s ?l = _ ∧ _ =>
    apply (foldM_total (table_arity (length dims)) f l s)
  end; [|done].
  intros t1 d Hd Hwf1. destruct (assoc d nm) as [mt|]; [|eauto].
  by apply apply_marginal_constraint_simple_total.
Qed.

Lemma sweep_zero (nm : list (string * gmap string Qc)) (dims : list string)
    (t t' : weight_table) (c : combo) :
  sweep nm dims t = Ok t' → assoc c t = Some 0 → assoc c t' = Some 0.
Proof.
  intros H Hz. unfold sweep in H.
  eapply (foldM_invariant (λ t, assoc c t = Some 0)); [|exact Hz|exact H].
  intros t1 d t2 _ Hz1 Hstep. simpl in Hstep.
  destruct (assoc d nm) as [mt|]; [|by injection Hstep as <-].
  apply apply_marginal_constraint_simple_spec in Hstep as (i & _ & HF).
  by eapply rescaled_zero.
Qed.

Lemma ipf_iterations_spec (rounds : nat) (nm : list (string * gmap string Qc))
    (dims : list string) (t t' : weight_table) (n : nat) :
  ipf_iterations rounds nm dims t = Ok (t', n) →
  (n ≤ rounds)%nat ∧
  iterate_sweep n nm dims t = Ok t' ∧
  ((n < rounds)%nat → ∃ t_prev, sweep nm dims t_prev = Ok t'
                                ∧ total_change t' t_prev < tolerance).
Proof.
  revert t n. induction rounds as [|rounds IH]; intros t n H; simpl in H.
  - injection H as <- <-. split; [done|]. split; [done|]. lia.
  - apply bind_Ok in H as (t1 & Ht1 & H).
    destruct (Qc_ltb (total_change t1 t) tolerance) eqn:Hconv.
    + injection H as <- <-. split; [lia|]. split.
      * simpl. by rewrite Ht1.
      * intros _. exists t. split; [done|]. by apply Qc_ltb_lt.
    + apply bind_Ok in H as ([t2 n2] & Hrec & [= <- <-]).
      destruct (IH _ _ Hrec) as (Hle & Hiter & Hlast). simpl.
      split; [lia|]. split; [by rewrite Ht1|].
      intros Hlt. apply Hlast. lia.
Qed.

Lemma ipf_iterations_total (rounds : nat) (nm : list (string * gmap string Qc))
    (dims : list string) (t : weight_table) :
  table_arity (length dims) t →
  ∃ t' n, ipf_iterations rounds nm dims t = Ok (t', n).
Proof.
  revert t. induction rounds as [|rounds IH]; intros t Hwf; simpl; [eauto|].
  destruct (sweep_total nm dims t Hwf) as (t1 & -> & Hwf1). simpl.
  destruct (Qc_ltb _ _); [eauto|].
  destruct (IH t1 Hwf1) as (t' & n & ->). simpl. eauto.
Qed.

Lemma iterate_sweep_zero (n : nat) (nm : list (string * gmap string Qc))
    (dims : list string) (t t' : weight_table) (c : combo) :
  iterate_sweep n nm dims t = Ok t' →
  assoc c t = Some 0 → assoc c t' = Some 0.
Proof.
  revert t. induction n as [|n IH]; intros t H Hz; simpl in H.
  - by injection H as <-.
  - apply bind_Ok in H as (t1 & Ht1 & H).
    eapply IH; [exact H|]. by eapply sweep_zero.
Qed.

(** ** The initial table and the normalised marginals *)

Lemma float_sum_ones_pos {A} (l : list A) :
  l ≠ [] → 0 < float_sum (map (λ c, (c, 1)) l).*2.
Proof.
  destruct l as [|x l]; [done|]. intros _.
  rewrite map_cons, fmap_cons, float_sum_cons. simpl.
  apply Qcplus_pos_nonneg; [done|]. apply float_sum_nonneg.
  induction l as [|y l IH]; simpl; constructor; done.
Qed.

Lemma uniform_table_total (dim_values : list (list string)) :
  ∃ t, uniform_table dim_values = Ok t ∧ t.*1 = product dim_values.
Proof.
  unfold uniform_table.
  set (tbl := map (λ c, (c, 1)) (product dim_values)).
  assert (tbl.*1 = product dim_values) as Hkeys.
  { unfold tbl. generalize (product dim_values). intros l.
    induction l as [|x l IH]; simpl; [done|]. by f_equal. }
  destruct (forM_total (λ '(key, v), v' ← py_div v (float_sum tbl.*2);
                                     Ok (key, v')) tbl) as [t Ht].
  { intros [key v] Hin. unfold py_div.
    destruct (decide (float_sum tbl.*2 = 0)) as [Hz|]; [|simpl; eauto].
    exfalso. assert (product dim_values ≠ []) as Hne.
    { intros Hnil. unfold tbl in Hin. rewrite Hnil in Hin.
      by apply not_elem_of_nil in Hin. }
    apply (float_sum_ones_pos (product dim_values)) in Hne.
    fold tbl in Hne. rewrite Hz in Hne. by apply Qclt_not_eq in Hne. }
  exists t. split; [done|]. rewrite <- Hkeys.
  apply forM_Forall2 in Ht. clear Hkeys.
  induction Ht as [|[k v] [k' v'] ? ? H _ IH]; [done|].
  apply bind_Ok in H as (q & _ & [= <- _]). rewrite !fmap_cons. by f_equal.
Qed.

Lemma product_arity (ls : list (list string)) (t : weight_table) :
  t.*1 = product ls → table_arity (length ls) t.
Proof.
  intros Hkeys c p Hin.
  assert (c ∈ product ls) as Hc.
  { rewrite <- Hkeys. apply list_elem_of_fmap. by exists (c, p). }
  apply elem_of_product in Hc. by apply Forall2_length in Hc.
Qed.

Lemma normalize_marginals_total (N : Z) (m : marginals) :
  N ≠ 0%Z → ∃ nm, normalize_marginals N m = Ok nm.
Proof.
  intros HN. apply forM_total. intros [d tot] _.
  unfold normalize_totals. rewrite bool_decide_eq_false_2; [simpl; eauto|].
  by intros [_ ?].
Qed.

(** With a non-zero total the estimation returns a table after at most 50
    sweeps, and a run that stops before the cap stops on a sweep that
    changed the table by less than the tolerance. *)
Lemma run_ipf_counting_total (m : marginals) (N : Z) :
  total_events_of m = Ok N → N ≠ 0%Z →
  ∃ t n, run_ipf_counting m = Ok (t, n) ∧ (n ≤ 50)%nat ∧
    ((n < 50)%nat → ∃ t_prev nm,
       sweep nm (active_dimensions m).*1 t_prev = Ok t
       ∧ total_change t t_prev < tolerance).
Proof.
  intros HN Hnz. unfold run_ipf_counting.
  destruct (uniform_table_total (active_dimensions m).*2) as (t0 & -> & Hkeys).
  rewrite HN. simpl.
  destruct (normalize_marginals_total N m Hnz) as [nm ->]. simpl.
  apply product_arity in Hkeys. rewrite length_fmap in Hkeys.
  rewrite <- (length_fmap fst) in Hkeys.
  destruct (ipf_iterations_total 50 nm _ t0 Hkeys) as (t & n & Hrun).
  exists t, n. split; [done|].
  destruct (ipf_iterations_spec _ _ _ _ _ _ Hrun) as (Hle & _ & Hlast).
  split; [done|]. intros Hlt. destruct (Hlast Hlt) as (t_prev & ? & ?).
  by exists t_prev, nm.
Qed.

Local Close Scope Qc_scope.

(** ** The marginal extractor *)

(** C7.  For the referrers dimension: when the explicit referrer counts
    sum to strictly less than the site total of pageviews, the returned
    marginal is the explicit one with the key ["(direct)"] set to the
    positive difference; when the sum equals or exceeds the site total,
    the returned marginal is the explicit one, unchanged. *)
Theorem referrers_direct_rule (py_int : string → option Z)
    (hourly_data : hourly) (m : marginals) :
  get_marginal_totals py_int hourly_data = Ok m →
  ∃ total_pageviews explicit,
    total_pageviews_of py_int hourly_data = Ok total_pageviews ∧
    explicit_referrers py_int hourly_data = Ok explicit ∧
    (dict_sum explicit < total_pageviews →
       0 < total_pageviews - dict_sum explicit ∧
       assoc "referrers" m
         = Some (<["(direct)" := total_pageviews - dict_sum explicit]> explicit)) ∧
    (total_pageviews ≤ dict_sum explicit →
       assoc "referrers" m = Some explicit).
Proof.
  intros H. unfold get_marginal_totals in H.
  apply bind_Ok in H as (total & Htotal & H).
  apply bind_Ok in H as (pages & _ & H).
  apply bind_Ok in H as (browsers & _ & H).
  apply bind_Ok in H as (countries & _ & H).
  apply bind_Ok in H as (devices & _ & H).
  apply bind_Ok in H as (referrers & Href & [= <-]).
  exists total, referrers. split; [done|]. split; [done|].
  unfold add_direct. simpl. split.
  - intros Hlt. split; [lia|].
    destruct (0 <? total - dict_sum referrers) eqn:E; [done|].
    apply Z.ltb_ge in E. lia.
  - intros Hge. destruct (0 <? total - dict_sum referrers) eqn:E; [|done].
    apply Z.ltb_lt in E. lia.
Qed.

Lemma referrers_direct_rule_witness :
  ∃ total_pageviews explicit,
    total_pageviews_of decimal example_hour = Ok total_pageviews ∧
    explicit_referrers decimal example_hour = Ok explicit ∧
    (dict_sum explicit < total_pageviews →
       0 < total_pageviews - dict_sum explicit ∧
       assoc "referrers"
             [("pages", ∅); ("browsers", ∅); ("countries", ∅); ("devices", ∅);
              ("referrers",
               <["(direct)" := 2]> (<["b.org" := 1]> (<["a.org" := 2]> ∅)))]
         = Some (<["(direct)" := total_pageviews - dict_sum explicit]> explicit)) ∧
    (total_pageviews ≤ dict_sum explicit →
       assoc "referrers"
             [("pages", ∅); ("browsers", ∅); ("countries", ∅); ("devices", ∅);
              ("referrers",
               <["(direct)" := 2]> (<["b.org" := 1]> (<["a.org" := 2]> ∅)))]
         = Some explicit).
Proof.
  apply (referrers_direct_rule decimal example_hour). vm_compute. reflexivity.
Defined.

(** ** The solver as a whole *)

Lemma solve_exact_distribution_inv (m : marginals) (evs combos : list event) :
  solve_exact_distribution m = Ok (evs, combos) →
  (active_dimensions m = [] ∧ evs = [] ∧ combos = []) ∨
  ∃ w N st,
    total_events_of m = Ok N ∧
    combos = combinations_of (active_dimensions m) ∧
    run_integer_assignment combos (active_dimensions m).*1 m w N = Ok st ∧
    events st = evs.
Proof.
  unfold solve_exact_distribution. intros H.
  destruct (decide (active_dimensions m = [])) as [Hnil|Hne].
  - left. by injection H as <- <-.
  - right. apply bind_Ok in H as (r & _ & H).
    apply bind_Ok in H as (N & HN & H).
    apply bind_Ok in H as (evs' & Hevs & [= <- <-]).
    unfold solve_integer_assignment in Hevs.
    apply fmap_Ok in Hevs as (st & Hst & <-).
    exists r.1.1, N, st. done.
Qed.

Lemma solve_exact_distribution_run (m : marginals) (N : Z) :
  active_dimensions m ≠ [] → total_events_of m = Ok N → N ≠ 0 →
  ∃ w, solve_exact_distribution m =
         (st ← run_integer_assignment
                 (combinations_of (active_dimensions m))
                 (active_dimensions m).*1 m w N;
          Ok (events st, combinations_of (active_dimensions m))).
Proof.
  intros Hne HN Hnz. unfold solve_exact_distribution.
  rewrite decide_False by done.
  destruct (run_ipf_counting_total m N HN Hnz) as (t & n & Hrun & _).
  unfold run_ipf_for_weights. rewrite Hrun, HN. simpl. exists t.
  unfold solve_integer_assignment. by destruct (run_integer_assignment _ _ _ _ _).
Qed.

Lemma dict_sum_empty : dict_sum ∅ = 0.
Proof. unfold dict_sum. by rewrite map_fold_empty. Qed.

Lemma foldl_max_spec (a : Z) (l : list Z) (N : Z) :
  a ≤ N → (∀ x, x ∈ l → x ≤ N) → (a = N ∨ N ∈ l) → foldl Z.max a l = N.
Proof.
  revert a. induction l as [|x l IH]; intros a Ha Hl Hin; simpl.
  - destruct Hin as [?|Hin]; [done|]. by apply not_elem_of_nil in Hin.
  - assert (x ≤ N) by (apply Hl; by left). apply IH.
    + lia.
    + intros y Hy. apply Hl. by right.
    + destruct Hin as [->|[->|Hin]%elem_of_cons]; [left; lia|left; lia|by right].
Qed.

(** The target total is the common sum of the non-empty marginals. *)
Lemma total_events_of_common (m : marginals) (N : Z) :
  0 ≤ N → active_dimensions m ≠ [] →
  (∀ d tot, (d, tot) ∈ m → tot ≠ ∅ → dict_sum tot = N) →
  total_events_of m = Ok N.
Proof.
  intros HN Hne Hsum. unfold total_events_of.
  assert (∀ x, x ∈ map (λ p : string * totals, dict_sum p.2) m → x ≤ N) as Hle.
  { intros x ([d tot] & -> & Hin)%list_elem_of_fmap. simpl.
    destruct (decide (tot = ∅)) as [->|Hn]; [by rewrite dict_sum_empty|].
    by rewrite (Hsum d tot). }
  assert (N ∈ map (λ p : string * totals, dict_sum p.2) m) as Hin.
  { destruct (active_dimensions m) as [|[d vals] rest] eqn:E; [done|].
    assert ((d, vals) ∈ active_dimensions m) as Hd by (rewrite E; by left).
    apply elem_of_active_dimensions in Hd as (tot & Hd & Hn & _).
    apply list_elem_of_fmap. exists (d, tot). split; [|done].
    simpl. symmetry. by apply (Hsum d tot). }
  destruct (map _ m) as [|x l]; [by apply not_elem_of_nil in Hin|].
  simpl. f_equal. apply foldl_max_spec.
  - apply Hle. by left.
  - intros y Hy. apply Hle. by right.
  - apply elem_of_cons in Hin as [->|Hin]; [by left|by right].
Qed.

(** The boolean checks used on concrete marginals. *)
Lemma nonneg_marginals_check (m : marginals) :
  forallb (λ p : string * totals,
             forallb (λ kv : string * Z, 0 <=? kv.2) (map_to_list p.2)) m = true →
  nonneg_marginals m.
Proof.
  intros H d tot v c Hin Hv. rewrite forallb_forall in H.
  specialize (H (d, tot)). rewrite <- list_elem_of_In in H.
  specialize (H Hin). simpl in H. rewrite forallb_forall in H.
  specialize (H (v, c)). rewrite <- list_elem_of_In, elem_of_map_to_list in H.
  apply Z.leb_le. by apply H.
Qed.

Lemma common_sum_check (m : marginals) (N : Z) :
  forallb (λ p : string * totals, dict_sum p.2 =? N) m = true →
  ∀ d tot, (d, tot) ∈ m → dict_sum tot = N.
Proof.
  intros H d tot Hin. rewrite forallb_forall in H.
  specialize (H (d, tot)). rewrite <- list_elem_of_In in H.
  apply Z.eqb_eq. by apply H.
Qed.

Lemma NoDup_check (l : list string) : bool_decide (NoDup l) = true → NoDup l.
Proof. apply bool_decide_eq_true_1. Qed.

(** C8 (as the code has it).  With no active dimension, that is when every
    marginal is empty, [solve_exact_distribution] returns the empty event
    list and the empty combination list; it does not raise. *)
Theorem no_active_dimension_returns_empty (m : marginals) :
  active_dimensions m = [] → solve_exact_distribution m = Ok ([], []).
Proof.
  intros H. unfold solve_exact_distribution. by rewrite decide_True.
Qed.

Lemma no_active_dimension_returns_empty_witness :
  solve_exact_distribution empty_marginals = Ok ([], []).
Proof. apply no_active_dimension_returns_empty. reflexivity. Defined.

(** C8 as stated fails: on the marginals without any category value the
    solver returns normally. *)
Lemma no_active_dimension_counterexample :
  ¬ (∀ m, active_dimensions m = [] → ∃ e, solve_exact_distribution m = Raise e).
Proof.
  intros H. destruct (H empty_marginals) as [e He]; [reflexivity|].
  vm_compute in He. discriminate He.
Qed.

(** ** Recounting the events of one dimension *)

Lemma count_values_spec (d : string) (evs : list event) :
  (∀ ev, ev ∈ evs → is_Some (ev !! d)) →
  ∃ cnt, count_values d evs = Ok cnt ∧
    ∀ v, cnt !! v = if decide (0 < occurrences d v evs)
                    then Some (occurrences d v evs) else None.
Proof.
  unfold count_values.
  induction evs as [|ev evs IH] using rev_ind; intros Hkeys.
  - exists ∅. split; [done|]. intros v. by rewrite lookup_empty.
  - destruct IH as (cnt & Hcnt & Hspec).
    { intros ev' Hev'. apply Hkeys, elem_of_app. by left. }
    destruct (Hkeys ev) as [v0 Hv0]; [apply elem_of_app; right; by left|].
    rewrite foldM_app, Hcnt. simpl.
    rewrite (proj2 (getitem_Ok ev d v0) Hv0). simpl.
    eexists. split; [done|]. intros v.
    rewrite occurrences_app, occurrences_cons, occurrences_nil.
    pose proof (occurrences_nonneg d v evs) as Hnn.
    destruct (decide (v = v0)) as [->|Hne].
    + rewrite lookup_insert_eq.
      rewrite (decide_True (P := ev !! d = Some v0)) by done.
      rewrite decide_True by lia. f_equal.
      unfold get_default. rewrite Hspec.
      destruct (decide (0 < occurrences d v0 evs)); simpl; lia.
    + rewrite lookup_insert_ne by done.
      rewrite (decide_False (P := ev !! d = Some v)) by congruence.
      rewrite Hspec. replace (occurrences d v evs + (0 + 0))
        with (occurrences d v evs) by lia. done.
Qed.

(** The recount is a given dictionary of positive counts as soon as the
    occurrences agree with it. *)
Lemma count_values_exact (d : string) (evs : list event) (expected : totals) :
  (∀ ev, ev ∈ evs → is_Some (ev !! d)) →
  (∀ v, occurrences d v evs = get_default expected v 0) →
  forallb (λ kv : string * Z, 0 <? kv.2) (map_to_list expected) = true →
  count_values d evs = Ok expected.
Proof.
  intros Hkeys Hocc Hpos.
  destruct (count_values_spec d evs Hkeys) as (cnt & -> & Hcnt).
  f_equal. apply map_eq. intros v. rewrite Hcnt, Hocc. unfold get_default.
  destruct (expected !! v) as [c|] eqn:E; simpl; [|done].
  rewrite forallb_forall in Hpos. specialize (Hpos (v, c)).
  rewrite <- list_elem_of_In, elem_of_map_to_list in Hpos.
  specialize (Hpos E). apply Z.ltb_lt in Hpos. by rewrite decide_True.
Qed.

(** ** The quota invariant *)

(** C4.  In every step of the greedy assignment, and hence between any
    state of the loop and any later one, no quota becomes negative and no
    quota grows; and the events returned by the solver never contain a
    category value more often than its marginal count, whatever weights
    order the combinations. *)
Theorem quota_invariant :
  (∀ dims c st st',
     NoDup dims → quotas_nonneg (remaining_quotas st) →
     assign_combo dims c st = Ok st' →
     quotas_nonneg (remaining_quotas st') ∧
     ∀ d v, quota (remaining_quotas st') d v ≤ quota (remaining_quotas st) d v) ∧
  (∀ dims cws st st',
     NoDup dims → quotas_nonneg (remaining_quotas st) →
     greedy_assignment dims cws st = Ok st' →
     quotas_nonneg (remaining_quotas st') ∧
     ∀ d v, quota (remaining_quotas st') d v ≤ quota (remaining_quotas st) d v) ∧
  (∀ m w N,
     NoDup m.*1 → nonneg_marginals m →
     ∃ st, run_integer_assignment (combinations_of (active_dimensions m))
                                  (active_dimensions m).*1 m w N = Ok st ∧
           quotas_nonneg (remaining_quotas st) ∧
           ∀ d v, quota (remaining_quotas st) d v ≤ target m d v
                  ∧ occurrences d v (events st) ≤ target m d v) ∧
  (∀ m evs combos d v,
     NoDup m.*1 → nonneg_marginals m →
     solve_exact_distribution m = Ok (evs, combos) →
     occurrences d v evs ≤ target m d v).
Proof.
  split; [|split; [|split]].
  - intros dims c st st' Hnd Hnn H.
    destruct (assign_combo_spec _ _ _ _ Hnd H)
      as (n & Hn & _ & _ & _ & Hquota & Hdraw & _).
    split.
    + intros d v. rewrite Hquota. specialize (Hnn d v).
      destruct (decide _) as [[Hd Hv]|]; [|done].
      destruct (Hdraw d Hd) as (v' & Hv' & Hle).
      assert (v' = v) as -> by congruence.
      destruct (decide (0 < n)); [specialize (Hle ltac:(done))|]; lia.
    + intros d v. rewrite Hquota. destruct (decide _); lia.
  - intros dims cws st st' Hnd Hnn H.
    destruct (greedy_assignment_spec _ _ _ _ Hnd Hnn H)
      as (Hnn' & _ & _ & Hmono & _). done.
  - intros m w N Hnd Hnn. by apply run_integer_assignment_bounds.
  - intros m evs combos d v Hnd Hnn H.
    apply solve_exact_distribution_inv in H
      as [(_ & -> & _)|(w & N & st & _ & -> & Hst & <-)].
    + rewrite occurrences_nil. by apply target_nonneg.
    + destruct (run_integer_assignment_spec m w N Hnd Hnn)
        as (st' & Hst' & Hnn' & _ & _ & _ & Hcons & _).
      rewrite Hst in Hst'. injection Hst' as <-.
      specialize (Hcons d v). specialize (Hnn' d v). lia.
Qed.

Lemma quota_invariant_witness :
  occurrences "browsers" "Chrome" infeasible_events
  ≤ target infeasible_marginals "browsers" "Chrome".
Proof.
  apply (proj2 (proj2 (proj2 quota_invariant))
           infeasible_marginals infeasible_events
           (combinations_of (active_dimensions infeasible_marginals))).
  - apply NoDup_check. reflexivity.
  - apply nonneg_marginals_check. reflexivity.
  - vm_compute. reflexivity.
Defined.

(** ** The two scenarios *)

(** C2.  On the marginals pages /a 3, /b 2 and browsers Chrome 4,
    Safari 1 the target total is 5, and the solver emits exactly 5 events
    whose recount is /a 3, /b 2 for pages and Chrome 4, Safari 1 for
    browsers, with every remaining quota zero; this holds for the weights
    the estimation gives and for any other weights. *)
Theorem concrete_scenario :
  total_events_of scenario_marginals = Ok 5 ∧
  solve_exact_distribution scenario_marginals
    = Ok (scenario_events,
          combinations_of (active_dimensions scenario_marginals)) ∧
  ∀ w, ∃ st,
    run_integer_assignment
      (combinations_of (active_dimensions scenario_marginals))
      (active_dimensions scenario_marginals).*1 scenario_marginals w 5
      = Ok st ∧
    length (events st) = 5%nat ∧
    count_values "pages" (events st) = Ok (<["/a" := 3]> (<["/b" := 2]> ∅)) ∧
    count_values "browsers" (events st)
      = Ok (<["Chrome" := 4]> (<["Safari" := 1]> ∅)) ∧
    remaining_events st = 0 ∧
    ∀ d v, quota (remaining_quotas st) d v = 0.
Proof.
  split; [reflexivity|]. split; [vm_compute; reflexivity|]. intros w.
  destruct (run_integer_assignment_exact scenario_marginals w 5)
    as (st & Hst & Hrem & Hlen & Hevs & Hq & Hocc).
  { apply NoDup_check. reflexivity. }
  { apply nonneg_marginals_check. reflexivity. }
  { lia. }
  { intros d tot Hin _. revert d tot Hin. apply common_sum_check. reflexivity. }
  exists st. split; [done|]. split; [lia|].
  assert (∀ d ev, d ∈ ["pages"; "browsers"] → ev ∈ events st →
                  is_Some (ev !! d)) as Hkeys.
  { intros d ev Hd Hev.
    apply (combination_total scenario_marginals); [|by apply Hevs|done].
    apply NoDup_check. reflexivity. }
  split; [|split; [|split; [exact Hrem|exact Hq]]].
  - apply count_values_exact; [|intros v; apply Hocc|reflexivity].
    intros ev. apply Hkeys. by left.
  - apply count_values_exact; [|intros v; apply Hocc|reflexivity].
    intros ev. apply Hkeys. right. by left.
Qed.

(** C3.  On the marginals pages /a 3 and browsers Chrome 1, Safari 1 the
    target total is 3; the solver does not raise, assigns exactly 2 events
    and leaves 1 event and 1 unit of the /a quota unassigned, and the
    recount of browsers is Chrome 1, Safari 1; this holds for the weights
    the estimation gives and for any other weights. *)
Theorem infeasible_scenario :
  total_events_of infeasible_marginals = Ok 3 ∧
  solve_exact_distribution infeasible_marginals
    = Ok (infeasible_events,
          combinations_of (active_dimensions infeasible_marginals)) ∧
  ∀ w, ∃ st,
    run_integer_assignment
      (combinations_of (active_dimensions infeasible_marginals))
      (active_dimensions infeasible_marginals).*1 infeasible_marginals w 3
      = Ok st ∧
    length (events st) = 2%nat ∧
    remaining_events st = 1 ∧
    quota (remaining_quotas st) "pages" "/a" = 1 ∧
    count_values "browsers" (events st)
      = Ok (<["Chrome" := 1]> (<["Safari" := 1]> ∅)) ∧
    ∀ v, occurrences "browsers" v (events st)
         ≤ target infeasible_marginals "browsers" v.
Proof.
  split; [reflexivity|]. split; [vm_compute; reflexivity|]. intros w.
  destruct (run_integer_assignment_bounds infeasible_marginals w 3)
    as (st' & Hst' & _ & Hbound).
  { apply NoDup_check. reflexivity. }
  { apply nonneg_marginals_check. reflexivity. }
  assert (∃ st, run_integer_assignment
                  (combinations_of (active_dimensions infeasible_marginals))
                  (active_dimensions infeasible_marginals).*1
                  infeasible_marginals w 3 = Ok st ∧
                length (events st) = 2%nat ∧ remaining_events st = 1 ∧
                quota (remaining_quotas st) "pages" "/a" = 1 ∧
                count_values "browsers" (events st)
                = Ok (<["Chrome" := 1]> (<["Safari" := 1]> ∅)))
    as (st & Hst & Hlen & Hrem & Hq & Hcnt).
  { unfold run_integer_assignment.
    set (c1 := dict_of_zip ["pages"; "browsers"] ["/a"; "Chrome"]).
    set (c2 := dict_of_zip ["pages"; "browsers"] ["/a"; "Safari"]).
    assert (weigh (combinations_of (active_dimensions infeasible_marginals))
              (active_dimensions infeasible_marginals).*1 w
            = Ok [(c1, default 0%Qc (assoc ["/a"; "Chrome"] w));
                  (c2, default 0%Qc (assoc ["/a"; "Safari"] w))]) as ->
      by reflexivity.
    simpl. unfold sort_by. simpl. unfold heavier_first at 1. simpl.
    destruct (Qc_leb _ _);
      (eexists; split; [vm_compute; reflexivity|]; repeat split;
       vm_compute; reflexivity). }
  exists st. repeat (split; [done|]).
  rewrite Hst in Hst'. injection Hst' as <-. intros v. apply Hbound.
Qed.

(** ** The round-trip verifier *)

Lemma bump_spec (k : string) (ev : event) (rec rec' : gmap string totals) :
  bump k ev rec = Ok rec' →
  ∃ v, ev !! k = Some v ∧
    (∀ k' v', quota rec' k' v' =
                quota rec k' v' + if decide (k' = k ∧ v' = v) then 1 else 0) ∧
    (∀ k', is_Some (rec' !! k') ↔ is_Some (rec !! k')).
Proof.
  unfold bump. intros H.
  apply bind_Ok in H as (v & Hv & H). apply bind_Ok in H as (cnt & Hcnt & H).
  apply getitem_Ok in Hv, Hcnt. injection H as <-.
  exists v. split; [done|]. split.
  - intros k' v'. rewrite (quota_insert rec k v cnt _ k' v' Hcnt).
    destruct (decide (k' = k ∧ v' = v)) as [[-> ->]|]; [|lia].
    by rewrite (quota_lookup rec k v cnt Hcnt).
  - intros k'. destruct (decide (k' = k)) as [->|Hne].
    + rewrite lookup_insert_eq, Hcnt. split; eauto.
    + by rewrite lookup_insert_ne.
Qed.

(** The five updates per event, written as a loop over the dimensions. *)
Lemma bump_all_spec (ks : list string) (ev : event)
    (rec rec' : gmap string totals) :
  NoDup ks → foldM (λ rec k, bump k ev rec) rec ks = Ok rec' →
  (∀ k, k ∈ ks → is_Some (ev !! k)) ∧
  (∀ k v, quota rec' k v =
            quota rec k v
            + if decide (k ∈ ks ∧ ev !! k = Some v) then 1 else 0) ∧
  (∀ k, is_Some (rec' !! k) ↔ is_Some (rec !! k)).
Proof.
  revert rec. induction ks as [|k0 ks IH]; intros rec Hnd H; simpl in H.
  - injection H as <-. split; [intros k Hk; by apply not_elem_of_nil in Hk|].
    split; [|done]. intros k v. rewrite decide_False; [lia|].
    intros [Hk _]. by apply not_elem_of_nil in Hk.
  - apply NoDup_cons in Hnd as [Hk0 Hnd].
    apply bind_Ok in H as (rec1 & Hrec1 & H).
    apply bump_spec in Hrec1 as (v0 & Hv0 & Hq1 & Hdom1).
    destruct (IH _ Hnd H) as (Hkeys & Hq & Hdom). split; [|split].
    + intros k [->|Hk]%elem_of_cons; [eauto|by apply Hkeys].
    + intros k v. rewrite Hq, Hq1.
      destruct (decide (k = k0)) as [->|Hne].
      * rewrite (decide_False (P := k0 ∈ ks ∧ _)) by (intros [? _]; done).
        destruct (decide (v = v0)) as [->|Hv].
        -- rewrite decide_True by done.
           rewrite decide_True by (split; [by left|done]). lia.
        -- rewrite decide_False by (intros [_ ?]; done).
           rewrite decide_False; [lia|]. intros [_ Hc]. congruence.
      * rewrite (decide_False (P := k = k0 ∧ _)) by (intros [? _]; done).
        destruct (decide (k ∈ ks ∧ ev !! k = Some v)) as [[Hin Hc]|Hn].
        -- rewrite decide_True by (split; [by right|done]). lia.
        -- rewrite decide_False; [lia|].
           intros [[?|?]%elem_of_cons Hc]; [done|]. by apply Hn.
    + intros k. by rewrite Hdom, Hdom1.
Qed.

Lemma bump_all_total (ks : list string) (ev : event) (rec : gmap string totals) :
  (∀ k, k ∈ ks → is_Some (ev !! k)) → (∀ k, k ∈ ks → is_Some (rec !! k)) →
  ∃ rec', foldM (λ rec k, bump k ev rec) rec ks = Ok rec'
          ∧ ∀ k, is_Some (rec' !! k) ↔ is_Some (rec !! k).
Proof.
  revert rec. induction ks as [|k0 ks IH]; intros rec Hev Hrec; simpl.
  - by exists rec.
  - destruct (Hev k0) as [v Hv]; [by left|].
    destruct (Hrec k0) as [cnt Hcnt]; [by left|].
    assert (∃ rec1, bump k0 ev rec = Ok rec1) as [rec1 Hrec1].
    { unfold bump. apply getitem_Ok in Hv, Hcnt. rewrite Hv. simpl.
      rewrite Hcnt. simpl. eauto. }
    rewrite Hrec1. simpl.
    apply bump_spec in Hrec1 as (_ & _ & _ & Hdom1).
    destruct (IH rec1) as (rec' & Hrec' & Hdom).
    + intros k Hk. apply Hev. by right.
    + intros k Hk. apply Hdom1, Hrec. by right.
    + exists rec'. split; [done|]. intros k. by rewrite Hdom, Hdom1.
Qed.

Lemma NoDup_dimension_names : NoDup dimension_names.
Proof. apply NoDup_check. reflexivity. Qed.

Lemma reconstruct_step_fold (ev : event) (rec : gmap string totals) :
  (r1 ← bump "pages" ev rec;
   r2 ← bump "browsers" ev r1;
   r3 ← bump "countries" ev r2;
   r4 ← bump "devices" ev r3;
   bump "referrers" ev r4)
  = foldM (λ rec k, bump k ev rec) rec dimension_names.
Proof.
  simpl. destruct (bump "pages" ev rec) as [r1|]; simpl; [|done].
  destruct (bump "browsers" ev r1) as [r2|]; simpl; [|done].
  destruct (bump "countries" ev r2) as [r3|]; simpl; [|done].
  destruct (bump "devices" ev r3) as [r4|]; simpl; [|done].
  by destruct (bump "referrers" ev r4).
Qed.

(** The counting loop of the verifier: it needs every event to have the
    five dimensions, and then adds the occurrences to the counts. *)
Lemma reconstruct_loop_spec (evs : list event) (rec rec' : gmap string totals) :
  foldM (λ reconstructed ev,
           r1 ← bump "pages" ev reconstructed;
           r2 ← bump "browsers" ev r1;
           r3 ← bump "countries" ev r2;
           r4 ← bump "devices" ev r3;
           bump "referrers" ev r4) rec evs = Ok rec' →
  ∀ k v, k ∈ dimension_names →
         quota rec' k v = quota rec k v + occurrences k v evs.
Proof.
  revert rec. induction evs as [|ev evs IH]; intros rec H k v Hk; simpl in H.
  - injection H as <-. rewrite occurrences_nil. lia.
  - apply bind_Ok in H as (rec1 & Hrec1 & H).
    rewrite reconstruct_step_fold in Hrec1.
    apply bump_all_spec in Hrec1 as (_ & Hq & _);
      [|apply NoDup_dimension_names].
    rewrite (IH _ H k v Hk), Hq, occurrences_cons.
    destruct (decide (ev !! k = Some v)) as [Hv|Hv].
    + rewrite decide_True by done. lia.
    + rewrite decide_False by (intros [_ ?]; done). lia.
Qed.

Lemma reconstruct_loop_total (evs : list event) (rec : gmap string totals) :
  (∀ ev k, ev ∈ evs → k ∈ dimension_names → is_Some (ev !! k)) →
  (∀ k, k ∈ dimension_names → is_Some (rec !! k)) →
  ∃ rec', foldM (λ reconstructed ev,
                   r1 ← bump "pages" ev reconstructed;
                   r2 ← bump "browsers" ev r1;
                   r3 ← bump "countries" ev r2;
                   r4 ← bump "devices" ev r3;
                   bump "referrers" ev r4) rec evs = Ok rec'
          ∧ ∀ k, k ∈ dimension_names → is_Some (rec' !! k).
Proof.
  intros Hevs Hrec.
  match goal with |- ∃ _, foldM ?f ?s ?l = _ ∧ _ =>
    apply (foldM_total (λ rec : gmap string totals,
                          ∀ k, k ∈ dimension_names → is_Some (rec !! k)) f l s)
  end; [|done].
  intros rec1 ev Hev Hrec1. rewrite reconstruct_step_fold.
  destruct (bump_all_total dimension_names ev rec1) as (rec2 & Hrec2 & Hdom).
  - intros k Hk. by apply Hevs.
  - done.
  - exists rec2. split; [done|]. intros k Hk. by apply Hdom, Hrec1.
Qed.

Lemma compare_dimension_true (orig_dict recon_dict : totals) :
  (∀ key, get_default orig_dict key 0 = get_default recon_dict key 0) →
  compare_dimension orig_dict recon_dict = true.
Proof.
  intros H. unfold compare_dimension.
  generalize (sort_by String.leb (elements (dom orig_dict ∪ dom recon_dict))).
  intros keys. induction keys as [|key keys IH]; simpl; [done|].
  by rewrite decide_False by (rewrite H; intros Hne; by apply Hne).
Qed.

Lemma compare_marginals_true (original reconstructed : marginals) :
  (∀ dim key, dim ∈ dimension_names →
     get_default (default ∅ (assoc dim original)) key 0
     = get_default (default ∅ (assoc dim reconstructed)) key 0) →
  compare_marginals original reconstructed = true.
Proof.
  intros H. unfold compare_marginals.
  assert (∀ names, (∀ dim, dim ∈ names → dim ∈ dimension_names) →
            foldl (λ all_match dim,
                     let orig_dict := default ∅ (assoc dim original) in
                     let recon_dict := default ∅ (assoc dim reconstructed) in
                     if compare_dimension orig_dict recon_dict
                     then all_match else false) true names = true) as Hall.
  { induction names as [|dim names IH]; intros Hsub; simpl; [done|].
    rewrite compare_dimension_true.
    - apply IH. intros ? ?. apply Hsub. by right.
    - intros key. apply H, Hsub. by left. }
  by apply Hall.
Qed.

(** The verifier reports a match on events that have the five dimensions
    and occur as often as the marginals say. *)
Lemma verifier_accepts (m : marginals) (evs : list event) :
  (∀ ev k, ev ∈ evs → k ∈ dimension_names → is_Some (ev !! k)) →
  (∀ d v, d ∈ dimension_names → occurrences d v evs = target m d v) →
  ∃ recon, reconstruct_marginals_from_events evs = Ok recon ∧
           compare_marginals m recon = true.
Proof.
  intros Hkeys Hocc. unfold reconstruct_marginals_from_events.
  set (rec0 := <["referrers" := ∅]> _).
  assert (∀ k v, quota rec0 k v = 0) as Hq0.
  { intros k v. unfold quota, get_default, rec0.
    repeat (rewrite lookup_insert; case_decide;
            [simpl; by rewrite lookup_empty|]).
    rewrite lookup_empty. simpl. by rewrite lookup_empty. }
  destruct (reconstruct_loop_total evs rec0 Hkeys) as (rec & Hrec & Hdom).
  { intros k Hk. unfold rec0, dimension_names in *.
    repeat (apply elem_of_cons in Hk as [->|Hk]; [by simplify_map_eq|]).
    by apply not_elem_of_nil in Hk. }
  rewrite Hrec. simpl.
  pose proof (reconstruct_loop_spec evs rec0 rec Hrec) as Hq.
  destruct (forM_total (λ k, v ← getitem rec k; Ok (k, v)) dimension_names)
    as [recon Hrecon].
  { intros k Hk. destruct (Hdom k Hk) as [cnt Hcnt].
    apply getitem_Ok in Hcnt. rewrite Hcnt. simpl. eauto. }
  exists recon. split; [done|].
  apply compare_marginals_true. intros dim key Hdim.
  assert (assoc dim recon = rec !! dim) as ->.
  { apply forM_Forall2 in Hrecon. unfold dimension_names in *.
    repeat (apply Forall2_cons_inv_l in Hrecon
              as ([? ?] & ? & (? & ?%getitem_Ok & [= <- <-])%bind_Ok
                  & Hrecon & ->)).
    apply Forall2_nil_inv_l in Hrecon as ->.
    repeat (apply elem_of_cons in Hdim as [->|Hdim]; [by simpl|]).
    by apply not_elem_of_nil in Hdim. }
  change (target m dim key = quota rec dim key).
  rewrite (Hq dim key Hdim), Hq0, Hocc by done. lia.
Qed.

(** ** The round trip *)

(** On feasible marginals that have the five dimensions the greedy loop
    assigns all events and the verifier accepts them, whatever the
    weights. *)
Lemma round_trip_any_weights (m : marginals) (N : Z) (w : weight_table) :
  jointly_feasible m N → 0 < N → (∀ d, d ∈ dimension_names → d ∈ m.*1) →
  active_dimensions m ≠ [] ∧ total_events_of m = Ok N ∧
  ∃ st recon,
    run_integer_assignment (combinations_of (active_dimensions m))
                           (active_dimensions m).*1 m w N = Ok st ∧
    Z.of_nat (length (events st)) = N ∧
    consistent_population m (events st) ∧
    reconstruct_marginals_from_events (events st) = Ok recon ∧
    compare_marginals m recon = true.
Proof.
  intros (Hnd & Hnn & Hsum) HN Hdims.
  assert (∀ d tot, (d, tot) ∈ m → tot ≠ ∅) as Hactive.
  { intros d tot Hin ->. specialize (Hsum d ∅ Hin).
    rewrite dict_sum_empty in Hsum. lia. }
  assert (∀ d, d ∈ m.*1 → d ∈ (active_dimensions m).*1) as Hall.
  { intros d ([d' tot] & -> & Hin)%list_elem_of_fmap.
    apply list_elem_of_fmap. exists (d', sorted_keys tot). split; [done|].
    apply elem_of_active_dimensions. exists tot. eauto. }
  assert (active_dimensions m ≠ []) as Hne.
  { intros Hnil. specialize (Hall "pages" (Hdims "pages" ltac:(by left))).
    rewrite Hnil in Hall. by apply not_elem_of_nil in Hall. }
  split; [done|]. split.
  { apply total_events_of_common; [lia|done|]. intros d tot Hin _. eauto. }
  destruct (run_integer_assignment_exact m w N Hnd Hnn)
    as (st & Hst & _ & Hlen & Hevs & _ & Hocc); [lia| |].
  { intros d tot Hin _. eauto. }
  destruct (verifier_accepts m (events st)) as (recon & Hrecon & Hmatch).
  { intros ev k Hev Hk. apply (combination_total m); [done|by apply Hevs|].
    by apply Hall, Hdims. }
  { intros d v _. apply Hocc. }
  exists st, recon. repeat (split; [done|]). split; [|done].
  intros d v _. apply Hocc.
Qed.

(** C1 (as the code has it).  For marginals that have the five dimensions
    pages, browsers, countries, devices and referrers, with non-negative
    counts that sum in every dimension to the same total N > 0, the solver
    returns N events whose recount in every dimension is the marginal of
    that dimension, and the round-trip verifier reports an overall match;
    the same holds when the greedy assignment is run with any other
    weights. *)
Theorem round_trip (m : marginals) (N : Z) :
  jointly_feasible m N → 0 < N → (∀ d, d ∈ dimension_names → d ∈ m.*1) →
  (∃ evs combos recon,
     solve_exact_distribution m = Ok (evs, combos) ∧
     Z.of_nat (length evs) = N ∧
     consistent_population m evs ∧
     reconstruct_marginals_from_events evs = Ok recon ∧
     compare_marginals m recon = true) ∧
  (∀ w, ∃ st recon,
     run_integer_assignment (combinations_of (active_dimensions m))
                            (active_dimensions m).*1 m w N = Ok st ∧
     Z.of_nat (length (events st)) = N ∧
     consistent_population m (events st) ∧
     reconstruct_marginals_from_events (events st) = Ok recon ∧
     compare_marginals m recon = true).
Proof.
  intros Hfeasible HN Hdims. split.
  - destruct (round_trip_any_weights m N [] Hfeasible HN Hdims)
      as (Hne & Htotal & _).
    destruct (solve_exact_distribution_run m N Hne Htotal) as [w Hsolve];
      [lia|].
    destruct (round_trip_any_weights m N w Hfeasible HN Hdims)
      as (_ & _ & st & recon & Hst & Hrest).
    rewrite Hst in Hsolve. simpl in Hsolve.
    by exists (events st), (combinations_of (active_dimensions m)), recon.
  - intros w. by destruct (round_trip_any_weights m N w Hfeasible HN Hdims)
      as (_ & _ & H).
Qed.

Lemma five_dimension_feasible : jointly_feasible five_dimension_marginals 2.
Proof.
  split; [apply NoDup_check; reflexivity|].
  split; [apply nonneg_marginals_check; reflexivity|].
  apply common_sum_check. reflexivity.
Defined.

Lemma five_dimension_names (d : string) :
  d ∈ dimension_names → d ∈ five_dimension_marginals.*1.
Proof. intros H. exact H. Defined.

Lemma round_trip_witness :
  (∃ evs combos recon,
     solve_exact_distribution five_dimension_marginals = Ok (evs, combos) ∧
     Z.of_nat (length evs) = 2 ∧
     consistent_population five_dimension_marginals evs ∧
     reconstruct_marginals_from_events evs = Ok recon ∧
     compare_marginals five_dimension_marginals recon = true) ∧
  (∀ w, ∃ st recon,
     run_integer_assignment
       (combinations_of (active_dimensions five_dimension_marginals))
       (active_dimensions five_dimension_marginals).*1
       five_dimension_marginals w 2 = Ok st ∧
     Z.of_nat (length (events st)) = 2 ∧
     consistent_population five_dimension_marginals (events st) ∧
     reconstruct_marginals_from_events (events st) = Ok recon ∧
     compare_marginals five_dimension_marginals recon = true).
Proof.
  apply (round_trip five_dimension_marginals 2).
  - exact five_dimension_feasible.
  - lia.
  - exact five_dimension_names.
Defined.

(** C1 as stated fails on two feasible inputs: when the common total is
    zero and a dimension has a category value the estimation divides by
    zero, and on marginals that lack one of the five dimensions the
    verifier raises [KeyError]. *)
Lemma round_trip_counterexample :
  (jointly_feasible zero_marginals 0 ∧
   consistent_population zero_marginals [] ∧
   solve_exact_distribution zero_marginals = Raise ZeroDivisionError) ∧
  (jointly_feasible two_dimension_marginals 1 ∧
   ∃ evs combos,
     solve_exact_distribution two_dimension_marginals = Ok (evs, combos) ∧
     consistent_population two_dimension_marginals evs ∧
     reconstruct_marginals_from_events evs = Raise (KeyError "countries")).
Proof.
  split; [split; [|split]|split].
  - split; [apply NoDup_check; reflexivity|].
    split; [apply nonneg_marginals_check; reflexivity|].
    apply common_sum_check. reflexivity.
  - intros d v Hd. rewrite occurrences_nil. unfold target, get_default.
    destruct (decide (d = "pages")) as [->|Hne].
    + change (assoc "pages" zero_marginals) with (Some (<["/a" := 0]> ∅ : totals)).
      simpl. destruct (decide (v = "/a")) as [->|Hv].
      * by rewrite lookup_insert_eq.
      * by rewrite lookup_insert_ne, lookup_empty.
    + assert (default (∅ : totals) (assoc d zero_marginals) = ∅) as ->;
        [|by rewrite lookup_empty].
      unfold zero_marginals. simpl. rewrite decide_False by done.
      by repeat destruct (decide _).
  - vm_compute. reflexivity.
  - split; [apply NoDup_check; reflexivity|].
    split; [apply nonneg_marginals_check; reflexivity|].
    apply common_sum_check. reflexivity.
  - assert (solve_exact_distribution two_dimension_marginals
            = Ok ([dict_of_zip ["pages"; "browsers"] ["/a"; "Chrome"]],
                  combinations_of (active_dimensions two_dimension_marginals)))
      as Hsolve by (vm_compute; reflexivity).
    eexists _, _. split; [exact Hsolve|]. split; [|vm_compute; reflexivity].
    destruct (solve_exact_distribution_run two_dimension_marginals 1)
      as [w Hw]; [done|reflexivity|lia|].
    destruct (run_integer_assignment_exact two_dimension_marginals w 1)
      as (st & Hst & _ & _ & _ & _ & Hocc).
    { apply NoDup_check. reflexivity. }
    { apply nonneg_marginals_check. reflexivity. }
    { lia. }
    { intros d tot Hin _. revert d tot Hin. apply common_sum_check.
      reflexivity. }
    rewrite Hst in Hw. rewrite Hw in Hsolve.
    pose proof (f_equal (λ r : result (list event * list event),
                           match r with Ok p => p.1 | Raise _ => [] end)
                        Hsolve) as Hev.
    change (events st = [dict_of_zip ["pages"; "browsers"] ["/a"; "Chrome"]])
      in Hev.
    intros d v _. rewrite <- Hev. apply Hocc.
Qed.

(** ** The claims on the joint weight estimator *)

Local Open Scope Qc_scope.

(** C5.  In a constraint application (of [exact_ipf] and of [simple_ipf]
    alike) every combination that contains a value whose current
    aggregated weight is zero gets weight zero; and a combination whose
    weight is zero keeps weight zero through every later constraint
    application, sweep and run of sweeps.  Weights are exact rationals
    here. *)
Theorem zero_weight_absorbing :
  (∀ t dims d mt t' i v c p,
     apply_marginal_constraint_simple t dims d mt = Ok t' →
     list_index d dims = Ok i → aggregated_weight t i v = 0 →
     (c, p) ∈ t' → c !! i = Some v → p = 0) ∧
  (∀ t dims d mt t' i v c p,
     apply_marginal_constraint t dims d mt = Ok t' →
     list_index d dims = Ok i → aggregated_weight t i v = 0 →
     (c, p) ∈ t' → c !! i = Some v → p = 0) ∧
  (∀ t dims d mt t' c,
     apply_marginal_constraint_simple t dims d mt = Ok t' →
     assoc c t = Some 0 → assoc c t' = Some 0) ∧
  (∀ t dims d mt t' c,
     apply_marginal_constraint t dims d mt = Ok t' →
     assoc c t = Some 0 → assoc c t' = Some 0) ∧
  (∀ nm dims t t' c,
     sweep nm dims t = Ok t' → assoc c t = Some 0 → assoc c t' = Some 0) ∧
  (∀ rounds nm dims t t' n c,
     ipf_iterations rounds nm dims t = Ok (t', n) →
     assoc c t = Some 0 → assoc c t' = Some 0).
Proof.
  split; [|split; [|split; [|split; [|split]]]].
  - intros t dims d mt t' i v c p H Hi Hagg Hin Hv.
    apply apply_marginal_constraint_simple_spec in H as (i' & Hi' & HF).
    assert (i' = i) as -> by congruence.
    by eapply rescaled_pinned.
  - intros t dims d mt t' i v c p H Hi Hagg Hin Hv.
    apply apply_marginal_constraint_spec in H as [[Hd _]|(i' & Hi' & HF)].
    + exfalso. apply Hd. apply list_index_Ok in Hi.
      by eapply list_elem_of_lookup_2.
    + assert (i' = i) as -> by congruence. by eapply rescaled_pinned.
  - intros t dims d mt t' c H.
    apply apply_marginal_constraint_simple_spec in H as (i & _ & HF).
    by eapply rescaled_zero.
  - intros t dims d mt t' c H.
    apply apply_marginal_constraint_spec in H as [[_ ->]|(i & _ & HF)];
      [done|]. by eapply rescaled_zero.
  - intros nm dims t t' c. apply sweep_zero.
  - intros rounds nm dims t t' n c H.
    apply ipf_iterations_spec in H as (_ & H & _). by eapply iterate_sweep_zero.
Qed.

Lemma zero_weight_absorbing_witness :
  ∃ t', apply_marginal_constraint_simple
          example_table ["pages"; "browsers"] "browsers"
          example_browser_fractions = Ok t' ∧
        assoc ["/a"; "Safari"] t' = Some 0 ∧
        ∀ c p, (c, p) ∈ t' → c !! 1%nat = Some "Safari" → p = 0.
Proof.
  destruct (apply_marginal_constraint_simple_total
              example_table ["pages"; "browsers"] "browsers"
              example_browser_fractions) as (t' & Ht' & _).
  { right. by left. }
  { intros c p Hin. unfold example_table in Hin.
    repeat (apply elem_of_cons in Hin as [[= -> _]|Hin]; [reflexivity|]).
    by apply not_elem_of_nil in Hin. }
  exists t'. split; [exact Ht'|]. split.
  - apply (proj1 (proj2 (proj2 zero_weight_absorbing))
             example_table ["pages"; "browsers"] "browsers"
             example_browser_fractions t' ["/a"; "Safari"] Ht').
    reflexivity.
  - intros c p.
    apply (proj1 zero_weight_absorbing
             example_table ["pages"; "browsers"] "browsers"
             example_browser_fractions t' 1%nat "Safari" c p Ht').
    + reflexivity.
    + apply Qc_is_canon. reflexivity.
Defined.

Local Close Scope Qc_scope.

(** ** The visit structure *)

Section VisitLemmas.
Context {A : Type}.
Implicit Types (events rest : list A) (visits : list (list A)).

Lemma take_events_spec (n : nat) (events_copy visit : list A) :
  take_events n events_copy visit
  = (drop n events_copy, visit ++ take n events_copy).
Proof.
  revert events_copy visit.
  induction n as [|n IH]; intros events_copy visit; simpl.
  - by rewrite drop_0, app_nil_r.
  - destruct events_copy as [|e rest]; rewrite IH; simpl.
    + by rewrite drop_nil, take_nil.
    + by rewrite <- app_assoc.
Qed.

Lemma bounce_loop_spec (n : nat) (events_copy : list A) visits :
  bounce_loop n events_copy visits
  = (drop n events_copy, visits ++ ((λ e, [e]) <$> take n events_copy)).
Proof.
  revert events_copy visits.
  induction n as [|n IH]; intros events_copy visits; simpl.
  - by rewrite drop_0, app_nil_r.
  - destruct events_copy as [|e rest]; rewrite IH; simpl.
    + by rewrite drop_nil, take_nil.
    + by rewrite <- app_assoc.
Qed.

Lemma multi_loop_spec (indices : list Z) (q r : Z) (events_copy : list A)
    visits :
  let sizes := (λ i, Z.to_nat (q + if i <? r then 1 else 0)) <$> indices in
  multi_loop indices q r events_copy visits
  = (drop (sum_list sizes) events_copy,
     visits ++ filter (λ v, negb (is_empty v)) (reshape sizes events_copy)).
Proof.
  revert events_copy visits.
  induction indices as [|i indices IH]; intros events_copy visits; simpl.
  - by rewrite drop_0, app_nil_r.
  - rewrite take_events_spec. simpl. rewrite IH. f_equal.
    + by rewrite drop_drop.
    + rewrite filter_cons.
      destruct (take _ events_copy) as [|e visit] eqn:E; simpl; [done|].
      by rewrite <- app_assoc.
Qed.

Lemma mjoin_filter_nonempty visits :
  mjoin (filter (λ v, negb (is_empty v)) visits) = mjoin visits.
Proof.
  induction visits as [|v visits IH]; [done|].
  rewrite filter_cons. destruct v as [|e v]; simpl; [done|].
  by rewrite IH.
Qed.

Lemma mjoin_singletons events : mjoin ((λ e, [e]) <$> events) = events.
Proof. induction events as [|e events IH]; simpl; [done|]. by f_equal. Qed.

End VisitLemmas.

(** The sizes add up to the number of events that are split. *)
Lemma visit_sizes_sum (len n : Z) :
  0 < n → 0 ≤ len → sum_list (visit_sizes len n) = Z.to_nat len.
Proof.
  intros Hn Hlen. unfold visit_sizes.
  pose proof (Z.div_mod len n ltac:(lia)) as Hdm.
  pose proof (Z.mod_pos_bound len n Hn) as Hr.
  assert (0 ≤ len `div` n) as Hq by (apply Z.div_pos; lia).
  set (q := len `div` n) in *. set (r := len `mod` n) in *.
  replace n with (r + (n - r)) at 1 by lia.
  rewrite seqZ_app, fmap_app, sum_list_with_app by lia.
  rewrite (sum_list_fmap_same (Z.to_nat (q + 1))),
          (sum_list_fmap_same (Z.to_nat q)).
  - rewrite !length_seqZ. apply Nat2Z.inj.
    rewrite Nat2Z.inj_add, !Nat2Z.inj_mul, !Z2Nat.id by lia. nia.
  - apply Forall_forall. intros i Hi%elem_of_seqZ.
    destruct (i <? r) eqn:E; [apply Z.ltb_lt in E; lia|]. f_equal. lia.
  - apply Forall_forall. intros i Hi%elem_of_seqZ.
    destruct (i <? r) eqn:E; [done|]. apply Z.ltb_ge in E. lia.
Qed.


(** [build_visits] in closed form: the first [bounced] events one by one,
    then the remaining events cut into the visit sizes, empty pieces
    dropped. *)
Lemma build_visits_spec {A} (events : list A) (V : Z) (b : Qc) :
  let bounced := bounced_visits_of V b in
  let singles := (λ e, [e]) <$> take (Z.to_nat bounced) events in
  let rest := drop (Z.to_nat bounced) events in
  build_visits events V b =
    if (0 <? V - bounced) && negb (is_empty rest)
    then singles ++ filter (λ v, negb (is_empty v))
                      (reshape (visit_sizes (Z.of_nat (length rest))
                                            (V - bounced)) rest)
    else singles.
Proof.
  intros bounced singles rest. unfold build_visits.
  fold bounced. rewrite bounce_loop_spec. fold rest. simpl. fold singles.
  destruct ((0 <? V - bounced) && negb (is_empty rest)); [|done].
  by rewrite multi_loop_spec.
Qed.

(** The events of the visits, in order: all of them when some visit is
    meant to have several pages, else the first [bounced] ones. *)
Lemma mjoin_build_visits {A} (events : list A) (V : Z) (b : Qc) :
  let bounced := bounced_visits_of V b in
  mjoin (build_visits events V b) =
    if 0 <? V - bounced then events else take (Z.to_nat bounced) events.
Proof.
  intros bounced. rewrite build_visits_spec. fold bounced.
  destruct (0 <? V - bounced) eqn:Hmulti; simpl.
  - apply Z.ltb_lt in Hmulti.
    destruct (is_empty (drop (Z.to_nat bounced) events)) eqn:Hrest; simpl.
    + rewrite mjoin_singletons.
      rewrite <- (take_drop (Z.to_nat bounced) events) at 2.
      destruct (drop _ events); [|done]. by rewrite app_nil_r.
    + rewrite join_app, mjoin_singletons, mjoin_filter_nonempty.
      rewrite join_reshape; [apply take_drop|].
      rewrite visit_sizes_sum by lia. apply Nat2Z.id.
  - apply mjoin_singletons.
Qed.

(** ** Rounding the number of bounces *)

Local Open Scope Qc_scope.

Lemma Qfloor_Qc_of_Z (z : Z) : Qfloor (Qc_of_Z z) = z.
Proof. apply Qfloor_Z. Qed.

Lemma py_round_between (lo hi : Z) (x : Qc) :
  Qc_of_Z lo ≤ x → x ≤ Qc_of_Z hi → (lo ≤ py_round x ≤ hi)%Z.
Proof.
  intros Hlo Hhi. unfold py_round.
  assert (lo ≤ Qfloor x)%Z as Hf1.
  { rewrite <- (Qfloor_Qc_of_Z lo). by apply Qfloor_resp_le. }
  assert (Qfloor x ≤ hi)%Z as Hf2.
  { rewrite <- (Qfloor_Qc_of_Z hi). by apply Qfloor_resp_le. }
  destruct (decide (Qfloor x = hi)) as [Heq|Hne].
  - assert (lo ≤ hi)%Z as Hlh by lia.
    assert (x = Qc_of_Z hi) as ->.
    { apply Qcle_antisym; [done|]. rewrite <- Heq. apply Qfloor_le. }
    rewrite Qfloor_Qc_of_Z.
    replace (Qc_of_Z hi - Qc_of_Z hi) with (Q2Qc 0) by ring.
    assert (Qccompare (Q2Qc 0) (Q2Qc (1 # 2)) = Lt) as -> by reflexivity.
    lia.
  - destruct (Qccompare _ _); [destruct (Z.even _)| |]; lia.
Qed.

Lemma Qc_of_Z_nonneg (z : Z) : (0 ≤ z)%Z → 0 ≤ Qc_of_Z z.
Proof. intros H. apply Z2Qc_inj_le in H. by rewrite Z2Qc_inj_0 in H. Qed.

(** With a bounce rate between 0 and 1 the number of bounced visits lies
    between 0 and the number of visits. *)
Lemma bounced_visits_bounds (V : Z) (b : Qc) :
  0 ≤ b → b ≤ 1 →
  (Z.min 0 V ≤ bounced_visits_of V b ≤ Z.max 0 V)%Z.
Proof.
  intros Hb0 Hb1. unfold bounced_visits_of.
  assert (Qc_of_Z V * b - Qc_of_Z V = - Qc_of_Z V * (1 - b)) as Heq by ring.
  assert (0 ≤ 1 - b) as Hb1'.
  { apply Qcle_minus_iff in Hb1. exact Hb1. }
  destruct (decide (0 ≤ V)%Z) as [HV|HV].
  - rewrite Z.min_l, Z.max_r by lia. apply py_round_between.
    + rewrite Z2Qc_inj_0. replace (Q2Qc 0) with (0 * b) by ring.
      apply Qcmult_le_compat_r; [|done]. by apply Qc_of_Z_nonneg.
    + rewrite <- (Qcmult_1_l (Qc_of_Z V)) at 2. rewrite (Qcmult_comm _ b).
      apply Qcmult_le_compat_r; [done|]. by apply Qc_of_Z_nonneg.
  - rewrite Z.min_r, Z.max_l by lia.
    assert (0 ≤ - Qc_of_Z V) as HV'.
    { rewrite <- Z2Qc_inj_opp. apply Qc_of_Z_nonneg. lia. }
    apply py_round_between.
    + apply Qcle_minus_iff.
      replace (Qc_of_Z V * b + - Qc_of_Z V) with (- Qc_of_Z V * (1 - b))
        by ring.
      replace (Q2Qc 0) with (0 * (1 - b)) by ring.
      by apply Qcmult_le_compat_r.
    + rewrite Z2Qc_inj_0. apply Qcle_minus_iff.
      replace (0 + - (Qc_of_Z V * b)) with (- Qc_of_Z V * b) by ring.
      replace (Q2Qc 0) with (0 * b) by ring.
      by apply Qcmult_le_compat_r.
Qed.

Local Close Scope Qc_scope.
(** ** [round] is rounding to the nearest integer, ties to even *)

Local Open Scope Qc_scope.



Local Close Scope Qc_scope.

(** ** The enhanced events *)

Lemma enhance_event_spec (uuid4 : nat → string) (wid sid vid : string)
    (off dur : Qc) (len : nat) (acc acc' : list session_event) (n n' : nat)
    (idx : nat) (ev : event) :
  enhance_event uuid4 wid sid vid off dur len (acc, n) (idx, ev)
    = Ok (acc', n') →
  ∃ se, acc' = acc ++ [se] ∧ describes se ev.
Proof.
  unfold enhance_event. intros H.
  apply bind_Ok in H as (br & Hbr & H). apply bind_Ok in H as (dv & Hdv & H).
  apply bind_Ok in H as (co & Hco & H). apply bind_Ok in H as (pa & Hpa & H).
  apply bind_Ok in H as (re & Hre & H).
  apply getitem_Ok in Hbr, Hdv, Hco, Hpa, Hre. injection H as <- _.
  eexists. split; [done|]. unfold describes. simpl.
  repeat (split; [done|]). by exists re.
Qed.

Lemma enhance_events_spec (uuid4 : nat → string) (wid sid vid : string)
    (off dur : Qc) (len : nat) (visit : list event) (indices : list nat)
    (acc acc' : list session_event) (n n' : nat) :
  length indices = length visit →
  foldM (enhance_event uuid4 wid sid vid off dur len) (acc, n)
        (zip indices visit) = Ok (acc', n') →
  ∃ new, acc' = acc ++ new ∧ Forall2 describes new visit.
Proof.
  revert indices acc n.
  induction visit as [|ev visit IH]; intros indices acc n Hlen H.
  - destruct indices; [|done]. simpl in H. injection H as <- _.
    exists []. by rewrite app_nil_r.
  - destruct indices as [|idx indices]; [done|]. simpl in H.
    apply bind_Ok in H as ([acc1 n1] & Hstep & H).
    apply enhance_event_spec in Hstep as (se & -> & Hse).
    apply IH in H as (new & -> & Hnew); [|by injection Hlen].
    exists (se :: new). split; [by rewrite <- app_assoc|]. by constructor.
Qed.

Lemma enhance_visits_spec (uuid4 : nat → string) (wid : string)
    (n_visits n_events : nat) (D : Qc) (visits : list (list event))
    (indices : list nat) (acc acc' : list session_event) (n n' : nat) :
  length indices = length visits →
  foldM (enhance_visit uuid4 wid n_visits n_events D) (acc, n)
        (zip indices visits) = Ok (acc', n') →
  ∃ new, acc' = acc ++ new ∧ Forall2 describes new (mjoin visits).
Proof.
  revert indices acc n.
  induction visits as [|visit visits IH]; intros indices acc n Hlen H.
  - destruct indices; [|done]. simpl in H. injection H as <- _.
    exists []. by rewrite app_nil_r.
  - destruct indices as [|idx indices]; [done|]. simpl in H.
    apply bind_Ok in H as ([acc1 n1] & Hstep & H).
    unfold enhance_visit in Hstep.
    apply enhance_events_spec in Hstep as (new1 & -> & Hnew1);
      [|unfold enumerate; by rewrite length_seq].
    apply IH in H as (new & -> & Hnew); [|by injection Hlen].
    exists (new1 ++ new). split; [by rewrite <- app_assoc|].
    simpl. by apply Forall2_app.
Qed.

Lemma create_session_visits_spec (uuid4 : nat → string) (events : list event)
    (V : Z) (b D : Qc) (out : list session_event) :
  create_session_visits uuid4 events V b D = Ok out →
  Forall2 describes out (mjoin (build_visits events V b)).
Proof.
  unfold create_session_visits. destruct events as [|ev events]; simpl.
  - intros [= <-]. unfold build_visits. rewrite bounce_loop_spec. simpl.
    rewrite take_nil, drop_nil. simpl. rewrite andb_false_r. constructor.
  - intros H. apply bind_Ok in H as ([acc n] & H & [= <-]).
    apply enhance_visits_spec in H as (new & -> & Hnew);
      [done|unfold enumerate; by rewrite length_seq].
Qed.

(** ** The claims on the session composer *)




(** * Further properties *)

(** ** Errors of the monad *)

Lemma bind_Raise {A B} (r : result A) (f : A → result B) (e : exn) :
  r ≫= f = Raise e ↔ r = Raise e ∨ ∃ a, r = Ok a ∧ f a = Raise e.
Proof.
  destruct r as [a|e']; simpl; split.
  - intros H. right. by exists a.
  - intros [H|(a' & [= <-] & H)]; [discriminate|done].
  - intros [= ->]. by left.
  - intros [[= ->]|(a' & H & _)]; [done|discriminate].
Qed.

Lemma foldM_Raise {A S} (f : S → A → result S) (l : list A) (s : S) (e : exn) :
  foldM f s l = Raise e → ∃ s' x, x ∈ l ∧ f s' x = Raise e.
Proof.
  revert s. induction l as [|x l IH]; intros s H; [discriminate|].
  simpl in H. apply bind_Raise in H as [H|(s' & _ & H)].
  - exists s, x. split; [by left|done].
  - destruct (IH _ H) as (s'' & y & Hy & Hf). exists s'', y.
    split; [by right|done].
Qed.

Lemma is_Ok_or_Raise {A} (r : result A) : is_Ok r ∨ ∃ e, r = Raise e.
Proof. destruct r as [a|e]; [left; by exists a|right; by exists e]. Qed.

(** ** The accumulation loop of the extractor *)

Lemma sum_over_cons {A} (f : A → Z) (x : A) (l : list A) :
  sum_over f (x :: l) = f x + sum_over f l.
Proof. done. Qed.

Lemma tally_fold (py_int : string → option Z) (label count : string)
    (rows : list row) (m0 m : totals) :
  foldM (λ (m : totals) r,
           k ← getitem r label;
           c ← getitem r count;
           Ok (<[k := get_default m k 0 + safe_int py_int c]> m)) m0 rows
    = Ok m →
  (∀ k, get_default m k 0
        = get_default m0 k 0 + label_total py_int label count rows k) ∧
  (∀ k, is_Some (m !! k) ↔
        is_Some (m0 !! k) ∨ ∃ r, r ∈ rows ∧ r !! label = Some k) ∧
  has_columns label count rows.
Proof.
  revert m0. induction rows as [|r rows IH]; intros m0 H.
  - injection H as <-. split; [|split].
    + intros k. unfold label_total. simpl. lia.
    + intros k. split; [by left|]. intros [H|(r & Hr & _)]; [done|].
      by apply not_elem_of_nil in Hr.
    + intros r Hr. by apply not_elem_of_nil in Hr.
  - simpl in H. apply bind_Ok in H as (m1 & Hstep & H).
    apply bind_Ok in Hstep as (k0 & Hk0 & Hstep).
    apply bind_Ok in Hstep as (c & Hc & [= <-]).
    apply getitem_Ok in Hk0, Hc.
    destruct (IH _ H) as (Hval & Hkey & Hcols). split; [|split].
    + intros k. rewrite Hval. unfold label_total. rewrite sum_over_cons.
      rewrite Hk0, Hc. simpl. unfold get_default.
      destruct (decide (k = k0)) as [->|Hne].
      * rewrite lookup_insert_eq. simpl.
        rewrite decide_True by done. lia.
      * rewrite lookup_insert_ne by done.
        rewrite decide_False by congruence. lia.
    + intros k. rewrite Hkey. destruct (decide (k = k0)) as [->|Hne].
      * rewrite lookup_insert_eq. split.
        -- intros _. right. exists r. split; [by left|done].
        -- intros _. left. by eexists.
      * rewrite lookup_insert_ne by done. split.
        -- intros [Hm|(r' & Hr' & Hl)]; [by left|].
           right. exists r'. split; [by right|done].
        -- intros [Hm|(r' & Hr' & Hl)]; [by left|].
           apply elem_of_cons in Hr' as [->|Hr']; [congruence|].
           right. by exists r'.
    + intros r' Hr'. apply elem_of_cons in Hr' as [->|Hr']; [|by apply Hcols].
      split; by eexists.
Qed.

Lemma tally_total (py_int : string → option Z) (label count : string)
    (rows : list row) :
  has_columns label count rows → ∃ m, tally py_int label count rows = Ok m.
Proof.
  intros Hcols. unfold tally.
  match goal with
  | |- ∃ _, foldM ?f ?s ?l = _ =>
      destruct (foldM_total (λ _, True) f l s) as (m & Hm & _)
  end; [|done|by exists m].
  intros m r Hr _. destruct (Hcols r Hr) as [[k Hk] [c Hc]].
  unfold getitem. rewrite Hk, Hc. simpl. by eexists.
Qed.

Lemma tally_Raise (py_int : string → option Z) (label count : string)
    (rows : list row) (e : exn) :
  tally py_int label count rows = Raise e →
  e = KeyError label ∨ e = KeyError count.
Proof.
  intros H. apply foldM_Raise in H as (m & r & _ & H).
  unfold getitem in H. destruct (r !! label); simpl in H.
  - destruct (r !! count); simpl in H; [discriminate|].
    injection H as <-. by right.
  - injection H as <-. by left.
Qed.

Lemma total_pageviews_of_Ok (py_int : string → option Z) (hourly_data : hourly) :
  is_Ok (total_pageviews_of py_int hourly_data) ↔
  ∀ r, r ∈ rows_of hourly_data "site" → is_Some (r !! "Pageviews").
Proof.
  unfold total_pageviews_of. generalize (rows_of hourly_data "site") 0.
  intros rows. induction rows as [|r rows IH]; intros acc.
  - split; [|intros _; by eexists]. intros _ r Hr.
    by apply not_elem_of_nil in Hr.
  - simpl. split.
    + intros [T H]. apply bind_Ok in H as (acc' & Hstep & H).
      apply bind_Ok in Hstep as (v & Hv%getitem_Ok & _).
      intros r' Hr'. apply elem_of_cons in Hr' as [->|Hr']; [by eexists|].
      apply (proj1 (IH acc')); [by exists T|done].
    + intros Hall. destruct (Hall r) as [v Hv]; [by left|].
      apply getitem_Ok in Hv. rewrite Hv. simpl. apply IH.
      intros r' Hr'. apply Hall. by right.
Qed.

Lemma total_pageviews_of_Raise (py_int : string → option Z)
    (hourly_data : hourly) (e : exn) :
  total_pageviews_of py_int hourly_data = Raise e → e = KeyError "Pageviews".
Proof.
  intros H. apply foldM_Raise in H as (acc & r & _ & H).
  unfold getitem in H. destruct (r !! "Pageviews"); simpl in H;
    [discriminate|]. by injection H as <-.
Qed.

(** ** Sums of totals *)

Lemma dict_sum_insert_fresh (tot : totals) (k : string) (v : Z) :
  tot !! k = None → dict_sum (<[k := v]> tot) = v + dict_sum tot.
Proof.
  intros Hk. unfold dict_sum. rewrite map_fold_insert_L; [done| |done].
  intros. lia.
Qed.

Lemma dict_sum_lookup (tot : totals) (k : string) (c : Z) :
  tot !! k = Some c → dict_sum tot = c + dict_sum (delete k tot).
Proof.
  intros Hk. rewrite <- (insert_delete_id tot k c Hk) at 1.
  apply dict_sum_insert_fresh. apply lookup_delete_eq.
Qed.

Lemma dict_sum_insert (tot : totals) (k : string) (v : Z) :
  dict_sum (<[k := v]> tot) = v + dict_sum tot - get_default tot k 0.
Proof.
  unfold get_default. destruct (tot !! k) as [c|] eqn:Hk; simpl.
  - rewrite (dict_sum_lookup tot k c Hk).
    rewrite <- insert_delete_eq. rewrite dict_sum_insert_fresh; [lia|].
    apply lookup_delete_eq.
  - rewrite dict_sum_insert_fresh by done. lia.
Qed.

(** ** The marginal extractor as a whole *)

(** X1.  The accumulation loop of the extractor succeeds exactly when
    every row has the label column and the count column.  The totals it
    returns have one key per label that occurs in a row, and the value of
    a label is the sum, over the rows with that label, of the count cell
    as [safe_int] reads it (0 for a blank or unreadable cell); a missing
    column raises [KeyError] for that column and nothing else is ever
    raised. *)
Theorem tally_totals (py_int : string → option Z) (label count : string)
    (rows : list row) :
  (is_Ok (tally py_int label count rows) ↔ has_columns label count rows) ∧
  (∀ m, tally py_int label count rows = Ok m →
     (∀ k, get_default m k 0 = label_total py_int label count rows k) ∧
     (∀ k, is_Some (m !! k) ↔ ∃ r, r ∈ rows ∧ r !! label = Some k)) ∧
  (∀ e, tally py_int label count rows = Raise e →
     e = KeyError label ∨ e = KeyError count).
Proof.
  split; [|split].
  - split.
    + intros [m H]. by apply tally_fold in H as (_ & _ & H).
    + intros H. destruct (tally_total py_int label count rows H) as [m Hm].
      by exists m.
  - intros m H. apply tally_fold in H as (Hval & Hkey & _). split.
    + intros k. rewrite Hval. unfold get_default.
      rewrite lookup_empty. simpl. lia.
    + intros k. rewrite Hkey. rewrite lookup_empty. split.
      * intros [[? [=]]|H]; done.
      * intros H. by right.
  - intros e. apply tally_Raise.
Qed.

Lemma tally_totals_witness :
  let rows := [example_referrer_a; example_referrer_b; example_referrer_a] in
  get_default (<["a.org" := 4]> (<["b.org" := 1]> ∅)) "a.org" 0
  = label_total decimal "Referrer Hostname" "Views" rows "a.org".
Proof.
  intros rows.
  apply (proj1 (proj2 (tally_totals decimal "Referrer Hostname" "Views" rows))).
  vm_compute. reflexivity.
Defined.

Lemma get_marginal_totals_names (py_int : string → option Z)
    (hourly_data : hourly) (m : marginals) :
  get_marginal_totals py_int hourly_data = Ok m → m.*1 = dimension_names.
Proof.
  unfold get_marginal_totals. intros H.
  apply bind_Ok in H as (total & _ & H).
  apply bind_Ok in H as (pages & _ & H).
  apply bind_Ok in H as (browsers & _ & H).
  apply bind_Ok in H as (countries & _ & H).
  apply bind_Ok in H as (devices & _ & H).
  by apply bind_Ok in H as (referrers & _ & [= <-]).
Qed.

(** X2.  The extractor succeeds exactly when every row of the six tables
    it reads has the columns it reads there; a table that is missing
    from the hour counts as empty.  When it succeeds it returns the five
    dimensions ["pages"], ["browsers"], ["countries"], ["devices"],
    ["referrers"], in this order, whatever the data; when it fails it
    raises [KeyError], never [ValueError]: an unreadable count is read
    as 0. *)
Theorem extractor_shape (py_int : string → option Z) (hourly_data : hourly) :
  (is_Ok (get_marginal_totals py_int hourly_data) ↔
     (∀ r, r ∈ rows_of hourly_data "site" → is_Some (r !! "Pageviews")) ∧
     has_columns "Pathname" "Views" (rows_of hourly_data "pages") ∧
     has_columns "Browser" "Pageviews" (rows_of hourly_data "browsers") ∧
     has_columns "Country" "Pageviews" (rows_of hourly_data "countries") ∧
     has_columns "Device Type" "Pageviews" (rows_of hourly_data "devices") ∧
     has_columns "Referrer Hostname" "Views"
                 (rows_of hourly_data "referrers")) ∧
  (∀ m, get_marginal_totals py_int hourly_data = Ok m →
     m.*1 = dimension_names) ∧
  (∀ e, get_marginal_totals py_int hourly_data = Raise e →
     ∃ column, e = KeyError column).
Proof.
  unfold get_marginal_totals, explicit_referrers. split; [|split].
  - split.
    + intros [m H].
      apply bind_Ok in H as (total & Htotal & H).
      apply bind_Ok in H as (pages & Hpages & H).
      apply bind_Ok in H as (browsers & Hbrowsers & H).
      apply bind_Ok in H as (countries & Hcountries & H).
      apply bind_Ok in H as (devices & Hdevices & H).
      apply bind_Ok in H as (referrers & Href & _).
      apply tally_fold in Hpages as (_ & _ & Hpages).
      apply tally_fold in Hbrowsers as (_ & _ & Hbrowsers).
      apply tally_fold in Hcountries as (_ & _ & Hcountries).
      apply tally_fold in Hdevices as (_ & _ & Hdevices).
      apply tally_fold in Href as (_ & _ & Href).
      split; [|done]. apply (total_pageviews_of_Ok py_int). by exists total.
    + intros (Hsite & Hpages & Hbrowsers & Hcountries & Hdevices & Href).
      apply (total_pageviews_of_Ok py_int) in Hsite as [total ->].
      apply (tally_total py_int) in Hpages as [pages ->].
      apply (tally_total py_int) in Hbrowsers as [browsers ->].
      apply (tally_total py_int) in Hcountries as [countries ->].
      apply (tally_total py_int) in Hdevices as [devices ->].
      apply (tally_total py_int) in Href as [referrers ->].
      simpl. by eexists.
  - intros m H. exact (get_marginal_totals_names py_int hourly_data m H).
  - intros e H.
    apply bind_Raise in H as [H|(total & _ & H)];
      [apply total_pageviews_of_Raise in H; by eexists|].
    repeat (apply bind_Raise in H as [H|(? & _ & H)];
            [apply tally_Raise in H as [->| ->]; by eexists|]).
    discriminate.
Qed.

Lemma extractor_shape_witness :
  five_dimension_marginals.*1 = dimension_names.
Proof.
  apply (proj1 (proj2 (extractor_shape decimal example_full_hour))).
  vm_compute. reflexivity.
Defined.

(** X3.  The referrers marginal the extractor returns agrees with the
    explicit referrer counts on every host name other than ["(direct)"].
    When no row names ["(direct)"] as its host, the marginal sums to the
    larger of the site's pageviews and the explicit referrer total, so it
    never falls short of the pageviews.  When a row does name
    ["(direct)"], with count [c], and the explicit total is below the
    pageviews, that count is overwritten and the marginal sums to the
    pageviews less [c]. *)
Theorem referrers_total (py_int : string → option Z) (hourly_data : hourly)
    (m : marginals) :
  get_marginal_totals py_int hourly_data = Ok m →
  ∃ total_pageviews explicit referrers,
    total_pageviews_of py_int hourly_data = Ok total_pageviews ∧
    explicit_referrers py_int hourly_data = Ok explicit ∧
    assoc "referrers" m = Some referrers ∧
    (∀ host, host ≠ "(direct)" → referrers !! host = explicit !! host) ∧
    (explicit !! "(direct)" = None →
       dict_sum referrers = Z.max total_pageviews (dict_sum explicit)) ∧
    (∀ c, explicit !! "(direct)" = Some c →
       dict_sum explicit < total_pageviews →
       dict_sum referrers = total_pageviews - c).
Proof.
  intros H. unfold get_marginal_totals in H.
  apply bind_Ok in H as (total & Htotal & H).
  apply bind_Ok in H as (pages & _ & H).
  apply bind_Ok in H as (browsers & _ & H).
  apply bind_Ok in H as (countries & _ & H).
  apply bind_Ok in H as (devices & _ & H).
  apply bind_Ok in H as (explicit & Href & [= <-]).
  exists total, explicit, (add_direct total explicit).
  split; [done|]. split; [done|]. split; [done|].
  unfold add_direct. simpl.
  destruct (0 <? total - dict_sum explicit) eqn:E;
    [apply Z.ltb_lt in E|apply Z.ltb_ge in E].
  - split; [|split].
    + intros host Hne. by rewrite lookup_insert_ne.
    + intros Hnone. rewrite dict_sum_insert_fresh by done. lia.
    + intros c Hc _. rewrite dict_sum_insert. unfold get_default.
      rewrite Hc. simpl. lia.
  - split; [done|]. split; [|lia]. intros _. lia.
Qed.

Lemma referrers_total_witness :
  ∃ total_pageviews explicit referrers,
    total_pageviews_of decimal example_direct_hour = Ok total_pageviews ∧
    explicit_referrers decimal example_direct_hour = Ok explicit ∧
    assoc "referrers"
          [("pages", ∅); ("browsers", ∅); ("countries", ∅); ("devices", ∅);
           ("referrers", <["(direct)" := 2]> (<["a.org" := 2]> ∅))]
      = Some referrers ∧
    (∀ host, host ≠ "(direct)" → referrers !! host = explicit !! host) ∧
    (explicit !! "(direct)" = None →
       dict_sum referrers = Z.max total_pageviews (dict_sum explicit)) ∧
    (∀ c, explicit !! "(direct)" = Some c →
       dict_sum explicit < total_pageviews →
       dict_sum referrers = total_pageviews - c).
Proof.
  apply (referrers_total decimal example_direct_hour). vm_compute. reflexivity.
Defined.

(** ** What a constraint application does to the aggregates *)

Local Open Scope Qc_scope.

Lemma Qc_mul_nonneg (a b : Qc) : 0 ≤ a → 0 ≤ b → 0 ≤ a * b.
Proof.
  intros Ha Hb. replace (Q2Qc 0) with (0 * b) by ring.
  by apply Qcmult_le_compat_r.
Qed.

Lemma Qc_inv_nonneg (c : Qc) : 0 < c → 0 ≤ / c.
Proof.
  intros Hc. apply (Qcmult_lt_0_le_reg_r _ _ c Hc).
  rewrite Qcmult_inv_l by (by apply Qclt_not_eq in Hc).
  replace (0 * c) with (Q2Qc 0) by ring. done.
Qed.

Lemma Qc_div_nonneg (a c : Qc) : 0 ≤ a → 0 < c → 0 ≤ a / c.
Proof.
  intros Ha Hc. apply Qc_mul_nonneg; [done|by apply Qc_inv_nonneg].
Qed.

Lemma Qc_of_Z_pos (z : Z) : (0 < z)%Z → 0 < Qc_of_Z z.
Proof. intros H. apply Z2Qc_inj_lt in H. by rewrite Z2Qc_inj_0 in H. Qed.

Lemma aggregated_weight_cons (c : combo) (p : Qc) (t : weight_table)
    (i : nat) (v : string) :
  aggregated_weight ((c, p) :: t) i v
  = (if decide (c !! i = Some v) then p else 0) + aggregated_weight t i v.
Proof.
  unfold aggregated_weight. rewrite filter_cons. simpl.
  destruct (decide (c !! i = Some v)).
  - by rewrite fmap_cons, float_sum_cons.
  - by rewrite Qcplus_0_l.
Qed.

Lemma rescaled_aggregate (i : nat) (current target : string → Qc)
    (t t' : weight_table) (v : string) :
  Forall2 (rescaled i current target) t t' →
  aggregated_weight t' i v
  = (if Qc_ltb 0 (current v) then target v / current v else 0)
    * aggregated_weight t i v.
Proof.
  induction 1 as [|[c p] [c' p'] t t' (Hkey & v0 & Hv0 & Hp) _ IH].
  - unfold aggregated_weight, float_sum. simpl. ring.
  - simpl in Hkey, Hv0, Hp. subst c'. rewrite !aggregated_weight_cons, IH.
    destruct (decide (c !! i = Some v)) as [Hv|Hv]; [|ring].
    assert (v0 = v) as -> by congruence. rewrite Hp.
    destruct (Qc_ltb 0 (current v)); ring.
Qed.

Lemma rescaled_nonneg (i : nat) (current target : string → Qc)
    (t t' : weight_table) :
  Forall2 (rescaled i current target) t t' →
  (∀ v, 0 ≤ target v) → Forall (λ p, 0 ≤ p.2) t → Forall (λ p, 0 ≤ p.2) t'.
Proof.
  intros HF Htarget. induction HF as [|[c p] [c' p'] t t' (_ & v & _ & Hp) _ IH];
    intros Ht; [done|].
  apply Forall_cons in Ht as [Hp0 Ht]. constructor; [|by apply IH].
  simpl in *. rewrite Hp. destruct (Qc_ltb 0 (current v)) eqn:E; [|done].
  apply Qc_ltb_lt in E. apply Qc_mul_nonneg; [done|].
  by apply Qc_div_nonneg.
Qed.

Lemma fits_of_rescaled (i : nat) (target : string → Qc) (t t' : weight_table)
    (v : string) :
  Forall2 (rescaled i (aggregated_weight t i) target) t t' →
  aggregated_weight t' i v
  = if Qc_ltb 0 (aggregated_weight t i v) then target v else 0.
Proof.
  intros HF. rewrite (rescaled_aggregate _ _ _ _ _ v HF).
  destruct (Qc_ltb 0 (aggregated_weight t i v)) eqn:E; [|ring].
  apply Qc_ltb_lt, Qclt_not_eq in E. field. congruence.
Qed.

(** X4.  One constraint application, of [exact_ipf] and of [simple_ipf]
    alike, fits the table to the marginal it is given: afterwards the
    weights of the combinations that contain a category value add up to
    the target of that value, for every value that had a positive
    aggregated weight before, and to zero for every other value.  The
    combinations and their order stay as they were.  Weights are exact
    rationals here. *)
Theorem constraint_fits_marginal :
  (∀ t dims d mt t' i v,
     apply_marginal_constraint_simple t dims d mt = Ok t' →
     list_index d dims = Ok i →
     t'.*1 = t.*1 ∧
     aggregated_weight t' i v
     = if Qc_ltb 0 (aggregated_weight t i v) then get_default mt v 0 else 0) ∧
  (∀ t dims d mt t' i v,
     apply_marginal_constraint t dims d mt = Ok t' →
     list_index d dims = Ok i →
     t'.*1 = t.*1 ∧
     aggregated_weight t' i v
     = if Qc_ltb 0 (aggregated_weight t i v) then get_default mt v 0 else 0).
Proof.
  split.
  - intros t dims d mt t' i v H Hi.
    apply apply_marginal_constraint_simple_spec in H as (i' & Hi' & HF).
    assert (i' = i) as -> by congruence.
    split; [by eapply rescaled_keys|].
    apply (fits_of_rescaled i (λ v, get_default mt v 0)), HF.
  - intros t dims d mt t' i v H Hi.
    apply apply_marginal_constraint_spec in H as [[Hd _]|(i' & Hi' & HF)].
    + exfalso. apply Hd. apply list_index_Ok in Hi.
      by eapply list_elem_of_lookup_2.
    + assert (i' = i) as -> by congruence.
      split; [by eapply rescaled_keys|].
      apply (fits_of_rescaled i (λ v, get_default mt v 0)), HF.
Qed.

Lemma example_table_arity : table_arity 2 example_table.
Proof.
  intros c p Hin. unfold example_table in Hin.
  repeat (apply elem_of_cons in Hin as [[= -> _]|Hin]; [reflexivity|]).
  by apply not_elem_of_nil in Hin.
Qed.

Lemma constraint_fits_marginal_witness :
  ∃ t', apply_marginal_constraint_simple
          example_table ["pages"; "browsers"] "browsers"
          example_browser_fractions = Ok t' ∧
        t'.*1 = example_table.*1 ∧
        aggregated_weight t' 1 "Chrome"
        = if Qc_ltb 0 (aggregated_weight example_table 1 "Chrome")
          then get_default example_browser_fractions "Chrome" 0 else 0.
Proof.
  destruct (apply_marginal_constraint_simple_total
              example_table ["pages"; "browsers"] "browsers"
              example_browser_fractions) as (t' & Ht' & _).
  { right. by left. }
  { exact example_table_arity. }
  exists t'. split; [exact Ht'|].
  apply (proj1 constraint_fits_marginal
           example_table ["pages"; "browsers"] "browsers"
           example_browser_fractions t' 1%nat "Chrome" Ht').
  reflexivity.
Defined.

(** ** The table through a whole run *)

(** Every fraction of the normalised marginals is non-negative. *)
Lemma sweep_invariant (nm : list (string * gmap string Qc))
    (dims : list string) (t t' : weight_table) :
  (∀ d mt v, (d, mt) ∈ nm → 0 ≤ get_default mt v 0) →
  sweep nm dims t = Ok t' →
  t'.*1 = t.*1 ∧ (Forall (λ p, 0 ≤ p.2) t → Forall (λ p, 0 ≤ p.2) t').
Proof.
  intros Hnm H. unfold sweep in H.
  apply (foldM_invariant
           (λ t', t'.*1 = t.*1
                  ∧ (Forall (λ p, 0 ≤ p.2) t → Forall (λ p, 0 ≤ p.2) t'))
           _ _ _ _) in H; [done| |done].
  intros t1 d t2 _ [Hkeys Hpos] Hstep.
  destruct (assoc d nm) as [mt|] eqn:Hd; [|by injection Hstep as <-].
  apply assoc_Some_elem in Hd.
  apply apply_marginal_constraint_simple_spec in Hstep as (i & _ & HF).
  split; [by rewrite (rescaled_keys _ _ _ _ _ HF)|].
  intros Ht. eapply rescaled_nonneg; [exact HF| |by apply Hpos].
  intros v. by eapply Hnm.
Qed.

Lemma iterate_sweep_invariant (n : nat) (nm : list (string * gmap string Qc))
    (dims : list string) (t t' : weight_table) :
  (∀ d mt v, (d, mt) ∈ nm → 0 ≤ get_default mt v 0) →
  iterate_sweep n nm dims t = Ok t' →
  t'.*1 = t.*1 ∧ (Forall (λ p, 0 ≤ p.2) t → Forall (λ p, 0 ≤ p.2) t').
Proof.
  intros Hnm. revert t. induction n as [|n IH]; intros t H; simpl in H.
  - by injection H as <-.
  - apply bind_Ok in H as (t1 & Hsweep & H).
    destruct (sweep_invariant nm dims t t1 Hnm Hsweep) as [Hk1 Hp1].
    destruct (IH _ H) as [Hk2 Hp2]. split; [congruence|tauto].
Qed.

Lemma uniform_table_nonneg (dim_values : list (list string)) (t : weight_table) :
  uniform_table dim_values = Ok t → Forall (λ p, 0 ≤ p.2) t.
Proof.
  unfold uniform_table.
  set (tbl := map (λ c, (c, 1)) (product dim_values)).
  intros H. apply forM_Forall2 in H.
  assert (0 ≤ float_sum tbl.*2) as Hsum.
  { apply float_sum_nonneg. unfold tbl. generalize (product dim_values).
    intros l. induction l as [|x l IH]; simpl; constructor; done. }
  assert (Forall (λ p : combo * Qc, p.2 = 1) tbl) as Hones.
  { unfold tbl. generalize (product dim_values).
    intros l. induction l as [|x l IH]; simpl; constructor; done. }
  set (total := float_sum tbl.*2) in *. clearbody total. clearbody tbl.
  induction H as [|[k v] [k' v'] ? ? H _ IH]; [done|].
  apply Forall_cons in Hones as [Hv Hones]. simpl in Hv. subst v.
  constructor; [|by apply IH].
  apply bind_Ok in H as (q & Hq & [= _ <-]). unfold py_div in Hq.
  destruct (decide (total = 0)) as [|Hne]; [discriminate|].
  injection Hq as <-. simpl. apply Qc_div_nonneg; [done|].
  apply Qcle_lt_or_eq in Hsum as [Hlt|Heq]; [done|congruence].
Qed.

Lemma normalize_marginals_nonneg (N : Z) (m : marginals)
    (nm : list (string * gmap string Qc)) :
  nonneg_marginals m → (0 < N)%Z → normalize_marginals N m = Ok nm →
  ∀ d mt v, (d, mt) ∈ nm → 0 ≤ get_default mt v 0.
Proof.
  intros Hm HN H d mt v Hin. unfold normalize_marginals in H.
  apply forM_Forall2 in H.
  apply list_elem_of_lookup in Hin as [j Hj].
  destruct (Forall2_lookup_r _ _ _ _ _ H Hj) as ([d' tot] & Hj' & Hstep).
  apply list_elem_of_lookup_2, list_elem_of_filter in Hj' as [_ Hin].
  simpl in Hstep. apply bind_Ok in Hstep as (nt & Hnt & [= <- <-]).
  unfold normalize_totals in Hnt. case_bool_decide; [discriminate|].
  injection Hnt as <-. unfold get_default. rewrite lookup_fmap.
  destruct (tot !! v) as [c|] eqn:Hc; simpl; [|done].
  apply Qc_div_nonneg.
  - apply Qc_of_Z_nonneg. by eapply Hm.
  - by apply Qc_of_Z_pos.
Qed.

(** X5.  For marginals with non-negative counts and a positive largest
    total, the joint weight estimation returns a table that lists exactly
    the cross product of the sorted category values of the active
    dimensions, in the order of the product, each combination with a
    non-negative weight: the sweeps never add, drop or reorder a
    combination and never make a weight negative. *)
Theorem ipf_table_shape (m : marginals) (N : Z) :
  nonneg_marginals m → total_events_of m = Ok N → (0 < N)%Z →
  ∃ t, run_ipf_for_weights m = Ok (t, None, (active_dimensions m).*1) ∧
       t.*1 = product (active_dimensions m).*2 ∧
       Forall (λ p, 0 ≤ p.2) t.
Proof.
  intros Hm HN Hpos.
  assert (N ≠ 0%Z) as Hnz by lia.
  destruct (run_ipf_counting_total m N HN Hnz) as (t & n & Hrun & _).
  exists t. split; [unfold run_ipf_for_weights; by rewrite Hrun|].
  unfold run_ipf_counting in Hrun.
  apply bind_Ok in Hrun as (t0 & Ht0 & Hrun).
  apply bind_Ok in Hrun as (N' & HN' & Hrun).
  assert (N' = N) as -> by congruence.
  apply bind_Ok in Hrun as (nm & Hnm & Hrun).
  pose proof (uniform_table_nonneg _ _ Ht0) as Hpos0.
  destruct (uniform_table_total (active_dimensions m).*2) as (t0' & Ht0' & Hkeys).
  assert (t0' = t0) as -> by congruence.
  apply ipf_iterations_spec in Hrun as (_ & Hrun & _).
  apply iterate_sweep_invariant in Hrun as [Hk Hp];
    [|by eapply normalize_marginals_nonneg].
  split; [congruence|by apply Hp].
Qed.

Lemma ipf_table_shape_witness :
  ∃ t, run_ipf_for_weights scenario_marginals
         = Ok (t, None, (active_dimensions scenario_marginals).*1) ∧
       t.*1 = product (active_dimensions scenario_marginals).*2 ∧
       Forall (λ p, 0 ≤ p.2) t.
Proof.
  apply (ipf_table_shape scenario_marginals 5).
  - apply nonneg_marginals_check. vm_compute. reflexivity.
  - reflexivity.
  - reflexivity.
Defined.

(** ** Normalising a table *)

Lemma float_sum_div (c : Qc) (t : weight_table) :
  float_sum (map (λ '(key, v), (key, v / c)) t).*2 = float_sum t.*2 / c.
Proof.
  induction t as [|[k v] t IH].
  - unfold float_sum. simpl. unfold Qcdiv. ring.
  - rewrite map_cons, !fmap_cons, !float_sum_cons, IH. simpl.
    unfold Qcdiv. ring.
Qed.

Lemma map_div_keys (c : Qc) (t : weight_table) :
  (map (λ '(key, v), (key, v / c)) t).*1 = t.*1.
Proof. induction t as [|[k v] t IH]; simpl; [done|]. by f_equal. Qed.

Lemma map_div_one (t : weight_table) :
  map (λ '(key, v), (key, v / 1)) t = t.
Proof.
  induction t as [|[k v] t IH]; simpl; [done|]. rewrite IH. f_equal. f_equal.
  unfold Qcdiv. replace (/ 1) with 1 by (apply Qc_is_canon; reflexivity).
  ring.
Qed.

(** X6.  [normalize_table] keeps the combinations and their order.  A
    table whose weights sum to a positive number comes out with weights
    that sum to 1, each divided by the old sum; a table whose weights sum
    to zero or less is returned unchanged, so no division by zero can
    occur.  Normalising twice is the same as normalising once. *)
Theorem normalize_table_sum (t : weight_table) :
  (normalize_table t).*1 = t.*1 ∧
  (0 < float_sum t.*2 → float_sum (normalize_table t).*2 = 1) ∧
  (float_sum t.*2 ≤ 0 → normalize_table t = t) ∧
  normalize_table (normalize_table t) = normalize_table t.
Proof.
  assert (0 < float_sum t.*2 → float_sum (normalize_table t).*2 = 1) as Hone.
  { intros Hpos. unfold normalize_table.
    rewrite (proj2 (Qc_ltb_lt _ _) Hpos), float_sum_div.
    apply Qclt_not_eq in Hpos. field. congruence. }
  split; [|split; [done|split]].
  - unfold normalize_table. destruct (Qc_ltb 0 (float_sum t.*2)); [|done].
    apply map_div_keys.
  - intros Hle. unfold normalize_table.
    destruct (Qc_ltb 0 (float_sum t.*2)) eqn:E; [|done].
    apply Qc_ltb_lt in E. by apply Qcle_not_lt in Hle.
  - destruct (Qc_ltb 0 (float_sum t.*2)) eqn:E.
    + apply Qc_ltb_lt in E. specialize (Hone E).
      unfold normalize_table at 1. rewrite Hone.
      assert (Qc_ltb 0 1 = true) as -> by reflexivity. apply map_div_one.
    + unfold normalize_table. rewrite E. simpl. by rewrite E.
Qed.

Lemma normalize_table_sum_witness :
  float_sum (normalize_table example_table).*2 = 1.
Proof.
  apply (proj1 (proj2 (normalize_table_sum example_table))). reflexivity.
Defined.

Local Close Scope Qc_scope.

(** ** What the solver hands out *)

Lemma sum_over_le {A} (f g : A → Z) (l : list A) :
  (∀ x, x ∈ l → f x ≤ g x) → sum_over f l ≤ sum_over g l.
Proof.
  induction l as [|x l IH]; intros H; simpl; [done|].
  assert (f x ≤ g x) by (apply H; by left).
  assert (sum_over f l ≤ sum_over g l); [|lia].
  apply IH. intros y Hy. apply H. by right.
Qed.

Lemma dict_sum_nonneg (tot : totals) :
  (∀ v c, tot !! v = Some c → 0 ≤ c) → 0 ≤ dict_sum tot.
Proof.
  intros H. rewrite dict_sum_sum_over.
  etrans; [|apply (sum_over_le (λ _, 0))].
  - generalize (map_to_list tot).*1. intros l.
    induction l as [|x l IH]; simpl; lia.
  - intros k _. unfold get_default.
    destruct (tot !! k) as [c|] eqn:E; simpl; [by eapply H|done].
Qed.

Lemma foldl_max_ge (a : Z) (l : list Z) : a ≤ foldl Z.max a l.
Proof.
  revert a. induction l as [|x l IH]; intros a; simpl; [done|].
  etrans; [|apply IH]. lia.
Qed.

Lemma total_events_of_nonneg (m : marginals) (N : Z) :
  nonneg_marginals m → total_events_of m = Ok N → 0 ≤ N.
Proof.
  intros Hm. unfold total_events_of. destruct m as [|[d tot] m]; [done|].
  simpl. intros [= <-]. etrans; [|apply foldl_max_ge].
  apply dict_sum_nonneg. intros v c Hv. eapply (Hm d tot); [by left|done].
Qed.

Lemma active_dimension_elem (m : marginals) (d : string) (tot : totals) :
  (d, tot) ∈ m → tot ≠ ∅ → d ∈ (active_dimensions m).*1.
Proof.
  intros Hin Hne. apply list_elem_of_fmap. exists (d, sorted_keys tot).
  split; [done|]. apply elem_of_active_dimensions. eauto.
Qed.

(** X7.  Whatever the marginals (distinct dimension names, non-negative
    counts), the events the solver returns are taken from the
    combinations it returns, and each event has a value for exactly the
    active dimensions.  The number of events is at most the target total
    and at most the total of every non-empty dimension: when the totals
    of the dimensions differ, the solver returns fewer events than the
    target total, without an error. *)
Theorem solver_conservation (m : marginals) (evs combos : list event) :
  NoDup m.*1 → nonneg_marginals m →
  solve_exact_distribution m = Ok (evs, combos) →
  (∀ ev, ev ∈ evs → ev ∈ combos) ∧
  (∀ ev d, ev ∈ evs → is_Some (ev !! d) ↔ d ∈ (active_dimensions m).*1) ∧
  (∀ N, total_events_of m = Ok N → Z.of_nat (length evs) ≤ N) ∧
  (∀ d tot, (d, tot) ∈ m → tot ≠ ∅ → Z.of_nat (length evs) ≤ dict_sum tot) ∧
  (∀ N d tot, total_events_of m = Ok N → (d, tot) ∈ m → tot ≠ ∅ →
     dict_sum tot < N → Z.of_nat (length evs) < N).
Proof.
  intros Hnd Hm H.
  assert ((∀ ev, ev ∈ evs → ev ∈ combos) ∧
          (∀ ev d, ev ∈ evs →
             is_Some (ev !! d) ↔ d ∈ (active_dimensions m).*1) ∧
          (∀ N, total_events_of m = Ok N → Z.of_nat (length evs) ≤ N) ∧
          (∀ d tot, (d, tot) ∈ m → tot ≠ ∅ →
             Z.of_nat (length evs) ≤ dict_sum tot)) as (H1 & H2 & H3 & H4).
  2:{ repeat (split; [done|]). intros N d tot HN Hin Hne Hlt.
      specialize (H4 d tot Hin Hne). lia. }
  apply solve_exact_distribution_inv in H
    as [(Hnil & -> & ->)|(w & N & st & HN & -> & Hst & <-)].
  - split; [|split; [|split]].
    + intros ev Hev. by apply not_elem_of_nil in Hev.
    + intros ev d Hev. by apply not_elem_of_nil in Hev.
    + intros N HN. simpl. by eapply total_events_of_nonneg.
    + intros d tot Hin Hne. exfalso.
      pose proof (active_dimension_elem m d tot Hin Hne) as Hd.
      rewrite Hnil in Hd. by apply not_elem_of_nil in Hd.
  - destruct (run_integer_assignment_spec m w N Hnd Hm)
      as (st' & Hst' & Hnn & Hrem & Hcount & Hevs & Hquota & _).
    simpl in Hst'. rewrite Hst in Hst'. injection Hst' as <-.
    pose proof (total_events_of_nonneg m N Hm HN) as HN0.
    split; [done|]. split; [|split].
    + intros ev d Hev. apply Hevs in Hev. split.
      * intros [v Hv].
        destruct (combination_lookup m ev d v Hnd Hev Hv)
          as (tot & Htot & Hne & _).
        by eapply active_dimension_elem.
      * by apply combination_total.
    + intros N' HN'. assert (N' = N) as -> by congruence.
      specialize (Hrem HN0). lia.
    + intros d tot Hin Hne.
      pose proof (active_dimension_elem m d tot Hin Hne) as Hd.
      pose proof (elem_assoc_Some m d tot Hnd Hin) as Hassoc.
      rewrite <- (sum_over_occurrences d (map_to_list tot).*1 (events st)).
      * rewrite dict_sum_sum_over. apply sum_over_le. intros k _.
        specialize (Hquota d k). specialize (Hnn d k).
        unfold target in Hquota. rewrite Hassoc in Hquota. simpl in Hquota.
        lia.
      * apply NoDup_fst_map_to_list.
      * intros ev Hev. apply Hevs in Hev.
        destruct (combination_total m ev d Hnd Hev Hd) as [v Hv].
        exists v. split; [|done].
        destruct (combination_lookup m ev d v Hnd Hev Hv)
          as (tot' & Htot' & _ & Hkey).
        assert (tot' = tot) as ->.
        { apply (elem_assoc_Some m d tot' Hnd) in Htot'. congruence. }
        by apply elem_of_keys.
Qed.

Lemma solver_conservation_witness :
  Z.of_nat (length infeasible_events) < 3.
Proof.
  assert (NoDup infeasible_marginals.*1) as Hnd
    by (apply NoDup_check; reflexivity).
  assert (nonneg_marginals infeasible_marginals) as Hm
    by (apply nonneg_marginals_check; reflexivity).
  assert (solve_exact_distribution infeasible_marginals
          = Ok (infeasible_events,
                combinations_of (active_dimensions infeasible_marginals)))
    as Hsolve by (vm_compute; reflexivity).
  apply (proj2 (proj2 (proj2 (proj2
           (solver_conservation _ _ _ Hnd Hm Hsolve))))
           3 "browsers" (<["Chrome" := 1]> (<["Safari" := 1]> ∅))).
  - reflexivity.
  - right. by left.
  - discriminate.
  - reflexivity.
Defined.

(** ** The size of the cross product *)

Lemma length_product (ls : list (list string)) :
  length (product ls) = foldr (λ l n, (length l * n)%nat) 1%nat ls.
Proof.
  induction ls as [|l ls IH]; simpl; [done|]. rewrite <- IH.
  generalize (product ls). intros ps.
  induction l as [|x l IHl]; simpl; [done|].
  by rewrite length_app, length_map, IHl.
Qed.

Lemma length_sorted_keys {V} (d : gmap string V) :
  length (sorted_keys d) = size d.
Proof.
  rewrite (Permutation_length (sorted_keys_Permutation d)).
  by rewrite length_fmap, length_map_to_list.
Qed.

Lemma active_dimensions_cons (d : string) (tot : totals) (m : marginals) :
  active_dimensions ((d, tot) :: m)
  = if decide (tot = ∅) then active_dimensions m
    else (d, sorted_keys tot) :: active_dimensions m.
Proof. unfold active_dimensions. simpl. by destruct (decide (tot = ∅)). Qed.

Lemma sweep_keys (nm : list (string * gmap string Qc)) (dims : list string)
    (t t' : weight_table) :
  sweep nm dims t = Ok t' → t'.*1 = t.*1.
Proof.
  intros H. unfold sweep in H.
  apply (foldM_invariant (λ t', t'.*1 = t.*1) _ _ _ _) in H; [done| |done].
  intros t1 d t2 _ Hkeys Hstep.
  destruct (assoc d nm) as [mt|]; [|by injection Hstep as <-].
  apply apply_marginal_constraint_simple_spec in Hstep as (i & _ & HF).
  by rewrite (rescaled_keys _ _ _ _ _ HF).
Qed.

Lemma iterate_sweep_keys (n : nat) (nm : list (string * gmap string Qc))
    (dims : list string) (t t' : weight_table) :
  iterate_sweep n nm dims t = Ok t' → t'.*1 = t.*1.
Proof.
  revert t. induction n as [|n IH]; intros t H; simpl in H.
  - by injection H as <-.
  - apply bind_Ok in H as (t1 & Hsweep & H).
    rewrite (IH _ H). by eapply sweep_keys.
Qed.

Lemma joint_size_product (m : marginals) :
  length (product (active_dimensions m).*2) = joint_size m.
Proof.
  rewrite length_product.
  induction m as [|[d tot] m IH]; [done|].
  rewrite active_dimensions_cons. unfold joint_size. simpl.
  fold (joint_size m). destruct (decide (tot = ∅)); [done|].
  rewrite fmap_cons. simpl. by rewrite IH, length_sorted_keys.
Qed.

(** X8.  The solver and the weight estimation work on the full cross
    product.  The weight table the estimation returns has one row per
    combination of category values of the non-empty dimensions: as many
    rows as the product of the numbers of values (a single row, for the
    empty combination, when no dimension is non-empty).  The list of
    combinations the solver returns has that length when some dimension
    is non-empty, and is empty when none is. *)
Theorem combinations_count (m : marginals) :
  (∀ t o names, run_ipf_for_weights m = Ok (t, o, names) →
     length t = joint_size m) ∧
  (∀ evs combos, solve_exact_distribution m = Ok (evs, combos) →
     length combos = if decide (active_dimensions m = []) then 0%nat
                     else joint_size m).
Proof.
  split.
  - intros t o names H. unfold run_ipf_for_weights in H.
    apply bind_Ok in H as ([t' n] & Hrun & [= <- _ _]). simpl.
    unfold run_ipf_counting in Hrun.
    apply bind_Ok in Hrun as (t0 & Ht0 & Hrun).
    apply bind_Ok in Hrun as (N & _ & Hrun).
    apply bind_Ok in Hrun as (nm & _ & Hrun).
    destruct (uniform_table_total (active_dimensions m).*2)
      as (t0' & Ht0' & Hkeys).
    assert (t0' = t0) as -> by congruence.
    apply ipf_iterations_spec in Hrun as (_ & Hrun & _).
    apply iterate_sweep_keys in Hrun.
    by rewrite <- (length_fmap fst), Hrun, Hkeys, joint_size_product.
  - intros evs combos H. unfold solve_exact_distribution in H.
    destruct (decide (active_dimensions m = [])) as [Hnil|Hne].
    + by injection H as <- <-.
    + apply bind_Ok in H as (r & _ & H).
      apply bind_Ok in H as (N & _ & H).
      apply bind_Ok in H as (result_events & _ & [= _ <-]).
      unfold combinations_of. by rewrite length_map, joint_size_product.
Qed.

Lemma combinations_count_witness :
  solve_exact_distribution scenario_marginals
  = Ok (scenario_events,
        combinations_of (active_dimensions scenario_marginals)) ∧
  length (combinations_of (active_dimensions scenario_marginals))
  = (if decide (active_dimensions scenario_marginals = []) then 0%nat
     else joint_size scenario_marginals).
Proof.
  assert (solve_exact_distribution scenario_marginals
          = Ok (scenario_events,
                combinations_of (active_dimensions scenario_marginals)))
    as Hsolve by (vm_compute; reflexivity).
  split; [exact Hsolve|].
  exact (proj2 (combinations_count scenario_marginals) _ _ Hsolve).
Defined.

(** ** The order of the events *)

Local Open Scope Qc_scope.



Local Close Scope Qc_scope.









(** ** The round-trip verifier *)

Lemma forM_Raise {A B} (f : A → result B) (l : list A) (e : exn) :
  forM f l = Raise e → ∃ x, x ∈ l ∧ f x = Raise e.
Proof.
  induction l as [|x l IH]; intros H; [discriminate|]. simpl in H.
  apply bind_Raise in H as [H|(y & _ & H)].
  - exists x. split; [by left|done].
  - apply bind_Raise in H as [H|(ys & _ & H)]; [|discriminate].
    destruct (IH H) as (z & Hz & Hf). exists z. split; [by right|done].
Qed.

Lemma bump_Raise (k : string) (ev : event) (rec : gmap string totals) (e : exn) :
  bump k ev rec = Raise e → e = KeyError k.
Proof.
  unfold bump, getitem. destruct (ev !! k); simpl; [|by intros [= <-]].
  destruct (rec !! k); simpl; [discriminate|by intros [= <-]].
Qed.

Lemma reconstruct_loop_keys (evs : list event) (rec rec' : gmap string totals) :
  foldM (λ reconstructed ev,
           r1 ← bump "pages" ev reconstructed;
           r2 ← bump "browsers" ev r1;
           r3 ← bump "countries" ev r2;
           r4 ← bump "devices" ev r3;
           bump "referrers" ev r4) rec evs = Ok rec' →
  (∀ ev k, ev ∈ evs → k ∈ dimension_names → is_Some (ev !! k)) ∧
  (∀ k, is_Some (rec' !! k) ↔ is_Some (rec !! k)).
Proof.
  revert rec. induction evs as [|ev evs IH]; intros rec H; simpl in H.
  - injection H as <-. split; [|done]. intros ev k Hev.
    by apply not_elem_of_nil in Hev.
  - apply bind_Ok in H as (rec1 & Hstep & H).
    rewrite reconstruct_step_fold in Hstep.
    apply bump_all_spec in Hstep as (Hkeys & _ & Hdom);
      [|exact NoDup_dimension_names].
    destruct (IH _ H) as [Hrest Hdom']. split.
    + intros ev' k Hev' Hk. apply elem_of_cons in Hev' as [->|Hev'];
        [by apply Hkeys|by apply Hrest].
    + intros k. by rewrite Hdom', Hdom.
Qed.

Lemma reconstruct_loop_Raise (evs : list event) (rec : gmap string totals)
    (e : exn) :
  foldM (λ reconstructed ev,
           r1 ← bump "pages" ev reconstructed;
           r2 ← bump "browsers" ev r1;
           r3 ← bump "countries" ev r2;
           r4 ← bump "devices" ev r3;
           bump "referrers" ev r4) rec evs = Raise e →
  ∃ k, k ∈ dimension_names ∧ e = KeyError k.
Proof.
  intros H. apply foldM_Raise in H as (rec1 & ev & _ & H).
  unfold dimension_names.
  apply bind_Raise in H as [H|(r1 & _ & H)];
    [apply bump_Raise in H; exists "pages"; split; [by left|done]|].
  apply bind_Raise in H as [H|(r2 & _ & H)];
    [apply bump_Raise in H; exists "browsers";
     split; [right; by left|done]|].
  apply bind_Raise in H as [H|(r3 & _ & H)];
    [apply bump_Raise in H; exists "countries";
     split; [right; right; by left|done]|].
  apply bind_Raise in H as [H|(r4 & _ & H)];
    [apply bump_Raise in H; exists "devices";
     split; [right; right; right; by left|done]|].
  apply bump_Raise in H. exists "referrers".
  split; [right; right; right; right; by left|done].
Qed.

(** The recount of events that have the five dimensions. *)
Lemma reconstruct_spec (evs : list event) :
  (∀ ev k, ev ∈ evs → k ∈ dimension_names → is_Some (ev !! k)) →
  ∃ recon, reconstruct_marginals_from_events evs = Ok recon ∧
           recon.*1 = dimension_names ∧
           ∀ d v, d ∈ dimension_names →
                  target recon d v = occurrences d v evs.
Proof.
  intros Hkeys. unfold reconstruct_marginals_from_events.
  set (rec0 := <["referrers" := ∅]> _).
  assert (∀ k v, quota rec0 k v = 0) as Hq0.
  { intros k v. unfold quota, get_default, rec0.
    repeat (rewrite lookup_insert; case_decide;
            [simpl; by rewrite lookup_empty|]).
    rewrite lookup_empty. simpl. by rewrite lookup_empty. }
  destruct (reconstruct_loop_total evs rec0 Hkeys) as (rec & Hrec & Hdom).
  { intros k Hk. unfold rec0, dimension_names in *.
    repeat (apply elem_of_cons in Hk as [->|Hk]; [by simplify_map_eq|]).
    by apply not_elem_of_nil in Hk. }
  rewrite Hrec. simpl.
  pose proof (reconstruct_loop_spec evs rec0 rec Hrec) as Hq.
  destruct (forM_total (λ k, v ← getitem rec k; Ok (k, v)) dimension_names)
    as [recon Hrecon].
  { intros k Hk. destruct (Hdom k Hk) as [cnt Hcnt].
    apply getitem_Ok in Hcnt. rewrite Hcnt. simpl. eauto. }
  exists recon. split; [done|].
  apply forM_Forall2 in Hrecon. unfold dimension_names in *.
  repeat (apply Forall2_cons_inv_l in Hrecon
            as ([? ?] & ? & (? & ?%getitem_Ok & [= <- <-])%bind_Ok
                & Hrecon & ->)).
  apply Forall2_nil_inv_l in Hrecon as ->.
  split; [done|]. intros d v Hd.
  match goal with
  | |- target ?recon d v = _ => assert (assoc d recon = rec !! d) as Hassoc
  end.
  { repeat (apply elem_of_cons in Hd as [->|Hd]; [by simpl|]).
    by apply not_elem_of_nil in Hd. }
  unfold target. rewrite Hassoc.
  change (quota rec d v = occurrences d v evs).
  rewrite (Hq d v) by done. rewrite Hq0. lia.
Qed.

(** X10.  The recount succeeds exactly when every event has a value for
    each of the five dimensions; an event that lacks one raises
    [KeyError] for a dimension name, and nothing else is ever raised.
    The marginals it returns have the five dimensions in their fixed
    order, and the count of a value is the number of events that carry
    it, so that the counts of every dimension describe all the events. *)
Theorem recount_spec (evs : list event) :
  (is_Ok (reconstruct_marginals_from_events evs) ↔
     ∀ ev k, ev ∈ evs → k ∈ dimension_names → is_Some (ev !! k)) ∧
  (∀ recon, reconstruct_marginals_from_events evs = Ok recon →
     recon.*1 = dimension_names ∧
     ∀ d v, d ∈ dimension_names → target recon d v = occurrences d v evs) ∧
  (∀ e, reconstruct_marginals_from_events evs = Raise e →
     ∃ k, k ∈ dimension_names ∧ e = KeyError k).
Proof.
  split; [|split].
  - split.
    + intros [recon H]. unfold reconstruct_marginals_from_events in H.
      apply bind_Ok in H as (rec & H & _).
      by apply reconstruct_loop_keys in H as [H _].
    + intros H. destruct (reconstruct_spec evs H) as (recon & Hrecon & _).
      by exists recon.
  - intros recon H.
    assert (∀ ev k, ev ∈ evs → k ∈ dimension_names → is_Some (ev !! k))
      as Hkeys.
    { unfold reconstruct_marginals_from_events in H.
      apply bind_Ok in H as (rec & H & _).
      by apply reconstruct_loop_keys in H as [H _]. }
    destruct (reconstruct_spec evs Hkeys) as (recon' & Hrecon & Hspec).
    assert (recon' = recon) as -> by congruence. done.
  - intros e H. unfold reconstruct_marginals_from_events in H.
    apply bind_Raise in H as [H|(rec & Hrec & H)];
      [by eapply reconstruct_loop_Raise|].
    apply forM_Raise in H as (k & Hk & H). exists k. split; [done|].
    unfold getitem in H. destruct (rec !! k); simpl in H; [discriminate|].
    by injection H as <-.
Qed.

Lemma recount_spec_witness :
  ∃ k, k ∈ dimension_names ∧ KeyError "countries" = KeyError k.
Proof.
  apply (proj2 (proj2 (recount_spec infeasible_events))).
  vm_compute. reflexivity.
Defined.

(** ** The comparison *)

Lemma compare_dimension_inv (orig_dict recon_dict : totals) (key : string) :
  compare_dimension orig_dict recon_dict = true →
  get_default orig_dict key 0 = get_default recon_dict key 0.
Proof.
  unfold compare_dimension. intros H.
  destruct (decide (key ∈ dom orig_dict ∪ dom recon_dict)) as [Hin|Hout].
  - assert (key ∈ sort_by String.leb
                     (elements (dom orig_dict ∪ dom recon_dict))) as Hkey.
    { rewrite sort_by_Permutation. by apply elem_of_elements. }
    revert H Hkey.
    generalize (sort_by String.leb (elements (dom orig_dict ∪ dom recon_dict))).
    intros keys. assert (∀ b, foldl (λ matches key0,
        let orig_val := get_default orig_dict key0 0 in
        let recon_val := get_default recon_dict key0 0 in
        if decide (orig_val ≠ recon_val) then false else matches) b keys = true
      → key ∈ keys
      → get_default orig_dict key 0 = get_default recon_dict key 0) as Hgen.
    { induction keys as [|k keys IH]; intros b H Hkey.
      - by apply not_elem_of_nil in Hkey.
      - simpl in H. apply elem_of_cons in Hkey as [->|Hkey].
        + destruct (decide (get_default orig_dict k 0
                            ≠ get_default recon_dict k 0)) as [Hne|Heq].
          * exfalso. clear -H. induction keys as [|k' keys IH]; simpl in H;
              [discriminate|].
            destruct (decide _) in H; by apply IH.
          * by apply dec_stable.
        + by eapply IH. }
    apply Hgen.
  - apply not_elem_of_union in Hout as [Ho Hr].
    apply not_elem_of_dom in Ho, Hr. unfold get_default. by rewrite Ho, Hr.
Qed.

(** X11.  The comparison reports a match exactly when, in each of the
    five dimensions, every category value has the same count on both
    sides, a value that is missing on one side counting as 0 and a
    dimension that is missing counting as empty.  Dimensions other than
    the five are not looked at. *)
Theorem compare_marginals_iff (original reconstructed : marginals) :
  compare_marginals original reconstructed = true ↔
  ∀ dim key, dim ∈ dimension_names →
             target original dim key = target reconstructed dim key.
Proof.
  split; [|apply compare_marginals_true].
  unfold compare_marginals. intros H dim key Hdim.
  apply compare_dimension_inv. revert H Hdim.
  generalize dimension_names. intros names.
  assert (∀ b, foldl (λ all_match dim0,
      let orig_dict := default ∅ (assoc dim0 original) in
      let recon_dict := default ∅ (assoc dim0 reconstructed) in
      if compare_dimension orig_dict recon_dict then all_match else false)
      b names = true → dim ∈ names →
    compare_dimension (default ∅ (assoc dim original))
                      (default ∅ (assoc dim reconstructed)) = true) as Hgen.
  { induction names as [|d names IH]; intros b H Hd.
    - by apply not_elem_of_nil in Hd.
    - simpl in H. apply elem_of_cons in Hd as [->|Hd]; [|by eapply IH].
      destruct (compare_dimension _ _) eqn:E; [done|].
      exfalso. clear -H. induction names as [|d' names IH]; simpl in H;
        [discriminate|].
      destruct (compare_dimension _ _) in H; by apply IH. }
  apply Hgen.
Qed.

(** ** The reconstruction test as a whole *)

(** X12.  [test_exact_reconstruction] on a loaded hour: when the
    marginals the extractor returns have non-negative counts that add up
    to the same positive number [N] in each of the five dimensions, the
    test does not raise and reports a perfect reconstruction, by [N]
    events whose recount is the marginals. *)
Theorem exact_reconstruction (py_int : string → option Z)
    (hourly_data : hourly) (m : marginals) (N : Z) :
  get_marginal_totals py_int hourly_data = Ok m →
  jointly_feasible m N → 0 < N →
  ∃ evs, test_exact_reconstruction py_int hourly_data = Ok (true, evs) ∧
         Z.of_nat (length evs) = N ∧
         consistent_population m evs.
Proof.
  intros Hm Hfeas HN.
  pose proof (get_marginal_totals_names _ _ _ Hm) as Hnames.
  assert (∀ d, d ∈ dimension_names → d ∈ m.*1) as Hsub
    by (intros d; by rewrite Hnames).
  destruct (round_trip_any_weights m N [] Hfeas HN Hsub) as (Hact & Htot & _).
  destruct (solve_exact_distribution_run m N Hact Htot) as [w Hsolve]; [lia|].
  destruct (round_trip_any_weights m N w Hfeas HN Hsub)
    as (_ & _ & st & recon & Hst & Hlen & Hcons & Hrecon & Hcmp).
  exists (events st). unfold test_exact_reconstruction.
  rewrite Hm. simpl. rewrite Hsolve, Hst. simpl. rewrite Hrecon. simpl.
  by rewrite Hcmp.
Qed.

Lemma exact_reconstruction_witness :
  ∃ evs, test_exact_reconstruction decimal example_full_hour = Ok (true, evs) ∧
         Z.of_nat (length evs) = 2 ∧
         consistent_population five_dimension_marginals evs.
Proof.
  apply (exact_reconstruction decimal example_full_hour
           five_dimension_marginals 2).
  - vm_compute. reflexivity.
  - exact five_dimension_feasible.
  - reflexivity.
Defined.

(** ** The session composer: errors and identifiers *)

Lemma enhance_event_total (uuid4 : nat → string) (wid sid vid : string)
    (off dur : Qc) (len : nat) (acc : list session_event) (n idx : nat)
    (ev : event) :
  (∀ k, k ∈ dimension_names → is_Some (ev !! k)) →
  ∃ acc', enhance_event uuid4 wid sid vid off dur len (acc, n) (idx, ev)
          = Ok (acc', S n).
Proof.
  intros Hkeys. unfold enhance_event, dimension_names in *.
  destruct (Hkeys "browsers") as [br Hbr]; [set_solver|].
  destruct (Hkeys "devices") as [dv Hdv]; [set_solver|].
  destruct (Hkeys "countries") as [co Hco]; [set_solver|].
  destruct (Hkeys "pages") as [pa Hpa]; [set_solver|].
  destruct (Hkeys "referrers") as [re Hre]; [set_solver|].
  apply getitem_Ok in Hbr, Hdv, Hco, Hpa, Hre.
  rewrite Hbr, Hdv, Hco, Hpa, Hre. simpl. by eexists.
Qed.

Lemma enhance_event_Raise (uuid4 : nat → string) (wid sid vid : string)
    (off dur : Qc) (len : nat) (s : list session_event * nat)
    (x : nat * event) (e : exn) :
  enhance_event uuid4 wid sid vid off dur len s x = Raise e →
  ∃ k, k ∈ dimension_names ∧ e = KeyError k.
Proof.
  destruct s as [acc n], x as [idx ev]. unfold enhance_event, getitem.
  unfold dimension_names.
  destruct (ev !! "browsers"); simpl;
    [|intros [= <-]; exists "browsers"; split; [set_solver|done]].
  destruct (ev !! "devices"); simpl;
    [|intros [= <-]; exists "devices"; split; [set_solver|done]].
  destruct (ev !! "countries"); simpl;
    [|intros [= <-]; exists "countries"; split; [set_solver|done]].
  destruct (ev !! "pages"); simpl;
    [|intros [= <-]; exists "pages"; split; [set_solver|done]].
  destruct (ev !! "referrers"); simpl;
    [discriminate|intros [= <-]; exists "referrers"; split; [set_solver|done]].
Qed.

Lemma enhance_visit_total (uuid4 : nat → string) (wid : string)
    (nv ne : nat) (D : Qc) (s : list session_event * nat)
    (x : nat * list event) :
  (∀ ev k, ev ∈ x.2 → k ∈ dimension_names → is_Some (ev !! k)) →
  ∃ s', enhance_visit uuid4 wid nv ne D s x = Ok s'.
Proof.
  destruct s as [acc n], x as [idx visit]. simpl. intros Hkeys.
  unfold enhance_visit.
  match goal with
  | |- ∃ _, foldM ?f ?s ?l = _ =>
      destruct (foldM_total (λ _, True) f l s) as (s' & Hs' & _)
  end; [|done|by exists s'].
  intros [acc1 n1] [i ev] Hin _. apply elem_of_zip_r in Hin.
  destruct (enhance_event_total uuid4 wid (uuid4 n) (uuid4 (S n))
              (if (1 <? nv)%nat
               then (Qc_of_nat idx / Qc_of_nat nv * Qc_of_Z 3600)%Qc
               else 0%Qc)
              (if decide (nv = 1%nat) then D
               else (D * Qc_of_nat (length visit) / Qc_of_nat ne)%Qc)
              (length visit) acc1 n1 i ev) as [acc2 H2];
    [intros k Hk; by apply Hkeys|].
  by exists (acc2, S n1).
Qed.

Lemma create_session_visits_total (uuid4 : nat → string)
    (events : list event) (V : Z) (b D : Qc) :
  (∀ ev k, ev ∈ mjoin (build_visits events V b) → k ∈ dimension_names →
           is_Some (ev !! k)) →
  ∃ out, create_session_visits uuid4 events V b D = Ok out.
Proof.
  intros Hkeys. unfold create_session_visits.
  destruct (is_empty events); [by eexists|].
  match goal with
  | |- ∃ _, foldM ?f ?s ?l ≫= _ = _ =>
      destruct (foldM_total (λ _, True) f l s) as (s' & Hs' & _)
  end; [|done|rewrite Hs'; simpl; by eexists].
  intros s [idx visit] Hin _. apply elem_of_zip_r in Hin.
  destruct (enhance_visit_total uuid4 (uuid4 0%nat)
              (length (build_visits events V b)) (length events) D s
              (idx, visit)) as [s' Hs']; [|by exists s'].
  simpl. intros ev k Hev Hk. apply Hkeys; [|done].
  apply list_elem_of_join. by exists visit.
Qed.

Lemma create_session_visits_Raise (uuid4 : nat → string)
    (events : list event) (V : Z) (b D : Qc) (e : exn) :
  create_session_visits uuid4 events V b D = Raise e →
  ∃ k, k ∈ dimension_names ∧ e = KeyError k.
Proof.
  unfold create_session_visits. destruct (is_empty events); [discriminate|].
  intros H. apply bind_Raise in H as [H|(r & _ & H)]; [|discriminate].
  apply foldM_Raise in H as ([acc n] & [idx visit] & _ & H).
  unfold enhance_visit in H.
  apply foldM_Raise in H as (s & x & _ & H).
  by eapply enhance_event_Raise.
Qed.

(** X13.  The composer succeeds exactly when every event it places in a
    visit has a value for each of the five dimensions; an event that
    lacks one raises [KeyError] for that dimension, and nothing else is
    ever raised.  Events that end up in no visit are not looked at.  On
    success there is one enhanced event per placed event; an empty event
    list gives an empty result. *)
Theorem composer_total (uuid4 : nat → string) (events : list event)
    (V : Z) (b D : Qc) :
  (is_Ok (create_session_visits uuid4 events V b D) ↔
     ∀ ev k, ev ∈ mjoin (build_visits events V b) → k ∈ dimension_names →
             is_Some (ev !! k)) ∧
  (∀ out, create_session_visits uuid4 events V b D = Ok out →
     length out = length (mjoin (build_visits events V b))) ∧
  (∀ e, create_session_visits uuid4 events V b D = Raise e →
     ∃ k, k ∈ dimension_names ∧ e = KeyError k) ∧
  create_session_visits uuid4 [] V b D = Ok [].
Proof.
  split; [|split; [|split]].
  - split.
    + intros [out H] ev k Hev Hk.
      apply create_session_visits_spec in H.
      apply list_elem_of_lookup in Hev as [i Hi].
      destruct (Forall2_lookup_r _ _ _ _ _ H Hi)
        as (se & _ & Hbr & Hdv & Hco & Hpa & re & Hre & _).
      unfold dimension_names in Hk.
      repeat (apply elem_of_cons in Hk as [->|Hk]; [by eexists|]).
      by apply not_elem_of_nil in Hk.
    + intros H.
      destruct (create_session_visits_total uuid4 events V b D H) as [out Ho].
      by exists out.
  - intros out H. apply create_session_visits_spec in H.
    by apply Forall2_length in H.
  - intros e. apply create_session_visits_Raise.
  - done.
Qed.

Lemma composer_total_witness :
  ∃ k, k ∈ dimension_names ∧ KeyError "devices" = KeyError k.
Proof.
  apply (proj1 (proj2 (proj2
           (composer_total example_uuid4 infeasible_events 1
                           (Q2Qc 1) (Q2Qc 0))))).
  vm_compute. reflexivity.
Defined.

(** X14.  With a visit count of zero or less (and a bounce rate between
    0 and 1) the composer builds no visit and returns no event, whatever
    the events it is given: all pageviews of the hour are dropped
    without an error. *)
Theorem no_visits_no_events (uuid4 : nat → string) (events : list event)
    (V : Z) (b D : Qc) :
  V ≤ 0 → (0 ≤ b)%Qc → (b ≤ 1)%Qc →
  build_visits events V b = [] ∧
  create_session_visits uuid4 events V b D = Ok [].
Proof.
  intros HV Hb0 Hb1.
  pose proof (bounced_visits_bounds V b Hb0 Hb1) as Hbounds.
  assert (build_visits events V b = []) as Hnil.
  { rewrite build_visits_spec.
    rewrite (proj2 (Z.ltb_ge 0 (V - bounced_visits_of V b))) by lia.
    simpl. replace (Z.to_nat (bounced_visits_of V b)) with 0%nat by lia.
    by rewrite take_0. }
  split; [done|]. unfold create_session_visits.
  destruct (is_empty events); [done|]. by rewrite Hnil.
Qed.

Lemma no_visits_no_events_witness :
  build_visits [example_event; example_event] 0 (Q2Qc (1 # 2)) = [] ∧
  create_session_visits example_uuid4 [example_event; example_event] 0
                        (Q2Qc (1 # 2)) (Q2Qc 30) = Ok [].
Proof.
  apply (no_visits_no_events example_uuid4 [example_event; example_event] 0
                             (Q2Qc (1 # 2)) (Q2Qc 30)).
  - lia.
  - discriminate.
  - discriminate.
Defined.

(** ** The identifiers and the page numbers *)

Lemma enhance_events_ids (uuid4 : nat → string) (wid sid vid : string)
    (off dur : Qc) (len : nat) (visit : list event) (k : nat)
    (acc acc' : list session_event) (n n' : nat) :
  foldM (enhance_event uuid4 wid sid vid off dur len) (acc, n)
        (zip (seq k (length visit)) visit) = Ok (acc', n') →
  ∃ new, acc' = acc ++ new ∧ n' = (n + length visit)%nat ∧
    Forall2 describes new visit ∧
    ∀ i se, new !! i = Some se →
      website_id se = wid ∧ session_id se = sid ∧ visit_id se = vid ∧
      event_id se = uuid4 (n + i)%nat ∧
      visit_page_number se = Z.of_nat (k + i) + 1 ∧
      is_bounce se = bool_decide (len = 1%nat).
Proof.
  revert k acc n. induction visit as [|ev visit IH]; intros k acc n H.
  - simpl in H. injection H as <- <-. exists [].
    rewrite app_nil_r. split; [done|]. split; [simpl; lia|].
    split; [constructor|]. intros i se Hi. by rewrite lookup_nil in Hi.
  - simpl in H. apply bind_Ok in H as ([acc1 n1] & Hstep & H).
    pose proof Hstep as Hdesc.
    apply enhance_event_spec in Hdesc as (se0 & Hacc1 & Hse0).
    unfold enhance_event in Hstep.
    apply bind_Ok in Hstep as (br & _ & Hstep).
    apply bind_Ok in Hstep as (dv & _ & Hstep).
    apply bind_Ok in Hstep as (co & _ & Hstep).
    apply bind_Ok in Hstep as (pa & _ & Hstep).
    apply bind_Ok in Hstep as (re & _ & Hstep).
    injection Hstep as Hacc <-. rewrite <- Hacc in Hacc1.
    apply app_inv_head in Hacc1. injection Hacc1 as Hse.
    apply IH in H as (new & -> & -> & Hnew & Hids).
    exists (se0 :: new). rewrite <- Hacc.
    split; [by rewrite <- app_assoc, <- Hse|].
    split; [simpl; lia|]. split; [by constructor|].
    intros [|i] se Hi; simpl in Hi.
    + injection Hi as <-. rewrite <- Hse. simpl.
      rewrite !Nat.add_0_r. done.
    + destruct (Hids i se Hi) as (? & ? & ? & Hid & Hpage & ?).
      repeat (split; [done|]). split; [|split; [|done]].
      * rewrite Hid. f_equal. lia.
      * rewrite Hpage. lia.
Qed.

Lemma enhance_visits_ids (uuid4 : nat → string) (wid : string)
    (nv ne : nat) (D : Qc) (visits : list (list event)) (k : nat)
    (acc acc' : list session_event) (n n' : nat) :
  foldM (enhance_visit uuid4 wid nv ne D) (acc, n)
        (zip (seq k (length visits)) visits) = Ok (acc', n') →
  ∃ groups, acc' = acc ++ mjoin groups ∧
    Forall2 (Forall2 describes) groups visits ∧
    ∀ j g i se, groups !! j = Some g → g !! i = Some se →
      let start := (n + 2 * j + length (mjoin (take j groups)))%nat in
      website_id se = wid ∧ session_id se = uuid4 start ∧
      visit_id se = uuid4 (S start) ∧
      event_id se = uuid4 (start + 2 + i)%nat ∧
      visit_page_number se = Z.of_nat i + 1 ∧
      is_bounce se = bool_decide (length g = 1%nat).
Proof.
  revert k acc n. induction visits as [|visit visits IH]; intros k acc n H.
  - simpl in H. injection H as <- <-. exists []. simpl.
    rewrite app_nil_r. split; [done|]. split; [constructor|].
    intros j g i se Hj. by rewrite lookup_nil in Hj.
  - simpl in H. apply bind_Ok in H as ([acc1 n1] & Hstep & H).
    unfold enhance_visit in Hstep. unfold enumerate in Hstep.
    apply enhance_events_ids in Hstep as (g0 & -> & -> & Hg0 & Hids0).
    apply IH in H as (groups & -> & Hgroups & Hids).
    exists (g0 :: groups). split; [simpl; by rewrite <- app_assoc|].
    split; [by constructor|].
    pose proof (Forall2_length _ _ _ Hg0) as Hlen0.
    intros [|j] g i se Hj Hi; simpl in Hj.
    + injection Hj as <-. simpl.
      destruct (Hids0 i se Hi) as (? & ? & ? & Hid & Hpage & Hb).
      rewrite !Nat.add_0_r. split; [done|]. split; [done|].
      split; [done|]. split; [rewrite Hid; f_equal; lia|].
      split; [done|]. by rewrite Hlen0.
    + destruct (Hids j g i se Hj Hi) as (? & Hsid & Hvid & Hid & ? & ?).
      cbv zeta.
      assert ((n + 2 * S j + length (mjoin (take (S j) (g0 :: groups)))
               = S (S n) + length visit + 2 * j
                 + length (mjoin (take j groups)))%nat) as ->.
      { simpl. rewrite length_app. lia. }
      done.
Qed.

Lemma mjoin_take_le {A} (groups : list (list A)) (j j' : nat) :
  (j ≤ j')%nat →
  (length (mjoin (take j groups)) ≤ length (mjoin (take j' groups)))%nat.
Proof.
  revert j j'. induction groups as [|g groups IH]; intros j j' Hle.
  - by rewrite !take_nil.
  - destruct j as [|j]; [simpl; lia|]. destruct j' as [|j']; [lia|].
    simpl. rewrite !length_app. specialize (IH j j'). lia.
Qed.

Lemma visit_start_next {A} (groups : list (list A)) (j j' : nat) (g : list A) :
  groups !! j = Some g → (j < j')%nat →
  (visit_start groups j + 2 + length g ≤ visit_start groups j')%nat.
Proof.
  intros Hj Hlt. unfold visit_start.
  pose proof (mjoin_take_le groups (S j) j') as Hle.
  rewrite (take_S_r _ _ _ Hj) in Hle.
  rewrite join_app, length_app in Hle. simpl in Hle.
  rewrite app_nil_r in Hle. lia.
Qed.

Lemma event_ids_NoDup (uuid4 : nat → string)
    (groups : list (list session_event)) :
  (∀ x y, uuid4 x = uuid4 y → x = y) →
  (∀ j g i se, groups !! j = Some g → g !! i = Some se →
     event_id se = uuid4 (visit_start groups j + 2 + i)%nat) →
  NoDup (event_id <$> mjoin groups).
Proof.
  intros Hinj Hids. apply NoDup_alt. intros a a' x Ha Ha'.
  rewrite list_lookup_fmap in Ha, Ha'.
  destruct (mjoin groups !! a) as [se|] eqn:Ea; [|done].
  destruct (mjoin groups !! a') as [se'|] eqn:Ea'; [|done].
  simpl in Ha, Ha'. injection Ha as Hx. injection Ha' as Hx'.
  assert (∀ (gs : list (list session_event)) p s,
            mjoin gs !! p = Some s →
            ∃ j g i, gs !! j = Some g ∧ g !! i = Some s ∧
                     p = (length (mjoin (take j gs)) + i)%nat) as Hpos.
  { clear. induction gs as [|g gs IH]; intros p s Hp; [done|].
    simpl in Hp. destruct (decide (p < length g)%nat) as [Hlt|Hge].
    - rewrite lookup_app_l in Hp by done. by exists 0%nat, g, p.
    - rewrite lookup_app_r in Hp by lia.
      destruct (IH _ _ Hp) as (j & g' & i & Hj & Hi & Heq).
      exists (S j), g', i. split; [done|]. split; [done|].
      simpl. rewrite length_app. lia. }
  destruct (Hpos _ _ _ Ea) as (j & g & i & Hj & Hi & ->).
  destruct (Hpos _ _ _ Ea') as (j' & g' & i' & Hj' & Hi' & ->).
  pose proof (Hids _ _ _ _ Hj Hi) as Hid.
  pose proof (Hids _ _ _ _ Hj' Hi') as Hid'.
  assert (visit_start groups j + 2 + i
          = visit_start groups j' + 2 + i')%nat as Heq.
  { apply Hinj. congruence. }
  apply lookup_lt_Some in Hi, Hi'.
  destruct (Nat.lt_trichotomy j j') as [Hlt|[->|Hgt]].
  - pose proof (visit_start_next groups j j' g Hj Hlt). lia.
  - unfold visit_start in Heq. lia.
  - pose proof (visit_start_next groups j' j g' Hj' Hgt). lia.
Qed.

(** X15.  The enhanced events come in one group per visit, in the order
    of the visits.  All events carry the same website identifier; the
    events of a visit share one session identifier and one visit
    identifier, each has an identifier of its own, its page number is
    its position in the visit counted from 1, and it is flagged as a
    bounce exactly when its visit has a single event.  Identifiers are
    drawn in order: one for the website, then for each visit two and one
    per event.  So when the supply never repeats an identifier, no two
    events share an event identifier. *)
Theorem composer_metadata (uuid4 : nat → string) (events : list event)
    (V : Z) (b D : Qc) (out : list session_event) :
  create_session_visits uuid4 events V b D = Ok out →
  ∃ groups, out = mjoin groups ∧
    Forall2 (Forall2 describes) groups (build_visits events V b) ∧
    (∀ j g i se, groups !! j = Some g → g !! i = Some se →
       website_id se = uuid4 0%nat ∧
       session_id se = uuid4 (visit_start groups j) ∧
       visit_id se = uuid4 (S (visit_start groups j)) ∧
       event_id se = uuid4 (visit_start groups j + 2 + i)%nat ∧
       visit_page_number se = Z.of_nat i + 1 ∧
       is_bounce se = bool_decide (length g = 1%nat)) ∧
    ((∀ x y, uuid4 x = uuid4 y → x = y) → NoDup (event_id <$> out)).
Proof.
  intros H.
  assert (∃ groups, out = mjoin groups ∧
    Forall2 (Forall2 describes) groups (build_visits events V b) ∧
    (∀ j g i se, groups !! j = Some g → g !! i = Some se →
       website_id se = uuid4 0%nat ∧
       session_id se = uuid4 (visit_start groups j) ∧
       visit_id se = uuid4 (S (visit_start groups j)) ∧
       event_id se = uuid4 (visit_start groups j + 2 + i)%nat ∧
       visit_page_number se = Z.of_nat i + 1 ∧
       is_bounce se = bool_decide (length g = 1%nat)))
    as (groups & -> & Hdesc & Hids).
  { unfold create_session_visits in H. destruct (is_empty events) eqn:Hemp.
    - injection H as <-. exists []. split; [done|]. split.
      + destruct events; [|done]. unfold build_visits.
        rewrite bounce_loop_spec. simpl. rewrite take_nil, drop_nil. simpl.
        rewrite andb_false_r. constructor.
      + intros j g i se Hj. by rewrite lookup_nil in Hj.
    - apply bind_Ok in H as ([acc n] & H & [= <-]).
      unfold enumerate in H.
      apply enhance_visits_ids in H as (groups & -> & Hdesc & Hids).
      exists groups. split; [done|]. split; [done|].
      intros j g i se Hj Hi. exact (Hids j g i se Hj Hi). }
  exists groups. split; [done|]. split; [done|]. split; [done|].
  intros Hinj. apply (event_ids_NoDup uuid4); [done|].
  intros j g i se Hj Hi. by destruct (Hids j g i se Hj Hi) as (_&_&_&?&_).
Qed.

Lemma example_uuid4_inj (x y : nat) :
  example_uuid4 x = example_uuid4 y → x = y.
Proof.
  revert y. induction x as [|x IH]; intros [|y] H; simpl in H;
    [done|discriminate|discriminate|].
  injection H as H. f_equal. by apply IH.
Qed.

Lemma example_event_keys (ev : event) (k : string) :
  ev ∈ mjoin (build_visits [example_event; example_event; example_event]
                           2 (Q2Qc (1 # 2))) →
  k ∈ dimension_names → is_Some (ev !! k).
Proof.
  rewrite mjoin_build_visits.
  assert (0 <? 2 - bounced_visits_of 2 (Q2Qc (1 # 2)) = true) as ->
    by reflexivity.
  intros Hev Hk.
  assert (ev = example_event) as ->.
  { repeat (apply elem_of_cons in Hev as [->|Hev]; [reflexivity|]).
    by apply not_elem_of_nil in Hev. }
  unfold dimension_names in Hk.
  repeat (apply elem_of_cons in Hk as [->|Hk]; [by eexists|]).
  by apply not_elem_of_nil in Hk.
Qed.

Lemma composer_metadata_witness :
  ∃ out groups,
    create_session_visits example_uuid4
      [example_event; example_event; example_event] 2 (Q2Qc (1 # 2))
      (Q2Qc 30) = Ok out ∧
    out = mjoin groups ∧
    Forall2 (Forall2 describes) groups
      (build_visits [example_event; example_event; example_event] 2
                    (Q2Qc (1 # 2))) ∧
    (∀ j g i se, groups !! j = Some g → g !! i = Some se →
       website_id se = example_uuid4 0%nat ∧
       session_id se = example_uuid4 (visit_start groups j) ∧
       visit_id se = example_uuid4 (S (visit_start groups j)) ∧
       event_id se = example_uuid4 (visit_start groups j + 2 + i)%nat ∧
       visit_page_number se = Z.of_nat i + 1 ∧
       is_bounce se = bool_decide (length g = 1%nat)) ∧
    NoDup (event_id <$> out).
Proof.
  destruct (create_session_visits_total example_uuid4
              [example_event; example_event; example_event] 2
              (Q2Qc (1 # 2)) (Q2Qc 30) example_event_keys) as [out Hout].
  destruct (composer_metadata example_uuid4
              [example_event; example_event; example_event] 2
              (Q2Qc (1 # 2)) (Q2Qc 30) out Hout)
    as (groups & Hjoin & Hdesc & Hids & Hnodup).
  exists out, groups. split; [exact Hout|]. split; [exact Hjoin|].
  split; [exact Hdesc|]. split; [exact Hids|].
  exact (Hnodup example_uuid4_inj).
Defined.

(** ** Deterministic sampling ([simple_ipf.sample_events_deterministic]) *)

Lemma Qfloor_nonneg (x : Qc) : (0 ≤ x)%Qc → 0 ≤ Qfloor x.
Proof.
  intros H. change 0 with (Qfloor (Q2Qc 0)). by apply Qfloor_resp_le.
Qed.

Lemma py_round_nonneg (x : Qc) : (0 ≤ x)%Qc → 0 ≤ py_round x.
Proof.
  intros H. apply Qfloor_nonneg in H. unfold py_round.
  destruct (Qccompare _ _); [destruct (Z.even _)| |]; lia.
Qed.

Lemma sum_over_Permutation {A} (f : A → Z) (l l' : list A) :
  l ≡ₚ l' → sum_over f l = sum_over f l'.
Proof. induction 1; simpl; lia. Qed.

Lemma sum_over_app {A} (f : A → Z) (l l' : list A) :
  sum_over f (l ++ l') = sum_over f l + sum_over f l'.
Proof. induction l as [|x l IH]; simpl; lia. Qed.

Lemma sum_over_nonneg {A} (f : A → Z) (l : list A) :
  (∀ x, x ∈ l → 0 ≤ f x) → 0 ≤ sum_over f l.
Proof.
  induction l as [|x l IH]; intros H; simpl; [done|].
  assert (0 ≤ f x) by (apply H; by left).
  assert (0 ≤ sum_over f l); [|lia]. apply IH. intros y Hy. apply H. by right.
Qed.

Lemma dict_set_fresh {K V} `{EqDecision K} (k : K) (v : V) (d : list (K * V)) :
  k ∉ d.*1 → dict_set k v d = d ++ [(k, v)].
Proof.
  induction d as [|[k' v'] d IH]; intros Hk; simpl; [done|].
  rewrite fmap_cons in Hk. apply not_elem_of_cons in Hk as [Hne Hk].
  rewrite decide_False by done. by rewrite IH.
Qed.

Lemma count_sum_cons {K} (p : K * Z) (d : list (K * Z)) :
  count_sum (p :: d) = p.2 + count_sum d.
Proof. done. Qed.

Lemma dict_set_present {K} `{EqDecision K} (k : K) (v c : Z)
    (d : list (K * Z)) :
  assoc k d = Some c →
  (dict_set k v d).*1 = d.*1 ∧ count_sum (dict_set k v d) = count_sum d + v - c.
Proof.
  induction d as [|[k' v'] d IH]; intros H; [done|].
  simpl in H. simpl dict_set. destruct (decide (k = k')) as [->|Hne].
  - injection H as ->. rewrite !fmap_cons, !count_sum_cons. simpl.
    split; [done|lia].
  - destruct (IH H) as [Hk Hs].
    rewrite !fmap_cons, !count_sum_cons, Hk, Hs. simpl. split; [done|lia].
Qed.

Lemma dict_set_nonneg {K} `{EqDecision K} (k : K) (v : Z) (d : list (K * Z)) :
  0 ≤ v → Forall (λ p, 0 ≤ p.2) d → Forall (λ p, 0 ≤ p.2) (dict_set k v d).
Proof.
  intros Hv. induction 1 as [|[k' v'] d Hp Hd IH]; simpl.
  - by constructor.
  - destruct (decide (k = k')); constructor; done.
Qed.

Lemma assoc_is_Some {K V} `{EqDecision K} (k : K) (d : list (K * V)) :
  k ∈ d.*1 → is_Some (assoc k d).
Proof.
  induction d as [|[k' v'] d IH]; intros Hk; simpl.
  - by apply not_elem_of_nil in Hk.
  - destruct (decide (k = k')); [by eexists|].
    rewrite fmap_cons in Hk. apply elem_of_cons in Hk as [?|Hk]; [done|].
    by apply IH.
Qed.

Lemma assoc_nonneg {K} `{EqDecision K} (k : K) (c : Z) (d : list (K * Z)) :
  Forall (λ p, 0 ≤ p.2) d → assoc k d = Some c → 0 ≤ c.
Proof.
  induction 1 as [|[k' v'] d Hp Hd IH]; simpl; [done|].
  destruct (decide (k = k')); [by intros [= <-]|done].
Qed.

(** The first loop, started with events left to hand out. *)
Lemma round_counts_spec (l : list (combo * Qc)) (cc : list (combo * Z))
    (rem : Z) :
  NoDup l.*1 → (∀ k, k ∈ l.*1 → k ∉ cc.*1) →
  Forall (λ p, (0 ≤ p.2)%Qc) l → 0 ≤ rem →
  ∃ added rem',
    round_counts l cc rem = (cc ++ added, rem') ∧
    (∀ k, k ∈ added.*1 → k ∈ l.*1) ∧
    Forall (λ p, 0 ≤ p.2) added ∧
    rem' = rem - count_sum added ∧ 0 ≤ rem' ∧
    count_sum added ≤ rounded_total l ∧
    (rem' = 0 ∨ (added.*1 = l.*1 ∧ count_sum added = rounded_total l)).
Proof.
  revert cc rem. induction l as [|[c p] l IH]; intros cc rem Hnd Hfresh Hpos Hrem.
  - exists [], rem. simpl. rewrite app_nil_r. unfold count_sum, rounded_total.
    simpl. split; [done|]. split; [done|]. split; [constructor|].
    split; [lia|]. split; [done|]. split; [done|]. by right.
  - rewrite fmap_cons in Hnd. apply NoDup_cons in Hnd as [Hc Hnd].
    apply Forall_cons in Hpos as [Hp Hpos]. simpl in Hp.
    apply py_round_nonneg in Hp.
    cbn [round_counts].
    set (count := if rem <? py_round p then rem else py_round p).
    assert (0 ≤ count ∧ count ≤ rem ∧ count ≤ py_round p) as (Hc0 & Hc1 & Hc2).
    { unfold count. destruct (rem <? py_round p) eqn:E;
        [apply Z.ltb_lt in E|apply Z.ltb_ge in E]; lia. }
    rewrite dict_set_fresh by (apply Hfresh; rewrite fmap_cons; by left).
    assert (rounded_total ((c, p) :: l) = py_round p + rounded_total l)
      as Htotal by done.
    destruct (rem - count <=? 0) eqn:E;
      [apply Z.leb_le in E|apply Z.leb_gt in E].
    + exists [(c, count)], (rem - count).
      assert (count_sum [(c, count)] = count) as Hone
        by (unfold count_sum; simpl; lia).
      rewrite Hone. split; [done|]. split.
      { intros k Hk. apply list_elem_of_singleton in Hk as ->.
        rewrite ?fmap_cons. by left. }
      split; [by repeat constructor|]. split; [lia|]. split; [lia|].
      split.
      { rewrite Htotal.
        assert (0 ≤ rounded_total l); [|lia]. apply sum_over_nonneg.
        intros x Hx. apply py_round_nonneg.
        rewrite Forall_forall in Hpos. by apply Hpos. }
      left. lia.
    + assert (count = py_round p) as Hcount.
      { unfold count in *. destruct (rem <? py_round p); lia. }
      destruct (IH (cc ++ [(c, count)]) (rem - count) Hnd)
        as (added & rem' & Hrun & Hkeys & Hnn & Hrem' & Hrem0 & Hle & Hall);
        [|done|lia|].
      { intros k Hk. rewrite fmap_app. intros Hin.
        apply elem_of_app in Hin as [Hin|Hin].
        - apply (Hfresh k); [rewrite fmap_cons; by right|done].
        - simpl in Hin. apply list_elem_of_singleton in Hin as ->. done. }
      exists ((c, count) :: added), rem'.
      rewrite Hrun, <- app_assoc. split; [done|]. split.
      { intros k Hk. rewrite ?fmap_cons in Hk |- *. simpl in Hk.
        apply elem_of_cons in Hk as [->|Hk]; [by left|right; by apply Hkeys]. }
      split; [by constructor|].
      assert (count_sum ((c, count) :: added) = count + count_sum added)
        as Hsum by done.
      rewrite Hsum, Htotal. split; [lia|]. split; [done|]. split; [lia|].
      destruct Hall as [?|[Hk Hs]]; [by left|right].
      split; [rewrite ?fmap_cons; simpl; by rewrite Hk|lia].
Qed.

(** The second loop, when every combination already has a count. *)
Lemma spread_remaining_spec (l : list (combo * Qc)) (cc : list (combo * Z))
    (rem : Z) :
  (∀ k, k ∈ l.*1 → k ∈ cc.*1) → Forall (λ p, 0 ≤ p.2) cc → 0 ≤ rem →
  ∃ cc' rem',
    spread_remaining l cc rem = (cc', rem') ∧
    cc'.*1 = cc.*1 ∧ Forall (λ p, 0 ≤ p.2) cc' ∧
    count_sum cc' = count_sum cc + Z.min rem (Z.of_nat (length l)).
Proof.
  revert cc rem. induction l as [|[c p] l IH]; intros cc rem Hin Hnn Hrem.
  - exists cc, rem. simpl. split; [done|]. split; [done|]. split; [done|]. lia.
  - simpl. destruct (rem <=? 0) eqn:E;
      [apply Z.leb_le in E|apply Z.leb_gt in E].
    + exists cc, rem. split; [done|]. split; [done|]. split; [done|]. lia.
    + destruct (assoc_is_Some c cc) as [cnt Hcnt];
        [apply Hin; rewrite fmap_cons; by left|].
      rewrite Hcnt.
      destruct (dict_set_present c (cnt + 1) cnt cc Hcnt) as [Hk Hs].
      pose proof (assoc_nonneg c cnt cc Hnn Hcnt) as Hcnt0.
      destruct (IH (dict_set c (cnt + 1) cc) (rem - 1))
        as (cc' & rem' & Hrun & Hk' & Hnn' & Hs'); [| |lia|].
      { intros k Hk0. rewrite Hk. apply Hin. rewrite fmap_cons. by right. }
      { apply dict_set_nonneg; [lia|done]. }
      exists cc', rem'. split; [done|]. split; [congruence|].
      split; [done|]. rewrite Hs', Hs. lia.
Qed.

Lemma spread_remaining_done (l : list (combo * Qc)) (cc : list (combo * Z)) :
  spread_remaining l cc 0 = (cc, 0).
Proof. by destruct l as [|[c p] l]. Qed.

Lemma length_sampled {A} (f : combo → A) (cc : list (combo * Z)) :
  Forall (λ p, 0 ≤ p.2) cc →
  Z.of_nat (length (flat_map (λ '(combo, count),
                                replicate (Z.to_nat count) (f combo)) cc))
  = count_sum cc.
Proof.
  unfold count_sum. induction 1 as [|[c n] cc Hn _ IH]; simpl; [done|].
  simpl in Hn. rewrite length_app, length_replicate. lia.
Qed.

Lemma elem_of_sampled {A} (f : combo → A) (cc : list (combo * Z)) (x : A) :
  x ∈ flat_map (λ '(combo, count), replicate (Z.to_nat count) (f combo)) cc →
  ∃ c, c ∈ cc.*1 ∧ x = f c.
Proof.
  induction cc as [|[c n] cc IH]; simpl; intros H.
  - by apply not_elem_of_nil in H.
  - apply elem_of_app in H as [H|H].
    + apply elem_of_replicate_inv in H as ->. exists c.
      split; [by left|done].
    + destruct (IH H) as (c' & Hc' & ->). exists c'.
      split; [by right|done].
Qed.

(** X16.  On a non-empty table with distinct combinations and
    non-negative weights, asked for [N >= 0] events, the deterministic
    sampler returns [N] events when the rounded weights, with one more
    event allowed for each combination, reach [N], and otherwise only
    the sum of the rounded weights plus one per combination.  Every
    event it returns is a combination of the table. *)
Theorem sample_count (table : weight_table) (combinations : list event)
    (dim_names : list string) (num_events : Z) :
  table ≠ [] → combinations ≠ [] → NoDup table.*1 →
  Forall (λ p, (0 ≤ p.2)%Qc) table → 0 ≤ num_events →
  Z.of_nat (length (sample_events_deterministic table combinations
                                                dim_names num_events))
  = Z.min num_events (rounded_total table + Z.of_nat (length table)) ∧
  ∀ ev, ev ∈ sample_events_deterministic table combinations dim_names
                                         num_events →
        ∃ combo, combo ∈ table.*1 ∧ ev = dict_of_zip dim_names combo.
Proof.
  intros Htable Hcombos Hnd Hpos HN. unfold sample_events_deterministic.
  destruct table as [|e table]; [done|].
  destruct combinations as [|c0 combinations]; [done|]. simpl is_empty.
  simpl orb. cbv iota.
  set (sorted := sort_by heavier_combo_first (e :: table)).
  assert (sorted ≡ₚ e :: table) as Hperm by apply sort_by_Permutation.
  assert (rounded_total sorted = rounded_total (e :: table)) as HR
    by (by apply sum_over_Permutation).
  assert (length sorted = length (e :: table)) as Hlen
    by (by apply Permutation_length).
  assert (NoDup sorted.*1) as Hnd' by (by rewrite Hperm).
  assert (Forall (λ p, (0 ≤ p.2)%Qc) sorted) as Hpos' by (by rewrite Hperm).
  destruct (round_counts_spec sorted [] num_events Hnd')
    as (added & rem & Hround & Hkeys & Hnn & Hrem & Hrem0 & Hle & Hall);
    [|done|done|].
  { intros k _ Hk. by apply not_elem_of_nil in Hk. }
  rewrite Hround. simpl app.
  assert (0 ≤ rounded_total sorted) as HR0.
  { apply sum_over_nonneg. intros x Hx. apply py_round_nonneg.
    rewrite Forall_forall in Hpos'. by apply Hpos'. }
  assert (∀ k, k ∈ added.*1 → k ∈ (e :: table).*1) as Hsub.
  { intros k Hk. rewrite <- Hperm. by apply Hkeys. }
  destruct (decide (rem = 0)) as [->|Hne].
  - rewrite spread_remaining_done. split.
    + rewrite length_sampled by done. lia.
    + intros ev Hev. apply elem_of_sampled in Hev as (c & Hc & ->).
      exists c. split; [by apply Hsub|done].
  - destruct Hall as [?|[Hk Hs]]; [done|].
    destruct (spread_remaining_spec sorted added rem)
      as (cc' & rem' & Hrun & Hk' & Hnn' & Hs'); [|done|done|].
    { intros k Hin. by rewrite Hk. }
    rewrite Hrun. split.
    + rewrite length_sampled by done. rewrite Hs', Hs, Hlen, <- HR. lia.
    + intros ev Hev. apply elem_of_sampled in Hev as (c & Hc & ->).
      exists c. split; [|done]. apply Hsub. by rewrite <- Hk'.
Qed.

Lemma sample_count_witness :
  Z.of_nat (length (sample_events_deterministic
                      example_table infeasible_events
                      ["pages"; "browsers"] 3))
  = Z.min 3 (rounded_total example_table
             + Z.of_nat (length example_table)).
Proof.
  apply (sample_count example_table infeasible_events ["pages"; "browsers"] 3).
  - discriminate.
  - discriminate.
  - apply (bool_decide_eq_true_1 (NoDup example_table.*1)).
    vm_compute. reflexivity.
  - unfold example_table. repeat constructor; discriminate.
  - lia.
Defined.
(** ** Sums of weights *)

Local Open Scope Qc_scope.

Lemma float_sum_app (xs ys : list Qc) :
  float_sum (xs ++ ys) = float_sum xs + float_sum ys.
Proof.
  induction xs as [|x xs IH]; simpl.
  - unfold float_sum at 2. simpl. ring.
  - rewrite !float_sum_cons, IH. ring.
Qed.

Lemma weight_sum_nil {A} (f : A → Qc) : weight_sum f [] = 0.
Proof. reflexivity. Qed.

Lemma weight_sum_cons {A} (f : A → Qc) (x : A) (l : list A) :
  weight_sum f (x :: l) = f x + weight_sum f l.
Proof. unfold weight_sum. by rewrite fmap_cons, float_sum_cons. Qed.

Lemma weight_sum_app {A} (f : A → Qc) (l1 l2 : list A) :
  weight_sum f (l1 ++ l2) = weight_sum f l1 + weight_sum f l2.
Proof. unfold weight_sum. by rewrite fmap_app, float_sum_app. Qed.

Lemma weight_sum_ext {A} (f g : A → Qc) (l : list A) :
  (∀ x, x ∈ l → f x = g x) → weight_sum f l = weight_sum g l.
Proof.
  induction l as [|x l IH]; intros H; [done|].
  rewrite !weight_sum_cons, H, IH; [done| |by left].
  intros y Hy. apply H. by right.
Qed.

Lemma weight_sum_scale {A} (k : Qc) (f : A → Qc) (l : list A) :
  weight_sum (λ x, k * f x) l = k * weight_sum f l.
Proof.
  induction l as [|x l IH]; [rewrite !weight_sum_nil; ring|].
  rewrite !weight_sum_cons, IH. ring.
Qed.

Lemma weight_sum_map {A B} (f : B → Qc) (g : A → B) (l : list A) :
  weight_sum f (g <$> l) = weight_sum (λ x, f (g x)) l.
Proof. unfold weight_sum. by rewrite <- list_fmap_compose. Qed.

Lemma weight_sum_zero {A} (f : A → Qc) (l : list A) :
  (∀ x, x ∈ l → f x = 0) → weight_sum f l = 0.
Proof.
  induction l as [|x l IH]; intros H; [done|].
  rewrite weight_sum_cons, H, IH; [ring| |by left].
  intros y Hy. apply H. by right.
Qed.

Lemma weight_sum_nonneg {A} (f : A → Qc) (l : list A) :
  (∀ x, x ∈ l → 0 ≤ f x) → 0 ≤ weight_sum f l.
Proof.
  intros H. apply float_sum_nonneg. apply Forall_fmap, Forall_forall.
  intros x Hx. by apply H.
Qed.

Lemma weight_sum_pos {A} (f : A → Qc) (l : list A) (x : A) :
  (∀ y, y ∈ l → 0 ≤ f y) → x ∈ l → 0 < f x → 0 < weight_sum f l.
Proof.
  induction l as [|y l IH]; intros Hnn Hx Hpos.
  - by apply not_elem_of_nil in Hx.
  - rewrite weight_sum_cons.
    assert (0 ≤ weight_sum f l) as Hl.
    { apply weight_sum_nonneg. intros z Hz. apply Hnn. by right. }
    apply elem_of_cons in Hx as [<-|Hx].
    + by apply Qcplus_pos_nonneg.
    + rewrite Qcplus_comm. apply Qcplus_pos_nonneg.
      * apply IH; [|done|done]. intros z Hz. apply Hnn. by right.
      * apply Hnn. by left.
Qed.

(** ** Tables given by a function of the combination *)

Lemma table_of_keys (keys : list combo) (f : combo → Qc) :
  (table_of keys f).*1 = keys.
Proof.
  unfold table_of. rewrite <- list_fmap_compose.
  induction keys as [|c keys IH]; simpl; [done|]. by f_equal.
Qed.

Lemma table_of_ext (keys : list combo) (f g : combo → Qc) :
  (∀ c, c ∈ keys → f c = g c) → table_of keys f = table_of keys g.
Proof.
  induction keys as [|c keys IH]; intros H; [done|].
  unfold table_of. rewrite !fmap_cons. f_equal.
  - by rewrite H by (by left).
  - apply IH. intros c' Hc'. apply H. by right.
Qed.

Lemma table_of_assoc (keys : list combo) (f : combo → Qc) (c : combo) :
  c ∈ keys → assoc c (table_of keys f) = Some (f c).
Proof.
  induction keys as [|c' keys IH]; intros Hc.
  - by apply not_elem_of_nil in Hc.
  - unfold table_of. rewrite fmap_cons. simpl.
    destruct (decide (c = c')) as [->|Hne]; [done|].
    apply IH. apply elem_of_cons in Hc as [?|?]; [done|done].
Qed.

Lemma table_of_unchanged (keys : list combo) (f : combo → Qc) :
  total_change (table_of keys f) (table_of keys f) = 0.
Proof.
  unfold total_change.
  change (float_sum
            (map (λ '(k, v), Qcabs (v - default 0 (assoc k (table_of keys f))))
                 (table_of keys f)))
    with (weight_sum
            (λ '(k, v), Qcabs (v - default 0 (assoc k (table_of keys f))))
            (table_of keys f)).
  apply weight_sum_zero. intros [c w] Hin.
  unfold table_of in Hin. apply list_elem_of_fmap in Hin as (c' & [= -> ->] & Hc).
  rewrite table_of_assoc by done. simpl.
  replace (f c' - f c') with (Q2Qc 0) by ring. by apply Qcabs_pos.
Qed.

Lemma table_of_aggregated (keys : list combo) (f : combo → Qc) (i : nat)
    (v : string) :
  aggregated_weight (table_of keys f) i v
  = weight_sum f (filter (λ c, c !! i = Some v) keys).
Proof.
  induction keys as [|c keys IH]; [done|].
  unfold table_of. rewrite fmap_cons. fold (table_of keys f).
  rewrite aggregated_weight_cons, IH, filter_cons.
  destruct (decide (c !! i = Some v)).
  - by rewrite weight_sum_cons.
  - ring.
Qed.

(** A table that a constraint application relates to a table given by a
    function is given by a function as well. *)
Lemma table_of_rescaled (i : nat) (current target : string → Qc)
    (keys : list combo) (f g : combo → Qc) (t' : weight_table) :
  Forall2 (rescaled i current target) (table_of keys f) t' →
  (∀ c v, c ∈ keys → c !! i = Some v →
          g c = if Qc_ltb 0 (current v)
                then f c * (target v / current v) else 0) →
  t' = table_of keys g.
Proof.
  revert t'. induction keys as [|c keys IH]; intros t' HF Hg.
  - by inversion HF.
  - unfold table_of in HF. rewrite fmap_cons in HF.
    apply Forall2_cons_inv_l in HF as ([c' w'] & t'' & Hc & HF & ->).
    destruct Hc as (Hkey & v & Hv & Hw). simpl in Hkey, Hv, Hw. subst c'.
    unfold table_of. rewrite fmap_cons. f_equal.
    + f_equal. rewrite Hw. symmetry. apply Hg; [by left|done].
    + apply IH; [done|]. intros c1 v1 Hc1. apply Hg. by right.
Qed.

(** ** Sums over the cross product *)

Lemma weight_sum_scale_r {A} (k : Qc) (f : A → Qc) (l : list A) :
  weight_sum (λ x, f x * k) l = weight_sum f l * k.
Proof.
  induction l as [|x l IH]; [rewrite !weight_sum_nil; ring|].
  rewrite !weight_sum_cons, IH. ring.
Qed.

Lemma weight_sum_flat_map {A B} (f : B → Qc) (g : A → list B) (l : list A) :
  weight_sum f (flat_map g l) = weight_sum (λ x, weight_sum f (g x)) l.
Proof.
  induction l as [|x l IH]; simpl; [done|].
  by rewrite weight_sum_app, weight_sum_cons, IH.
Qed.

Lemma weight_sum_cons_map (f : combo → Qc) (x : string) (l : list combo) :
  weight_sum f (map (cons x) l) = weight_sum (λ c, f (x :: c)) l.
Proof.
  induction l as [|c l IH]; simpl; [done|].
  by rewrite !weight_sum_cons, IH.
Qed.

Lemma filter_flat_map {A B} (P : B → Prop) `{∀ x, Decision (P x)}
    (g : A → list B) (l : list A) :
  filter P (flat_map g l) = flat_map (λ x, filter P (g x)) l.
Proof.
  induction l as [|x l IH]; simpl; [done|]. by rewrite filter_app, IH.
Qed.

Lemma filter_head (x v : string) (l : list combo) :
  filter (λ c : combo, c !! 0%nat = Some v) (map (cons x) l)
  = if decide (x = v) then map (cons x) l else [].
Proof.
  induction l as [|c l IH]; simpl; [by destruct (decide (x = v))|].
  rewrite filter_cons, IH. simpl.
  destruct (decide (x = v)) as [->|Hne].
  - by rewrite decide_True.
  - rewrite decide_False; [done|]. by intros [= ?].
Qed.

Lemma filter_tail (i : nat) (x v : string) (l : list combo) :
  filter (λ c : combo, c !! S i = Some v) (map (cons x) l)
  = map (cons x) (filter (λ c : combo, c !! i = Some v) l).
Proof.
  induction l as [|c l IH]; simpl; [done|].
  rewrite !filter_cons, IH. simpl.
  by destruct (decide (c !! i = Some v)).
Qed.

Lemma weight_sum_indicator (a : string → Qc) (v : string) (l : list string) :
  NoDup l → v ∈ l →
  weight_sum (λ x, if decide (x = v) then a x else 0) l = a v.
Proof.
  induction l as [|x l IH]; intros Hnd Hv.
  - by apply not_elem_of_nil in Hv.
  - apply NoDup_cons in Hnd as [Hx Hnd]. rewrite weight_sum_cons.
    destruct (decide (x = v)) as [->|Hne].
    + rewrite weight_sum_zero; [ring|].
      intros y Hy. rewrite decide_False; [done|]. by intros ->.
    + rewrite IH; [ring|done|].
      apply elem_of_cons in Hv as [?|?]; [congruence|done].
Qed.

Lemma weight_sum_product (ws : list (string → Qc)) (vals : list (list string)) :
  length ws = length vals →
  weight_sum (factor_product ws) (product vals) = sums_product ws vals.
Proof.
  revert ws. induction vals as [|l vals IH]; intros [|w ws] Hlen; try done.
  simpl product. rewrite weight_sum_flat_map.
  rewrite (weight_sum_ext _ (λ x, w x * sums_product ws vals)).
  - simpl. by rewrite weight_sum_scale_r.
  - intros x _. rewrite weight_sum_cons_map. simpl.
    rewrite weight_sum_scale, IH; [done|]. by injection Hlen.
Qed.

(** The aggregated weight of a value in a product table: its own factor
    times the sums of the factors of the other dimensions. *)
Lemma weight_sum_product_at (ws1 ws2 : list (string → Qc)) (w : string → Qc)
    (vs1 vs2 : list (list string)) (l : list string) (v : string) :
  length ws1 = length vs1 → length ws2 = length vs2 → NoDup l → v ∈ l →
  weight_sum (factor_product (ws1 ++ w :: ws2))
             (filter (λ c : combo, c !! length vs1 = Some v)
                     (product (vs1 ++ l :: vs2)))
  = w v * sums_product (ws1 ++ ws2) (vs1 ++ vs2).
Proof.
  intros Hl1 Hl2 Hnd Hv. revert ws1 Hl1.
  induction vs1 as [|l0 vs1 IH]; intros [|w0 ws1] Hl1; try done.
  - simpl. rewrite filter_flat_map, weight_sum_flat_map.
    rewrite (weight_sum_ext _
               (λ x, if decide (x = v) then w x * sums_product ws2 vs2 else 0)).
    + by rewrite (weight_sum_indicator (λ x, w x * sums_product ws2 vs2)).
    + intros x _. rewrite filter_head. destruct (decide (x = v)); [|done].
      rewrite weight_sum_cons_map. simpl.
      by rewrite weight_sum_scale, weight_sum_product.
  - simpl. rewrite filter_flat_map, weight_sum_flat_map.
    rewrite (weight_sum_ext _
               (λ x, w0 x * (w v * sums_product (ws1 ++ ws2) (vs1 ++ vs2)))).
    + rewrite weight_sum_scale_r. ring.
    + intros x _. rewrite filter_tail, weight_sum_cons_map. simpl.
      rewrite weight_sum_scale, IH; [done|]. by injection Hl1.
Qed.

Lemma factor_product_app (ws1 ws2 : list (string → Qc)) (c1 c2 : combo) :
  length ws1 = length c1 →
  factor_product (ws1 ++ ws2) (c1 ++ c2)
  = factor_product ws1 c1 * factor_product ws2 c2.
Proof.
  revert c1. induction ws1 as [|w ws1 IH]; intros [|v c1] Hlen; try done.
  - simpl. ring.
  - simpl. rewrite IH by (by injection Hlen). ring.
Qed.

Lemma factor_product_ones (vals : list (list string)) (c : combo) :
  factor_product ((λ _ _, 1) <$> vals) c = 1.
Proof.
  revert c. induction vals as [|l vals IH]; intros [|v c]; try done.
  simpl. rewrite IH. ring.
Qed.

Lemma Qc_mul_pos (a b : Qc) : 0 < a → 0 < b → 0 < a * b.
Proof.
  intros Ha Hb. replace (Q2Qc 0) with (0 * b) by ring.
  by apply Qcmult_lt_compat_r.
Qed.

Lemma sums_product_pos (ws : list (string → Qc)) (vals : list (list string)) :
  Forall2 (λ w l, 0 < weight_sum w l) ws vals → 0 < sums_product ws vals.
Proof.
  induction 1 as [|w l ws vals Hw _ IH]; simpl; [done|].
  by apply Qc_mul_pos.
Qed.

(** ** One constraint application on a product table *)

Lemma product_split (vs1 vs2 : list (list string)) (l : list string)
    (c : combo) :
  c ∈ product (vs1 ++ l :: vs2) →
  ∃ c1 v c2, c = c1 ++ v :: c2 ∧ length c1 = length vs1 ∧ v ∈ l ∧
             c !! length vs1 = Some v.
Proof.
  intros Hc. apply elem_of_product in Hc.
  apply Forall2_app_inv_r in Hc as (c1 & c' & H1 & H2 & ->).
  apply Forall2_cons_inv_r in H2 as (v & c2 & Hv & H2 & ->).
  exists c1, v, c2. split; [done|].
  pose proof (Forall2_length _ _ _ H1) as Hlen.
  split; [done|]. split; [done|].
  rewrite <- Hlen. by rewrite list_lookup_middle.
Qed.

(** Fitting one dimension of a product table gives a product table again:
    the factor of the dimension becomes its target, and the scale becomes
    the inverse of the sums of the other factors. *)
Lemma fit_product_form (ws1 ws2 : list (string → Qc)) (w p : string → Qc)
    (vs1 vs2 : list (list string)) (l : list string) (k : Qc)
    (t' : weight_table) :
  length ws1 = length vs1 → length ws2 = length vs2 → NoDup l →
  0 < k → 0 < sums_product (ws1 ++ ws2) (vs1 ++ vs2) →
  (∀ v, 0 ≤ w v) → (∀ v, w v = 0 → p v = 0) →
  Forall2 (rescaled (length vs1)
             (aggregated_weight
                (table_of (product (vs1 ++ l :: vs2))
                          (λ c, k * factor_product (ws1 ++ w :: ws2) c))
                (length vs1)) p)
          (table_of (product (vs1 ++ l :: vs2))
                    (λ c, k * factor_product (ws1 ++ w :: ws2) c)) t' →
  t' = table_of (product (vs1 ++ l :: vs2))
         (λ c, / sums_product (ws1 ++ ws2) (vs1 ++ vs2)
               * factor_product (ws1 ++ p :: ws2) c).
Proof.
  intros Hl1 Hl2 Hnd Hk HR Hw Hac HF.
  eapply table_of_rescaled; [exact HF|].
  intros c v Hc Hcv.
  destruct (product_split _ _ _ _ Hc) as (c1 & v' & c2 & -> & Hc1 & Hv' & Hlook).
  assert (v' = v) as -> by congruence.
  rewrite table_of_aggregated, weight_sum_scale, weight_sum_product_at by done.
  rewrite !factor_product_app by congruence. simpl.
  set (R := sums_product (ws1 ++ ws2) (vs1 ++ vs2)) in *.
  set (A := factor_product ws1 c1). set (B := factor_product ws2 c2).
  assert (R ≠ 0) as HR0 by (intros Hz; rewrite Hz in HR; by apply Qclt_not_eq in HR).
  assert (k ≠ 0) as Hk0 by (intros Hz; rewrite Hz in Hk; by apply Qclt_not_eq in Hk).
  destruct (Qc_ltb 0 (k * (w v * R))) eqn:E.
  - apply Qc_ltb_lt in E.
    assert (w v ≠ 0) as Hw0.
    { intros Hz. rewrite Hz in E.
      replace (k * (0 * R)) with (Q2Qc 0) in E by ring.
      by apply Qclt_not_eq in E. }
    field. done.
  - assert (w v = 0) as Hz.
    { destruct (Qcle_lt_or_eq _ _ (Hw v)) as [Hpos|Heq]; [|done].
      exfalso. assert (0 < k * (w v * R)) as Hlt.
      { apply Qc_mul_pos; [done|]. by apply Qc_mul_pos. }
      apply Qc_ltb_lt in Hlt. congruence. }
    rewrite (Hac v Hz). ring.
Qed.

(** ** A sweep on a product table *)

Lemma list_index_middle (d : string) (l1 l2 : list string) :
  d ∉ l1 → list_index d (l1 ++ d :: l2) = Ok (length l1).
Proof.
  intros Hd. unfold list_index.
  assert (list_find (λ y, y = d) (l1 ++ d :: l2) = Some (length l1, d))
    as ->; [|done].
  induction l1 as [|x l1 IH]; simpl.
  - by rewrite decide_True.
  - apply not_elem_of_cons in Hd as [Hne Hd].
    rewrite decide_False by done. by rewrite IH.
Qed.

Lemma assoc_middle {V} (d : string) (v : V) (l1 l2 : list (string * V)) :
  d ∉ l1.*1 → assoc d (l1 ++ (d, v) :: l2) = Some v.
Proof.
  intros Hd. induction l1 as [|[d' v'] l1 IH]; simpl.
  - by rewrite decide_True.
  - rewrite fmap_cons in Hd. apply not_elem_of_cons in Hd as [Hne Hd].
    rewrite decide_False by done. by apply IH.
Qed.

Lemma Qc_inv_pos (c : Qc) : 0 < c → 0 < / c.
Proof.
  intros Hc. destruct (Qcle_lt_or_eq _ _ (Qc_inv_nonneg c Hc)) as [H|H];
    [done|].
  exfalso. assert (c * / c = 1) as H1.
  { apply Qcmult_inv_r. intros Hz. rewrite Hz in Hc.
    by apply Qclt_not_eq in Hc. }
  rewrite <- H in H1. by replace (c * 0) with (Q2Qc 0) in H1 by ring.
Qed.

Lemma targets_app (nm1 nm2 : list (string * gmap string Qc)) :
  targets (nm1 ++ nm2) = targets nm1 ++ targets nm2.
Proof. unfold targets. by rewrite fmap_app. Qed.

Lemma targets_length (nm : list (string * gmap string Qc)) :
  length (targets nm) = length nm.
Proof. unfold targets. by rewrite length_fmap. Qed.

(** The rest of a sweep, on a product table whose first dimensions have
    been fitted already: the table it ends on is the product of the
    targets, scaled by the inverse of the sums of the targets of all
    dimensions but the last. *)
Lemma sweep_suffix (nmt : list (string * gmap string Qc)) :
  ∀ (nmd : list (string * gmap string Qc)) (vd vt : list (list string))
    (wt : list (string → Qc)) (k : Qc),
  NoDup (nmd ++ nmt).*1 →
  length nmd = length vd → length nmt = length vt → length wt = length vt →
  Forall (λ l, NoDup l) vt →
  Forall2 (λ w l, 0 < weight_sum w l) (targets (nmd ++ nmt)) (vd ++ vt) →
  Forall2 (λ w l, 0 < weight_sum w l) wt vt →
  Forall (λ w, ∀ v, 0 ≤ w v) wt →
  Forall2 (λ w q, ∀ v : string, w v = 0 → get_default q.2 v 0 = 0) wt nmt →
  0 < k →
  ∃ k', 0 < k' ∧
    foldM (sweep_step (nmd ++ nmt) (nmd ++ nmt).*1)
          (table_of (product (vd ++ vt))
                    (λ c, k * factor_product (targets nmd ++ wt) c))
          nmt.*1
    = Ok (table_of (product (vd ++ vt))
                   (λ c, k' * factor_product (targets (nmd ++ nmt)) c)) ∧
    (nmt = [] → k' = k) ∧
    (nmt ≠ [] →
     k' = / sums_product (targets (removelast (nmd ++ nmt)))
                         (removelast (vd ++ vt))).
Proof.
  induction nmt as [|[d mt] nmt IH];
    intros nmd vd vt wt k Hnd Hld Hlt Hlw Hvals Hpos Hwpos Hwnn Hac Hk.
  - destruct vt; [|done]. destruct wt; [|done].
    exists k. rewrite !app_nil_r. simpl. done.
  - destruct vt as [|l vt]; [done|]. destruct wt as [|w wt]; [done|].
    apply Forall_cons in Hvals as [Hl Hvals].
    apply Forall2_cons in Hwpos as [Hw Hwpos].
    apply Forall_cons in Hwnn as [Hwn Hwnn].
    apply Forall2_cons in Hac as [Hacw Hac]. simpl in Hacw.
    assert (d ∉ nmd.*1) as Hd.
    { rewrite fmap_app, fmap_cons in Hnd. simpl in Hnd.
      apply NoDup_app in Hnd as (_ & Hnd & _). intros Hin.
      apply (Hnd d Hin). by left. }
    pose proof Hpos as Hpos'.
    rewrite targets_app in Hpos'.
    apply Forall2_app_inv in Hpos' as [Hposd Hpost];
      [|by rewrite targets_length].
    assert (0 < sums_product (targets nmd ++ wt) (vd ++ vt)) as HR.
    { apply sums_product_pos. by apply Forall2_app. }
    set (t := table_of (product (vd ++ l :: vt))
                (λ c, k * factor_product (targets nmd ++ w :: wt) c)).
    assert (∃ t1, sweep_step (nmd ++ (d, mt) :: nmt)
                    (nmd ++ (d, mt) :: nmt).*1 t d = Ok t1 ∧
                  t1 = table_of (product (vd ++ l :: vt))
                         (λ c, / sums_product (targets nmd ++ wt) (vd ++ vt)
                               * factor_product
                                   (targets (nmd ++ [(d, mt)]) ++ wt) c))
      as (t1 & Hstep & Ht1).
    { unfold sweep_step. rewrite assoc_middle by done.
      destruct (apply_marginal_constraint_simple_total t
                  (nmd ++ (d, mt) :: nmt).*1 d mt) as (t1 & Ht1 & _).
      - rewrite fmap_app, fmap_cons. apply elem_of_app. right. by left.
      - assert (length (nmd ++ (d, mt) :: nmt).*1 = length (vd ++ l :: vt))
          as -> by (rewrite length_fmap, !length_app; simpl in *; lia).
        apply product_arity. unfold t. by rewrite table_of_keys.
      - exists t1. split; [done|].
        apply apply_marginal_constraint_simple_spec in Ht1 as (i & Hi & HF).
        rewrite fmap_app, fmap_cons in Hi. simpl in Hi.
        rewrite list_index_middle in Hi by done. injection Hi as <-.
        rewrite length_fmap, Hld in HF.
        rewrite targets_app, <- app_assoc. simpl.
        apply (fit_product_form (targets nmd) wt w
                 (λ v, get_default mt v 0) vd vt l k t1); try done.
        + by rewrite targets_length.
        + by injection Hlw. }
    assert (nmd ++ (d, mt) :: nmt = (nmd ++ [(d, mt)]) ++ nmt) as Hnm
      by (by rewrite <- app_assoc).
    assert (vd ++ l :: vt = (vd ++ [l]) ++ vt) as Hvs
      by (by rewrite <- app_assoc).
    destruct (IH (nmd ++ [(d, mt)]) (vd ++ [l]) vt wt
                 (/ sums_product (targets nmd ++ wt) (vd ++ vt)))
      as (k' & Hk' & Hrun & Hnil & Hcons).
    + by rewrite <- Hnm.
    + rewrite !length_app. simpl. lia.
    + by injection Hlt.
    + by injection Hlw.
    + done.
    + by rewrite <- Hnm, <- Hvs.
    + done.
    + done.
    + done.
    + by apply Qc_inv_pos.
    + exists k'. split; [done|]. split; [|split; [done|]].
      * rewrite fmap_cons. simpl. fold t. rewrite Hstep. simpl.
        rewrite Ht1, Hnm, Hvs. exact Hrun.
      * intros _. destruct nmt as [|q nmt].
        -- rewrite (Hnil eq_refl). destruct vt; [|done]. destruct wt; [|done].
           rewrite !app_nil_r.
           change (nmd ++ [(d, mt)]) with (nmd ++ [(d, mt)]).
           by rewrite !removelast_last.
        -- rewrite Hcons by done. by rewrite <- Hnm, <- Hvs.
Qed.

Lemma sweep_fold (nm : list (string * gmap string Qc)) (dims : list string)
    (t : weight_table) :
  sweep nm dims t = foldM (sweep_step nm dims) t dims.
Proof. reflexivity. Qed.

(** A whole sweep on a product table with positive sums ends on the
    product of the targets, whatever the factors it started from. *)
Lemma sweep_product_form (nm : list (string * gmap string Qc))
    (vals : list (list string)) (ws : list (string → Qc)) (k : Qc) :
  NoDup nm.*1 → nm ≠ [] →
  length nm = length vals → length ws = length vals →
  Forall (λ l, NoDup l) vals →
  Forall2 (λ w l, 0 < weight_sum w l) (targets nm) vals →
  Forall2 (λ w l, 0 < weight_sum w l) ws vals →
  Forall (λ w, ∀ v, 0 ≤ w v) ws →
  Forall2 (λ w q, ∀ v : string, w v = 0 → get_default q.2 v 0 = 0) ws nm →
  0 < k →
  sweep nm nm.*1 (table_of (product vals) (λ c, k * factor_product ws c))
  = Ok (table_of (product vals)
          (λ c, / sums_product (targets (removelast nm)) (removelast vals)
                * factor_product (targets nm) c)) ∧
  0 < / sums_product (targets (removelast nm)) (removelast vals).
Proof.
  intros Hnd Hne Hl Hlw Hvals Hpos Hwpos Hwnn Hac Hk.
  destruct (sweep_suffix nm [] [] vals ws k) as (k' & Hk' & Hrun & _ & Hlast);
    try done.
  rewrite (Hlast Hne) in Hrun, Hk'. simpl in Hrun.
  by rewrite sweep_fold.
Qed.

(** ** The uniform table *)

Lemma uniform_table_product_form (vals : list (list string))
    (t : weight_table) :
  product vals ≠ [] → uniform_table vals = Ok t →
  ∃ k, 0 < k ∧
       t = table_of (product vals)
             (λ c, k * factor_product ((λ _ _, 1) <$> vals) c).
Proof.
  intros Hne H. unfold uniform_table in H.
  pose proof (float_sum_ones_pos (product vals) Hne) as Hpos.
  set (total := float_sum (map (λ c : combo, (c, 1)) (product vals)).*2) in *.
  exists (/ total). split; [by apply Qc_inv_pos|].
  apply forM_Forall2 in H. clearbody total.
  revert t H. generalize (product vals). intros keys.
  induction keys as [|c keys IH]; intros t H; simpl in H.
  - by inversion H.
  - apply Forall2_cons_inv_l in H as ([c' w'] & t' & Hc & H & ->).
    apply bind_Ok in Hc as (q & Hq & [= <- <-]).
    unfold py_div in Hq. destruct (decide (total = 0)); [discriminate|].
    injection Hq as <-.
    unfold table_of. rewrite fmap_cons. fold (table_of keys
      (λ c0, / total * factor_product ((λ _ _, 1) <$> vals) c0)).
    rewrite <- (IH t' H). f_equal. f_equal.
    rewrite factor_product_ones. unfold Qcdiv. ring.
Qed.

Lemma product_nonempty (vals : list (list string)) :
  Forall (λ l, l ≠ []) vals → product vals ≠ [].
Proof.
  induction 1 as [|l vals Hl _ IH]; simpl; [done|].
  destruct l as [|x l]; [done|]. simpl.
  destruct (product vals) as [|c cs]; [done|]. done.
Qed.

(** ** A dimension whose counts are all zero *)

Lemma rescaled_zero_target (i : nat) (current target : string → Qc)
    (t t' : weight_table) :
  Forall2 (rescaled i current target) t t' → (∀ v, target v = 0) →
  Forall (λ p, p.2 = 0) t'.
Proof.
  intros HF Hz.
  induction HF as [|[c p] [c' p'] t t' (_ & v & _ & Hp) _ IH]; [done|].
  constructor; [|done]. simpl in *. rewrite Hp, Hz.
  destruct (Qc_ltb 0 (current v)); [|done]. unfold Qcdiv. ring.
Qed.

Lemma rescaled_zero_table (i : nat) (current target : string → Qc)
    (t t' : weight_table) :
  Forall2 (rescaled i current target) t t' → Forall (λ p, p.2 = 0) t →
  t' = t.
Proof.
  induction 1 as [|[c p] [c' p'] t t' (Hkey & v & _ & Hp) _ IH];
    intros Hz; [done|].
  apply Forall_cons in Hz as [Hp0 Hz]. simpl in *. subst c' p.
  rewrite (IH Hz). f_equal. f_equal. rewrite Hp.
  destruct (Qc_ltb 0 (current v)); [|done]. ring.
Qed.

Lemma sweep_steps_zero_table (nm : list (string * gmap string Qc))
    (dims l : list string) (t t' : weight_table) :
  Forall (λ p, p.2 = 0) t → foldM (sweep_step nm dims) t l = Ok t' → t' = t.
Proof.
  intros Hz. induction l as [|d l IH]; intros H; simpl in H.
  - by injection H as <-.
  - apply bind_Ok in H as (t1 & Hstep & H).
    assert (t1 = t) as ->; [|by apply IH].
    unfold sweep_step in Hstep.
    destruct (assoc d nm) as [mt|]; [|by injection Hstep as <-].
    apply apply_marginal_constraint_simple_spec in Hstep as (i & _ & HF).
    by eapply rescaled_zero_table.
Qed.

Lemma sweep_steps_reach_zero (nm : list (string * gmap string Qc))
    (dims : list string) (d : string) (mt : gmap string Qc)
    (l : list string) :
  NoDup nm.*1 → (d, mt) ∈ nm → (∀ v, get_default mt v 0 = 0) →
  ∀ t t', foldM (sweep_step nm dims) t l = Ok t' →
          Forall (λ p, p.2 = 0) t ∨ d ∈ l → Forall (λ p, p.2 = 0) t'.
Proof.
  intros Hnd Hin Hz. induction l as [|d' l IH]; intros t t' H Hcase.
  - injection H as <-. destruct Hcase as [?|Hd]; [done|].
    by apply not_elem_of_nil in Hd.
  - simpl in H. apply bind_Ok in H as (t1 & Hstep & H).
    apply (IH _ _ H). destruct Hcase as [Hzero|Hd].
    + left. assert (t1 = t) as ->; [|done].
      apply (sweep_steps_zero_table nm dims [d'] t t1 Hzero).
      simpl. by rewrite Hstep.
    + apply elem_of_cons in Hd as [<-|Hd]; [|by right]. left.
      unfold sweep_step in Hstep. rewrite (elem_assoc_Some _ _ _ Hnd Hin) in Hstep.
      apply apply_marginal_constraint_simple_spec in Hstep as (i & _ & HF).
      by eapply rescaled_zero_target.
Qed.

Lemma zero_table_of (t : weight_table) :
  Forall (λ p, p.2 = 0) t → t = table_of t.*1 (λ _, 0).
Proof.
  induction 1 as [|[c p] t Hp _ IH]; [done|].
  simpl in Hp. subst p. rewrite fmap_cons. unfold table_of.
  rewrite fmap_cons. fold (table_of t.*1 (λ _, 0)). by rewrite <- IH.
Qed.

(** ** The second sweep changes nothing *)

Lemma positive_or_zero {A B} (P : A → B → Prop) (Q : A → Prop)
    (l : list A) (k : list B) :
  Forall2 (λ x y, P x y ∨ Q x) l k →
  Forall2 P l k ∨ ∃ x, x ∈ l ∧ Q x.
Proof.
  induction 1 as [|x y l k [Hp|Hq] _ [IH|(x' & Hx' & Hq')]].
  - left. constructor.
  - left. by constructor.
  - right. exists x'. split; [by right|done].
  - right. exists x. split; [by left|done].
  - right. exists x. split; [by left|done].
Qed.

Lemma ones_positive (vals : list (list string)) :
  Forall (λ l, l ≠ []) vals →
  Forall2 (λ (w : string → Qc) l, 0 < weight_sum w l)
          ((λ _ _, 1) <$> vals) vals.
Proof.
  induction 1 as [|l vals Hl _ IH]; [constructor|].
  rewrite fmap_cons. constructor; [|done].
  destruct l as [|x l]; [done|].
  apply (weight_sum_pos _ _ x); [done|by left|done].
Qed.

(** After the first sweep of a run that starts from the uniform table, a
    further sweep leaves the table as it is. *)
Lemma second_sweep_fixed (nm : list (string * gmap string Qc))
    (vals : list (list string)) (t0 t1 t2 : weight_table) :
  NoDup nm.*1 → length nm = length vals →
  Forall (λ l, NoDup l) vals → Forall (λ l, l ≠ []) vals →
  (∀ q v, q ∈ nm → 0 ≤ get_default q.2 v 0) →
  Forall2 (λ q l, 0 < weight_sum (λ v, get_default q.2 v 0) l
                  ∨ ∀ v, get_default q.2 v 0 = 0) nm vals →
  uniform_table vals = Ok t0 →
  sweep nm nm.*1 t0 = Ok t1 → sweep nm nm.*1 t1 = Ok t2 →
  t2 = t1 ∧ total_change t1 t1 = 0.
Proof.
  intros Hnd Hlen Hvals Hne Hnn Hcases Ht0 H1 H2.
  apply uniform_table_product_form in Ht0 as (k0 & Hk0 & ->);
    [|by apply product_nonempty].
  destruct (decide (nm = [])) as [->|Hnm].
  { injection H1 as <-. injection H2 as <-. split; [done|].
    apply table_of_unchanged. }
  apply positive_or_zero in Hcases as [Hpos|([d mt] & Hin & Hz)].
  - assert (Forall2 (λ (w : string → Qc) l, 0 < weight_sum w l)
                    (targets nm) vals) as Hpos'.
    { unfold targets. by apply Forall2_fmap_l. }
    destruct (sweep_product_form nm vals ((λ _ _, 1) <$> vals) k0)
      as [Hs1 Hk1]; try done.
    { by rewrite length_fmap. }
    { by apply ones_positive. }
    { apply Forall_fmap, Forall_forall. intros l _ v. done. }
    { apply Forall2_fmap_l, Forall2_flip.
      eapply Forall2_impl; [exact Hpos|]. intros q l _ v Hv. simpl in Hv.
      discriminate. }
    assert (t1 = table_of (product vals)
                   (λ c, / sums_product (targets (removelast nm))
                                        (removelast vals)
                         * factor_product (targets nm) c)) as ->
      by congruence.
    destruct (sweep_product_form nm vals (targets nm)
                (/ sums_product (targets (removelast nm)) (removelast vals)))
      as [Hs2 _]; try done.
    { by rewrite targets_length. }
    { unfold targets. apply Forall_fmap, Forall_forall. intros q Hq v.
      by apply Hnn. }
    { unfold targets. apply Forall2_fmap_l, Forall_Forall2_diag, Forall_forall.
      intros q _ v Hv. done. }
    split; [congruence|]. apply table_of_unchanged.
  - simpl in Hz. rewrite sweep_fold in H1, H2.
    assert (Forall (λ p : combo * Qc, p.2 = 0) t1) as Hzero.
    { apply (sweep_steps_reach_zero nm nm.*1 d mt nm.*1 Hnd Hin Hz _ _ H1).
      right. apply list_elem_of_fmap. by exists (d, mt). }
    split.
    + by apply (sweep_steps_zero_table nm nm.*1 nm.*1).
    + rewrite (zero_table_of t1 Hzero). apply table_of_unchanged.
Qed.

(** ** The run of the estimation *)

Lemma active_dimensions_alt (m : marginals) :
  active_dimensions m
  = (λ p : string * totals, (p.1, sorted_keys p.2)) <$> active_marginals m.
Proof.
  induction m as [|[d tot] m IH]; [done|].
  rewrite active_dimensions_cons. unfold active_marginals.
  rewrite filter_cons. fold (active_marginals m). simpl.
  destruct (decide (tot = ∅)) as [Hz|Hnz].
  - by rewrite decide_False by (intros Hne; by apply Hne).
  - rewrite decide_True by done. by rewrite fmap_cons, IH.
Qed.

Lemma normalize_marginals_alt (N : Z) (m : marginals)
    (nm : list (string * gmap string Qc)) :
  N ≠ 0%Z → normalize_marginals N m = Ok nm →
  nm = (λ p : string * totals,
          (p.1, (λ v, Qc_of_Z v / Qc_of_Z N) <$> p.2))
         <$> active_marginals m.
Proof.
  intros HN H. unfold normalize_marginals in H.
  fold (active_marginals m) in H. apply forM_Forall2 in H.
  induction H as [|[d tot] q l k Hq _ IH]; [done|].
  rewrite fmap_cons, <- IH. f_equal. simpl in Hq.
  apply bind_Ok in Hq as (nt & Hnt & [= <-]).
  unfold normalize_totals in Hnt.
  case_bool_decide as Hc; [by destruct Hc|]. by injection Hnt as <-.
Qed.

(** On marginals with non-negative counts the table after the first sweep
    is left as it is by a further sweep. *)
Lemma estimation_second_sweep (m : marginals) (N : Z)
    (nm : list (string * gmap string Qc)) (t0 t1 t2 : weight_table) :
  NoDup m.*1 → nonneg_marginals m → (0 < N)%Z →
  normalize_marginals N m = Ok nm →
  uniform_table (active_dimensions m).*2 = Ok t0 →
  sweep nm (active_dimensions m).*1 t0 = Ok t1 →
  sweep nm (active_dimensions m).*1 t1 = Ok t2 →
  t2 = t1 ∧ total_change t1 t1 = 0.
Proof.
  intros Hnd Hm HN Hnm Ht0 H1 H2.
  pose proof (normalize_marginals_nonneg N m nm Hm HN Hnm) as Hnn.
  assert (N ≠ 0%Z) as HN0 by lia.
  pose proof (normalize_marginals_alt N m nm HN0 Hnm) as Hnm'.
  assert ((active_dimensions m).*1 = nm.*1) as Hnames.
  { rewrite active_dimensions_alt, Hnm', <- !list_fmap_compose.
    by apply list_fmap_ext. }
  pose proof (NoDup_active_dimensions m Hnd) as Hnd'.
  rewrite Hnames in H1, H2, Hnd'.
  apply (second_sweep_fixed nm (active_dimensions m).*2 t0 t1 t2);
    try done.
  - by rewrite Hnm', active_dimensions_alt, !length_fmap.
  - rewrite active_dimensions_alt, <- list_fmap_compose.
    apply Forall_fmap, Forall_forall. intros p _. apply NoDup_sorted_keys.
  - rewrite active_dimensions_alt, <- list_fmap_compose.
    apply Forall_fmap, Forall_forall. intros p Hp. simpl.
    apply list_elem_of_filter in Hp as [Hp _]. intros Hnil.
    by apply sorted_keys_nil in Hnil.
  - intros [d mt] v Hq. by eapply Hnn.
  - rewrite active_dimensions_alt, <- list_fmap_compose.
    assert (∀ q, q ∈ nm → ∀ v, 0 ≤ get_default q.2 v 0) as Hnn'.
    { intros [d mt] Hq v. by eapply Hnn. }
    rewrite Hnm' in Hnn' |- *.
    apply Forall2_fmap, Forall_Forall2_diag, Forall_forall.
    intros [d tot] Hin. simpl.
    assert (∀ v, 0 ≤ get_default ((λ c, Qc_of_Z c / Qc_of_Z N) <$> tot) v 0)
      as Htot.
    { intros v.
      assert ((d, (λ c, Qc_of_Z c / Qc_of_Z N) <$> tot)
              ∈ (λ p : string * totals,
                   (p.1, (λ v, Qc_of_Z v / Qc_of_Z N) <$> p.2))
                  <$> active_marginals m) as Hq
        by (apply list_elem_of_fmap; by exists (d, tot)).
      exact (Hnn' _ Hq v). }
    apply list_elem_of_filter in Hin as [_ Hin].
    destruct (decide (map_Forall (λ _ c, c = 0%Z) tot)) as [Hall|Hsome].
    + right. intros v. unfold get_default. rewrite lookup_fmap.
      destruct (tot !! v) as [c|] eqn:E; simpl; [|done].
      rewrite (Hall v c E). rewrite Z2Qc_inj_0. unfold Qcdiv. ring.
    + left. apply map_not_Forall in Hsome as (v & c & Hv & Hc); [|apply _].
      apply (weight_sum_pos _ _ v).
      * intros y _. apply Htot.
      * apply elem_of_sorted_keys. by exists c.
      * unfold get_default. rewrite lookup_fmap, Hv. simpl.
        apply Qc_mul_pos; [|by apply Qc_inv_pos, Qc_of_Z_pos].
        apply Qc_of_Z_pos. pose proof (Hm d tot v c Hin Hv). lia.
Qed.

Lemma two_sweeps_suffice (r : nat) (nm : list (string * gmap string Qc))
    (dims : list string) (t0 t : weight_table) (n : nat) :
  ipf_iterations (S (S r)) nm dims t0 = Ok (t, n) →
  (∀ t1 t2, sweep nm dims t0 = Ok t1 → sweep nm dims t1 = Ok t2 →
            total_change t2 t1 < tolerance) →
  (n ≤ 2)%nat.
Proof.
  intros H Hfix. simpl in H. apply bind_Ok in H as (t1 & H1 & H).
  destruct (Qc_ltb (total_change t1 t0) tolerance); [injection H as _ <-; lia|].
  apply bind_Ok in H as ([t' n'] & H & [= _ <-]).
  apply bind_Ok in H as (t2 & H2 & H).
  destruct (Qc_ltb (total_change t2 t1) tolerance) eqn:E;
    [injection H as _ <-; simpl; lia|].
  pose proof (Hfix t1 t2 H1 H2) as Hlt. apply Qc_ltb_lt in Hlt. congruence.
Qed.

(** Where the iteration stops: on the first sweep that changes the table
    by less than the tolerance, or else on the last of the rounds. *)
Lemma ipf_iterations_stops (r : nat) (nm : list (string * gmap string Qc))
    (dims : list string) :
  ∀ (t t' : weight_table) (n : nat),
  ipf_iterations (S r) nm dims t = Ok (t', n) →
  (1 ≤ n ≤ S r)%nat ∧
  (∃ a, iterate_sweep (n - 1) nm dims t = Ok a ∧ sweep nm dims a = Ok t' ∧
        ((n < S r)%nat → total_change t' a < tolerance)) ∧
  (∀ k a b, (S k < n)%nat → iterate_sweep k nm dims t = Ok a →
            sweep nm dims a = Ok b → tolerance ≤ total_change b a).
Proof.
  induction r as [|r IH]; intros t t' n H.
  - simpl in H. apply bind_Ok in H as (t1 & H1 & H).
    assert (t' = t1 ∧ n = 1%nat) as [-> ->].
    { destruct (Qc_ltb _ _); by injection H as <- <-. }
    split; [lia|]. split.
    + exists t. split; [done|]. split; [done|]. lia.
    + intros k a b Hk. lia.
  - change (ipf_iterations (S (S r)) nm dims t)
      with (t1 ← sweep nm dims t;
            if Qc_ltb (total_change t1 t) tolerance then Ok (t1, 1%nat)
            else r' ← ipf_iterations (S r) nm dims t1; Ok (r'.1, S r'.2))
      in H.
    apply bind_Ok in H as (t1 & H1 & H).
    destruct (Qc_ltb (total_change t1 t) tolerance) eqn:E.
    + injection H as <- <-. split; [lia|]. split.
      * exists t. split; [done|]. split; [done|]. intros _.
        by apply Qc_ltb_lt.
      * intros k a b Hk. lia.
    + apply bind_Ok in H as ([t2 n2] & H & [= <- <-]).
      destruct (IH _ _ _ H) as (Hn & (a & Ha & Hlast & Htol) & Hearlier).
      split; [lia|]. split.
      * exists a. split; [|split; [done|intros ?; apply Htol; lia]].
        replace (S n2 - 1)%nat with (S (n2 - 1)) by lia.
        simpl. by rewrite H1.
      * intros k a' b Hk Ha' Hb. destruct k as [|k].
        -- simpl in Ha'. injection Ha' as <-.
           assert (b = t1) as -> by congruence.
           apply Qcnot_lt_le. intros Hlt. apply Qc_ltb_lt in Hlt. congruence.
        -- simpl in Ha'. apply bind_Ok in Ha' as (t1' & H1' & Ha').
           assert (t1' = t1) as -> by congruence.
           apply (Hearlier k a' b); [lia|done|done].
Qed.

Lemma run_ipf_counting_run (m : marginals) (N : Z) :
  total_events_of m = Ok N → N ≠ 0%Z →
  ∃ t0 nm t n,
    uniform_table (active_dimensions m).*2 = Ok t0 ∧
    normalize_marginals N m = Ok nm ∧
    ipf_iterations 50 nm (active_dimensions m).*1 t0 = Ok (t, n) ∧
    run_ipf_counting m = Ok (t, n).
Proof.
  intros HN Hnz.
  destruct (uniform_table_total (active_dimensions m).*2) as (t0 & Ht0 & Hkeys).
  destruct (normalize_marginals_total N m Hnz) as [nm Hnm].
  apply product_arity in Hkeys. rewrite length_fmap in Hkeys.
  rewrite <- (length_fmap fst) in Hkeys.
  destruct (ipf_iterations_total 50 nm _ t0 Hkeys) as (t & n & Hrun).
  exists t0, nm, t, n. split; [done|]. split; [done|]. split; [done|].
  unfold run_ipf_counting. rewrite Ht0. simpl. rewrite HN. simpl.
  rewrite Hnm. simpl. exact Hrun.
Qed.

(** ** The claim on the bounded iteration *)

(** C6 (as the code has it).  For every marginal input whose largest
    dimension total is defined and not zero, the estimation does not
    raise.  Starting from the uniform table it runs at least one and at
    most 50 sweeps and stops on the first sweep that changes the table by
    less than the tolerance: every earlier sweep changed it by the
    tolerance or more, and a run of fewer than 50 sweeps ends on a sweep
    that changed it by less.  It returns the table after the last sweep,
    with [None] and the dimension names.  When the dimension names are
    distinct and the counts non-negative, the tolerance is always met, by
    the second sweep at the latest: the cap is never reached without the
    tolerance being met. *)
Theorem ipf_bounded_and_total (m : marginals) (N : Z) :
  total_events_of m = Ok N → N ≠ 0%Z →
  ∃ t0 nm t n,
    uniform_table (active_dimensions m).*2 = Ok t0 ∧
    normalize_marginals N m = Ok nm ∧
    run_ipf_counting m = Ok (t, n) ∧
    run_ipf_for_weights m = Ok (t, None, (active_dimensions m).*1) ∧
    (1 ≤ n ≤ 50)%nat ∧
    (∃ a, iterate_sweep (n - 1) nm (active_dimensions m).*1 t0 = Ok a ∧
          sweep nm (active_dimensions m).*1 a = Ok t ∧
          ((n < 50)%nat → total_change t a < tolerance)) ∧
    (∀ k a b, (S k < n)%nat →
       iterate_sweep k nm (active_dimensions m).*1 t0 = Ok a →
       sweep nm (active_dimensions m).*1 a = Ok b →
       tolerance ≤ total_change b a) ∧
    (NoDup m.*1 → nonneg_marginals m →
       (n ≤ 2)%nat ∧
       ∃ a, iterate_sweep (n - 1) nm (active_dimensions m).*1 t0 = Ok a ∧
            sweep nm (active_dimensions m).*1 a = Ok t ∧
            total_change t a < tolerance).
Proof.
  intros HN Hnz.
  destruct (run_ipf_counting_run m N HN Hnz)
    as (t0 & nm & t & n & Ht0 & Hnm & Hiter & Hrun).
  exists t0, nm, t, n.
  destruct (ipf_iterations_stops 49 nm _ _ _ _ Hiter)
    as (Hn & (a & Ha & Hlast & Htol) & Hearlier).
  split; [done|]. split; [done|]. split; [done|].
  split; [unfold run_ipf_for_weights; by rewrite Hrun|].
  split; [done|]. split; [by exists a|]. split; [done|].
  intros Hnd Hm.
  assert (0 < N)%Z as Hpos.
  { pose proof (total_events_of_nonneg m N Hm HN). lia. }
  assert (n ≤ 2)%nat as Hn2.
  { apply (two_sweeps_suffice 48 nm (active_dimensions m).*1 t0 t n Hiter).
    intros t1 t2 H1 H2.
    destruct (estimation_second_sweep m N nm t0 t1 t2 Hnd Hm Hpos Hnm Ht0
                H1 H2) as [-> Hzero].
    rewrite Hzero. reflexivity. }
  split; [done|]. exists a. split; [done|]. split; [done|].
  apply Htol. lia.
Qed.

Lemma ipf_bounded_and_total_witness :
  ∃ t n,
    run_ipf_counting scenario_marginals = Ok (t, n) ∧
    run_ipf_for_weights scenario_marginals
      = Ok (t, None, (active_dimensions scenario_marginals).*1) ∧
    (1 ≤ n ≤ 2)%nat.
Proof.
  destruct (ipf_bounded_and_total scenario_marginals 5)
    as (t0 & nm & t & n & _ & _ & Hrun & Hret & Hn & _ & _ & Hconv).
  - reflexivity.
  - discriminate.
  - destruct Hconv as [Hn2 _].
    + apply NoDup_check. vm_compute. reflexivity.
    + apply nonneg_marginals_check. vm_compute. reflexivity.
    + exists t, n. split; [exact Hrun|]. split; [exact Hret|].
      split; [apply Hn|exact Hn2].
Defined.

(** C6 as stated fails: on the hour whose only page row has a count of
    zero the largest total is zero and the estimation, and with it the
    solver, raises [ZeroDivisionError]. *)
Lemma ipf_never_raises_counterexample :
  total_events_of zero_marginals = Ok 0%Z ∧
  run_ipf_for_weights zero_marginals = Raise ZeroDivisionError ∧
  solve_exact_distribution zero_marginals = Raise ZeroDivisionError ∧
  ¬ (∀ m, ∃ r, run_ipf_for_weights m = Ok r).
Proof.
  split; [reflexivity|].
  assert (run_ipf_for_weights zero_marginals = Raise ZeroDivisionError) as H
    by (vm_compute; reflexivity).
  split; [exact H|]. split; [vm_compute; reflexivity|].
  intros Hall. destruct (Hall zero_marginals) as [r Hr]. congruence.
Qed.

Local Close Scope Qc_scope.
